(** * The tool scheduler, the tool registry, the parameter sanitizer
      and the format converter

    A shallow embedding of four parts of the agent runtime:

    - [dbrheo/core/scheduler.py]: the [ToolScheduler] state machine,
    - [dbrheo/tools/registry.py] and [dbrheo/tools/mcp/mcp_registry.py]:
      the [ToolRegistry] indices and the MCP (un)registration path,
    - [dbrheo/utils/parameter_sanitizer.py]: [sanitize_parameters],
    - [dbrheo/tools/mcp/mcp_converter.py]: the conversions of tool calls
      and tool results between the wire formats.

    Python objects that the code mutates in place and shares (the
    scheduler's [tool_calls] list, the schema dictionaries) are modelled
    with their identity; everything else is modelled by value. *)

From Stdlib Require Import ZArith String List Bool Lia.
From stdpp Require Import base option list strings gmap sorting.

Set Warnings "-register-all,-clear-no-such-hyp".
Open Scope string_scope.
Open Scope list_scope.

(** ** Python values shared by the three parts *)

Module Py.

(** An insertion-ordered dictionary with string keys, as Python's [dict].
    Keys are unique: [set] overwrites in place and appends a new key. *)
Abbreviation dict V := (list (string * V)).

Fixpoint get {V} (d : dict V) (k : string) : option V :=
  match d with
  | [] => None
  | (k', v) :: r => if String.eqb k' k then Some v else get r k
  end.

(** [k in d] *)
Definition contains {V} (d : dict V) (k : string) : bool :=
  match get d k with Some _ => true | None => false end.

(** [d[k] = v] *)
Fixpoint set {V} (d : dict V) (k : string) (v : V) : dict V :=
  match d with
  | [] => [(k, v)]
  | (k', v') :: r =>
      if String.eqb k' k then (k', v) :: r else (k', v') :: set r k v
  end.

(** [del d[k]]: the entry of key [k] is removed (the callers test
    [k in d] first). *)
Definition del {V} (d : dict V) (k : string) : dict V :=
  List.filter (fun kv => negb (String.eqb (fst kv) k)) d.

(** [d.update(other)] *)
Definition update {V} (d other : dict V) : dict V :=
  fold_left (fun acc kv => set acc (fst kv) (snd kv)) other d.

(** JSON-like data passed by value: tool arguments, response parts. *)
Inductive Json : Type :=
| JNull
| JBool (b : bool)
| JNum (z : Z)
| JStr (s : string)
| JArr (items : list Json)
| JObj (fields : list (string * Json)).

(** The result of a call that may raise.  [Raises e] carries [str(e)] of
    an exception that is an instance of [Exception], the ones a clause
    [except Exception] catches.  [RaisesBase e] carries [str(e)] of an
    exception that is not one ([asyncio.CancelledError],
    [KeyboardInterrupt], [SystemExit]): such a clause lets it pass. *)
Inductive Outcome (A : Type) : Type :=
| Returns (a : A)
| Raises (e : string)
| RaisesBase (e : string).
Arguments Returns {A} a.
Arguments Raises {A} e.
Arguments RaisesBase {A} e.

(** Whether a call was left by an exception that is not an [Exception]. *)
Definition escaped {A} (o : Outcome A) : bool :=
  match o with
  | RaisesBase _ => true
  | _ => false
  end.

(** Truth value of an [Optional[str]]: [None] and [""] are false. *)
Definition truthy_str (o : option string) : bool :=
  match o with
  | Some s => negb (String.eqb s "")
  | None => false
  end.

Lemma get_set_eq {V} (d : dict V) k v : get (set d k v) k = Some v.
Proof.
  induction d as [|[k' v'] r IH]; simpl.
  - now rewrite String.eqb_refl.
  - destruct (String.eqb k' k) eqn:E; simpl; rewrite E; auto.
Qed.

Lemma get_set_ne {V} (d : dict V) k k' v :
  k <> k' -> get (set d k v) k' = get d k'.
Proof.
  intros Hne. induction d as [|[k0 v0] r IH]; simpl.
  - destruct (String.eqb k k') eqn:E; auto.
    apply String.eqb_eq in E. contradiction.
  - destruct (String.eqb k0 k) eqn:E; simpl.
    + apply String.eqb_eq in E. subst k0.
      destruct (String.eqb k k') eqn:E'; auto.
      apply String.eqb_eq in E'. contradiction.
    + now rewrite IH.
Qed.

Lemma get_del_eq {V} (d : dict V) k : get (del d k) k = None.
Proof.
  induction d as [|[k' v'] r IH]; simpl; auto.
  destruct (String.eqb k' k) eqn:E; simpl; auto. now rewrite E.
Qed.

Lemma get_del_ne {V} (d : dict V) k k' :
  k <> k' -> get (del d k) k' = get d k'.
Proof.
  intros Hne. induction d as [|[k0 v0] r IH]; simpl; auto.
  destruct (String.eqb k0 k) eqn:E; simpl.
  - apply String.eqb_eq in E. subst k0.
    destruct (String.eqb k k') eqn:E'; auto.
    apply String.eqb_eq in E'. contradiction.
  - now rewrite IH.
Qed.

Lemma in_del {V} (d : dict V) k kv : In kv (del d k) -> In kv d.
Proof. unfold del. rewrite filter_In. tauto. Qed.

End Py.

(** ** [types/tool_types.py] and the tool interface *)

Module ToolTypes.
Import Py.

Record ToolResult : Type := {
  summary : option string;
  llm_content : string;
  return_display : option string;
  error : option string
}.

Record ToolCallRequestInfo : Type := {
  call_id : string;
  name : string;
  args : dict Json;
  is_client_initiated : bool;
  prompt_id : string
}.

(** [error] holds [str] of the exception stored in the response. *)
Record ToolCallResponseInfo : Type := {
  response_call_id : string;
  response_parts : Json;
  result_display : option string;
  response_error : option string
}.

Record ConfirmationDetails : Type := {
  confirmation_type : string;
  title : string
}.

(** What a tool does is given by two functions of the arguments and of
    [signal.aborted] as the tool observes it.  [should_confirm_execute]
    returns [None] for a false result.  [execute] first passes the listed
    chunks to [update_output] and then returns or raises. *)
Record Tool : Type := {
  tool_name : string;
  description : string;
  parameter_schema : option nat;
  should_confirm_execute :
    dict Json -> bool -> Outcome (option ConfirmationDetails);
  execute : dict Json -> bool -> list string * Outcome ToolResult
}.

(** The [details: Any = None] argument of [_set_status]: the callers pass
    nothing, confirmation details or a response. *)
Inductive Details : Type :=
| DNone
| DConfirmation (d : ConfirmationDetails)
| DResponse (r : ToolCallResponseInfo).

(** The seven dataclasses of the [ToolCall] union.  Times are readings of
    [time.time()], taken as integers. *)
Inductive ToolCall : Type :=
| ValidatingToolCall
    (request : ToolCallRequestInfo) (tool : option Tool)
    (start_time : option Z)
| ScheduledToolCall
    (request : ToolCallRequestInfo) (tool : option Tool)
    (start_time : option Z)
| ExecutingToolCall
    (request : ToolCallRequestInfo) (tool : option Tool)
    (live_output : option string) (start_time : option Z)
| SuccessfulToolCall
    (request : ToolCallRequestInfo) (tool : option Tool)
    (response : Details) (duration_ms : Z)
| ErroredToolCall
    (request : ToolCallRequestInfo)
    (response : Details) (duration_ms : Z)
| CancelledToolCall
    (request : ToolCallRequestInfo) (tool : option Tool)
    (response : Details) (duration_ms : Z)
| WaitingToolCall
    (request : ToolCallRequestInfo) (tool : option Tool)
    (confirmation_details : Details) (start_time : option Z).

Definition request (c : ToolCall) : ToolCallRequestInfo :=
  match c with
  | ValidatingToolCall r _ _ | ScheduledToolCall r _ _
  | ExecutingToolCall r _ _ _ | SuccessfulToolCall r _ _ _
  | ErroredToolCall r _ _ | CancelledToolCall r _ _ _
  | WaitingToolCall r _ _ _ => r
  end.

Definition status (c : ToolCall) : string :=
  match c with
  | ValidatingToolCall _ _ _ => "validating"
  | ScheduledToolCall _ _ _ => "scheduled"
  | ExecutingToolCall _ _ _ _ => "executing"
  | SuccessfulToolCall _ _ _ _ => "success"
  | ErroredToolCall _ _ _ => "error"
  | CancelledToolCall _ _ _ _ => "cancelled"
  | WaitingToolCall _ _ _ _ => "awaiting_approval"
  end.

(** [getattr(tool_call, 'tool', None)] *)
Definition tool (c : ToolCall) : option Tool :=
  match c with
  | ValidatingToolCall _ t _ | ScheduledToolCall _ t _
  | ExecutingToolCall _ t _ _ | SuccessfulToolCall _ t _ _
  | CancelledToolCall _ t _ _ | WaitingToolCall _ t _ _ => t
  | ErroredToolCall _ _ _ => None
  end.

(** [getattr(tool_call, 'start_time', None)] *)
Definition start_time (c : ToolCall) : option Z :=
  match c with
  | ValidatingToolCall _ _ t | ScheduledToolCall _ _ t
  | ExecutingToolCall _ _ _ t | WaitingToolCall _ _ _ t => t
  | SuccessfulToolCall _ _ _ _ | ErroredToolCall _ _ _
  | CancelledToolCall _ _ _ _ => None
  end.

(** The [response] attribute of a terminal call. *)
Definition response (c : ToolCall) : Details :=
  match c with
  | SuccessfulToolCall _ _ r _ | ErroredToolCall _ r _
  | CancelledToolCall _ _ r _ => r
  | _ => DNone
  end.

(** [x in xs] for strings. *)
Definition str_in (x : string) (xs : list string) : bool :=
  existsb (String.eqb x) xs.

End ToolTypes.

(** ** [utils/parameter_sanitizer.py] *)

Module Sanitizer.
Import Py.

(** A schema is a graph of [dict] objects.  A dictionary is an object of
    the heap, referred to by its address ([id(schema)] in the source):
    two references to one address share the dictionary, and [del]
    through one is seen through the other.  Lists are never mutated by
    the sanitizer and are held by value. *)
Inductive PyVal : Type :=
| VNone
| VBool (b : bool)
| VInt (z : Z)
| VStr (s : string)
| VList (items : list PyVal)
| VDict (ref : nat).

Abbreviation Object := (dict PyVal).
Abbreviation Heap := (list Object).

(** Outcome of a run of the recursion: [Diverged] only when the fuel
    given to the model is used up. *)
Inductive Run (A : Type) : Type :=
| Finished (a : A)
| RuntimeError (msg : string)
| Diverged.
Arguments Finished {A} a.
Arguments RuntimeError {A} msg.
Arguments Diverged {A}.

Definition bind {A B} (r : Run A) (k : A -> Run B) : Run B :=
  match r with
  | Finished a => k a
  | RuntimeError m => RuntimeError m
  | Diverged => Diverged
  end.

Definition unsupported_fields : list string :=
  [ "default"; "minimum"; "maximum"; "minLength"; "maxLength";
    "minItems"; "maxItems"; "uniqueItems"; "additionalProperties";
    "$schema"; "$ref"; "$defs" ].

(** [for field in unsupported_fields: if field in schema: del schema[field]] *)
Definition delete_unsupported (schema : Object) : Object :=
  fold_left
    (fun d field => if contains d field then del d field else d)
    unsupported_fields schema.

Definition is_str (v : option PyVal) (s : string) : bool :=
  match v with
  | Some (VStr s') => String.eqb s' s
  | _ => false
  end.

(** The [format] field is kept only when it is ['enum'] or ['date-time']. *)
Definition clean_format (schema : Object) : Object :=
  if is_str (get schema "type") "string" && contains schema "format" then
    if negb (is_str (get schema "format") "enum"
             || is_str (get schema "format") "date-time")
    then del schema "format"
    else schema
  else schema.

Definition clean_fields (schema : Object) : Object :=
  clean_format (delete_unsupported schema).

(** State of the traversal: the heap and the [visited] set of addresses. *)
Abbreviation State := (Heap * gset nat)%type.

(** [if isinstance(v, dict): _sanitize_parameters_recursive(v, visited)] *)
Definition visit_if_dict
    (rec : nat -> State -> Run State) (v : PyVal) (st : State) : Run State :=
  match v with
  | VDict c =>
      match fst st !! c with
      | Some _ => rec c st
      | None => Finished st
      end
  | _ => Finished st
  end.

(** [for prop_name, prop_schema in schema['properties'].items(): ...]
    over the dictionary at address [p], whose items were [pending] when
    the loop started.  Every step of a dictionary iterator first
    compares the size of the dictionary with its size at the start and
    raises when they differ. *)
Fixpoint for_items
    (rec : nat -> State -> Run State) (p size0 : nat)
    (pending : list (string * PyVal)) (st : State) : Run State :=
  if negb (Nat.eqb (length (default [] (fst st !! p))) size0) then
    RuntimeError "dictionary changed size during iteration"
  else
    match pending with
    | [] => Finished st
    | (_, prop_schema) :: rest =>
        bind (visit_if_dict rec prop_schema st) (for_items rec p size0 rest)
    end.

(** [for item in schema[key]: ...] over a list. *)
Fixpoint for_list
    (rec : nat -> State -> Run State)
    (pending : list PyVal) (st : State) : Run State :=
  match pending with
  | [] => Finished st
  | item :: rest => bind (visit_if_dict rec item st) (for_list rec rest)
  end.

(** The value of [schema[key]], read from the object as it is now. *)
Definition field (st : State) (schema : nat) (key : string) : option PyVal :=
  match fst st !! schema with
  | Some d => get d key
  | None => None
  end.

Definition recurse_properties
    (rec : nat -> State -> Run State) (schema : nat) (st : State) : Run State :=
  match field st schema "properties" with
  | Some (VDict p) =>
      match fst st !! p with
      | Some props => for_items rec p (length props) props st
      | None => Finished st
      end
  | _ => Finished st
  end.

Definition recurse_items
    (rec : nat -> State -> Run State) (schema : nat) (st : State) : Run State :=
  match field st schema "items" with
  | Some v => visit_if_dict rec v st
  | None => Finished st
  end.

Definition recurse_list
    (rec : nat -> State -> Run State) (key : string)
    (schema : nat) (st : State) : Run State :=
  match field st schema key with
  | Some (VList items) => for_list rec items st
  | _ => Finished st
  end.

Fixpoint _sanitize_parameters_recursive
    (fuel : nat) (schema : nat) (st : State) : Run State :=
  match fuel with
  | 0 => Diverged
  | S fuel' =>
      let '(heap, visited) := st in
      if decide (schema ∈ visited) then Finished st
      else
        let visited := {[schema]} ∪ visited in
        match heap !! schema with
        | None => Finished (heap, visited)
        | Some d =>
            let st := (<[schema := clean_fields d]> heap, visited) in
            let rec := _sanitize_parameters_recursive fuel' in
            bind (recurse_properties rec schema st) (fun st =>
            bind (recurse_items rec schema st) (fun st =>
            bind (recurse_list rec "anyOf" schema st) (fun st =>
            bind (recurse_list rec "oneOf" schema st) (fun st =>
            recurse_list rec "allOf" schema st))))
        end
  end.

(** [sanitize_parameters(schema)]: [None] and the empty dictionary are
    returned as they are; otherwise [schema.copy()] allocates one new
    dictionary with the same values (the nested dictionaries are not
    copied) and the recursion runs on the copy. *)
Definition sanitize_parameters_fuel
    (fuel : nat) (schema : option nat) (heap : Heap)
  : Run (option nat * Heap) :=
  match schema with
  | None => Finished (None, heap)
  | Some s =>
      match heap !! s with
      | None | Some [] => Finished (Some s, heap)
      | Some d =>
          let cleaned_schema := length heap in
          bind (_sanitize_parameters_recursive fuel cleaned_schema
                  (heap ++ [d], ∅))
               (fun st => Finished (Some cleaned_schema, fst st))
      end
  end.

(** The depth of the recursion is bounded by the number of dictionaries. *)
Definition sanitize_parameters (schema : option nat) (heap : Heap)
  : Run (option nat * Heap) :=
  sanitize_parameters_fuel (length heap + 2) schema heap.

End Sanitizer.

(** ** [tools/registry.py] and [tools/mcp/mcp_registry.py] *)

Module Registry.
Import Py ToolTypes.

Inductive ToolCapability : Type :=
| QUERY | MODIFY | SCHEMA_CHANGE | EXPLORE | ANALYZE | PROFILE
| BACKUP | RESTORE | OPTIMIZE | MEMORY | EXPORT | IMPORT
| READ | WRITE | SEARCH | AUDIT | PERMISSION
| EXTERNAL | MCP | CODE_EXECUTION | WEB_ACCESS | FILE_OPERATION.

Definition capability_index (c : ToolCapability) : nat :=
  match c with
  | QUERY => 0 | MODIFY => 1 | SCHEMA_CHANGE => 2 | EXPLORE => 3
  | ANALYZE => 4 | PROFILE => 5 | BACKUP => 6 | RESTORE => 7
  | OPTIMIZE => 8 | MEMORY => 9 | EXPORT => 10 | IMPORT => 11
  | READ => 12 | WRITE => 13 | SEARCH => 14 | AUDIT => 15
  | PERMISSION => 16 | EXTERNAL => 17 | MCP => 18
  | CODE_EXECUTION => 19 | WEB_ACCESS => 20 | FILE_OPERATION => 21
  end.

Definition capability_of_index (n : nat) : option ToolCapability :=
  nth_error
    [ QUERY; MODIFY; SCHEMA_CHANGE; EXPLORE; ANALYZE; PROFILE;
      BACKUP; RESTORE; OPTIMIZE; MEMORY; EXPORT; IMPORT;
      READ; WRITE; SEARCH; AUDIT; PERMISSION;
      EXTERNAL; MCP; CODE_EXECUTION; WEB_ACCESS; FILE_OPERATION ] n.

#[global] Instance ToolCapability_eq_dec : EqDecision ToolCapability.
Proof. solve_decision. Defined.

#[global] Program Instance ToolCapability_countable : Countable ToolCapability :=
  inj_countable capability_index capability_of_index _.
Next Obligation. now intros []. Qed.

Record ToolInfo : Type := {
  info_tool : Tool;
  capabilities : gset ToolCapability;
  tags : gset string;
  priority : Z;
  metadata : dict Json
}.

(** The three indices of the registry.  [tools] keeps insertion order,
    which [sorted] preserves among tools of equal priority. *)
Record ToolRegistry : Type := {
  tools : dict ToolInfo;
  _capability_index : gmap ToolCapability (gset string);
  _tag_index : gmap string (gset string)
}.

(** [index[key].add(name)], creating the set when the key is new. *)
Definition index_add {K} `{Countable K}
    (name : string) (idx : gmap K (gset string)) (key : K)
  : gmap K (gset string) :=
  <[key := {[name]} ∪ default ∅ (idx !! key)]> idx.

Definition register_tool
    (tool : Tool) (capabilities : gset ToolCapability)
    (tags : option (gset string)) (priority : Z)
    (metadata : option (dict Json)) (self : ToolRegistry) : ToolRegistry :=
  let tool_info :=
    {| info_tool := tool;
       capabilities := capabilities;
       tags := default ∅ tags;
       priority := priority;
       metadata := default [] metadata |} in
  {| tools := set (tools self) (tool_name tool) tool_info;
     _capability_index :=
       fold_left (index_add (tool_name tool))
                 (elements capabilities) (_capability_index self);
     _tag_index :=
       fold_left (index_add (tool_name tool))
                 (elements (default ∅ tags)) (_tag_index self) |}.

Definition get_tool (name : string) (self : ToolRegistry) : option Tool :=
  match get (tools self) name with
  | Some tool_info => Some (info_tool tool_info)
  | None => None
  end.

(** [sorted(values, key=lambda x: x.priority, reverse=True)]: a stable
    sort, elements of equal priority keep their order. *)
Fixpoint insert_by_priority (x : ToolInfo) (l : list ToolInfo) : list ToolInfo :=
  match l with
  | [] => [x]
  | y :: r =>
      if (priority y <? priority x)%Z then x :: y :: r
      else y :: insert_by_priority x r
  end.

Definition sorted_by_priority (l : list ToolInfo) : list ToolInfo :=
  fold_left (fun acc x => insert_by_priority x acc) l [].

Record Declaration : Type := {
  decl_name : string;
  decl_description : string;
  decl_parameters : option nat
}.

(** [get_function_declarations]: the schemas live in [heap]; an
    exception of the sanitizer is not caught. *)
Fixpoint declarations_loop
    (sorted_tools : list ToolInfo) (declarations : list Declaration)
    (heap : Sanitizer.Heap)
  : Sanitizer.Run (list Declaration * Sanitizer.Heap) :=
  match sorted_tools with
  | [] => Sanitizer.Finished (declarations, heap)
  | tool_info :: rest =>
      let tool := info_tool tool_info in
      Sanitizer.bind
        (Sanitizer.sanitize_parameters (parameter_schema tool) heap)
        (fun r =>
           declarations_loop rest
             (declarations ++
                [{| decl_name := tool_name tool;
                    decl_description := description tool;
                    decl_parameters := fst r |}])
             (snd r))
  end.

Definition get_function_declarations
    (self : ToolRegistry) (heap : Sanitizer.Heap)
  : Sanitizer.Run (list Declaration * Sanitizer.Heap) :=
  declarations_loop (sorted_by_priority (map snd (tools self))) [] heap.

(** *** The MCP registry *)

Record MCPToolAdapter : Type := {
  adapter_tool : Tool;
  server_name : string;
  original_name : string
}.

Record MCPRegistry : Type := {
  registered_tools : dict MCPToolAdapter
}.

(** [getattr(tool_registry, 'unregister_tool')]: the class [ToolRegistry]
    defines the methods [register_tool], [get_tool], [get_all_tools],
    [get_gemini_function_declarations], [get_tools_by_capability],
    [get_tools_by_capabilities], [get_tools_by_tag], [search_tools],
    [get_capability_summary], [get_tool_info],
    [get_function_declarations], [initialize_mcp] and
    [get_mcp_registry], and no attribute of this name. *)
Definition unregister_tool
  : option (string -> ToolRegistry -> ToolRegistry) := None.

(** [hasattr(tool_registry, 'unregister_tool')] *)
Definition hasattr_unregister_tool : bool :=
  match unregister_tool with Some _ => true | None => false end.

(** One round of the [try] block shared by [_unregister_all_tools] and
    [remove_server]. *)
Definition unregister_one
    (tool_name : string) (st : MCPRegistry * ToolRegistry)
  : MCPRegistry * ToolRegistry :=
  let '(self, tool_registry) := st in
  let tool_registry :=
    if hasattr_unregister_tool then
      match unregister_tool with
      | Some f => f tool_name tool_registry
      | None => tool_registry
      end
    else tool_registry in
  ({| registered_tools := del (registered_tools self) tool_name |},
   tool_registry).

(** [for tool_name in list(self.registered_tools.keys()): ...] *)
Definition _unregister_all_tools
    (self : MCPRegistry) (tool_registry : ToolRegistry)
  : MCPRegistry * ToolRegistry :=
  fold_left (fun st tool_name => unregister_one tool_name st)
            (map fst (registered_tools self)) (self, tool_registry).

(** The part of [remove_server] that removes the tools of one server. *)
Definition remove_server_tools
    (name : string) (self : MCPRegistry) (tool_registry : ToolRegistry)
  : MCPRegistry * ToolRegistry :=
  let tools_to_remove :=
    map fst
        (filter (fun kv => String.eqb (server_name (snd kv)) name = true)
                (registered_tools self)) in
  fold_left (fun st tool_name => unregister_one tool_name st)
            tools_to_remove (self, tool_registry).

(** [_register_discovered_tools] for one adapter that passed the
    filters: the tool goes into the tool registry and into
    [registered_tools]. *)
Definition register_discovered_tool
    (adapter : MCPToolAdapter) (capability_hints : gset ToolCapability)
    (st : MCPRegistry * ToolRegistry) : MCPRegistry * ToolRegistry :=
  let '(self, tool_registry) := st in
  let capabilities := {[EXTERNAL]} ∪ capability_hints in
  let tool_registry :=
    register_tool (adapter_tool adapter) capabilities
      (Some ({["mcp"]} ∪ {["external"]} ∪ {[server_name adapter]}))
      60
      (Some [("mcp_server", JStr (server_name adapter));
             ("mcp_tool", JStr (original_name adapter))])
      tool_registry in
  ({| registered_tools :=
        set (registered_tools self)
            (tool_name (adapter_tool adapter)) adapter |},
   tool_registry).

(** *** Queries of the tool registry *)

(** [get_all_tools]: the tools in the order of their first registration. *)
Definition get_all_tools (self : ToolRegistry) : list Tool :=
  map (fun kv => info_tool (snd kv)) (tools self).

(** [get_tool_info] *)
Definition get_tool_info (name : string) (self : ToolRegistry)
  : option ToolInfo :=
  get (tools self) name.

Section SetIteration.

(** The order in which [for name in tool_names] walks a Python [set] is
    not specified by the language; the queries are modelled for any
    order, given as a function from a set to the list of its elements. *)
Variable iterate : gset string -> list string.

(** [for name in tool_names: tool_info = self.tools[name]; if
    tool_info.priority >= min_priority: matching_tools.append(tool_info)].
    [self.tools[name]] raises [KeyError] for a name that is not a key. *)
Fixpoint matching_loop
    (self : ToolRegistry) (min_priority : option Z)
    (names : list string) (matching_tools : list ToolInfo)
  : Outcome (list ToolInfo) :=
  match names with
  | [] => Returns matching_tools
  | name :: rest =>
      match get (tools self) name with
      | None => Raises "KeyError"
      | Some tool_info =>
          let keep :=
            match min_priority with
            | Some m => (m <=? priority tool_info)%Z
            | None => true
            end in
          matching_loop self min_priority rest
            (if keep then matching_tools ++ [tool_info] else matching_tools)
      end
  end.

(** The common end of the three queries by index: the tool infos of the
    names, sorted by priority, highest first, and their tools. *)
Definition tools_of_names
    (self : ToolRegistry) (min_priority : option Z) (names : gset string)
  : Outcome (list Tool) :=
  match matching_loop self min_priority (iterate names) [] with
  | Raises e => Raises e
  | RaisesBase e => RaisesBase e
  | Returns matching_tools =>
      Returns (map info_tool (sorted_by_priority matching_tools))
  end.

Definition get_tools_by_capability
    (capability : ToolCapability) (min_priority : Z) (self : ToolRegistry)
  : Outcome (list Tool) :=
  let tool_names := default ∅ (_capability_index self !! capability) in
  tools_of_names self (Some min_priority) tool_names.

(** [set.intersection( *sets )] and [set.union( *sets )] of a list of
    sets that is not empty. *)
Definition set_intersection (sets : list (gset string)) : gset string :=
  match sets with
  | [] => ∅
  | s :: rest => fold_left (fun acc x => acc ∩ x) rest s
  end.

Definition set_union (sets : list (gset string)) : gset string :=
  match sets with
  | [] => ∅
  | s :: rest => fold_left (fun acc x => acc ∪ x) rest s
  end.

Definition get_tools_by_capabilities
    (capabilities : list ToolCapability) (match_all : bool)
    (self : ToolRegistry) : Outcome (list Tool) :=
  match capabilities with
  | [] => Returns []
  | _ =>
      let capability_tools :=
        map (fun cap => default ∅ (_capability_index self !! cap))
            capabilities in
      let result_names :=
        if match_all then set_intersection capability_tools
        else set_union capability_tools in
      tools_of_names self None result_names
  end.

Definition get_tools_by_tag (tag : string) (self : ToolRegistry)
  : Outcome (list Tool) :=
  let tool_names := default ∅ (_tag_index self !! tag) in
  tools_of_names self None tool_names.

End SetIteration.

(** [ToolRegistry.__init__] before any tool is registered. *)
Definition new_registry : ToolRegistry :=
  {| tools := []; _capability_index := ∅; _tag_index := ∅ |}.

(** *** Filters and queries of the MCP registry *)

(** The fields of [MCPServerConfig] that the registry reads. *)
Record MCPServerConfig : Type := {
  trust : bool;
  include_tools : option (list string);
  exclude_tools : option (list string)
}.

(** Truth value of an [Optional[List[str]]]: [None] and [[]] are false. *)
Definition truthy_list (l : option (list string)) : bool :=
  match l with
  | Some (_ :: _) => true
  | _ => false
  end.

Definition _should_include_tool
    (tool_name : string) (server_config : option MCPServerConfig) : bool :=
  match server_config with
  | None => true
  | Some server_config =>
      if truthy_list (exclude_tools server_config)
         && str_in tool_name (default [] (exclude_tools server_config))
      then false
      else if truthy_list (include_tools server_config)
      then str_in tool_name (default [] (include_tools server_config))
      else true
  end.

(** [get_server_tools]: the adapters of one server, in the order of
    [registered_tools]. *)
Definition get_server_tools (name : string) (self : MCPRegistry)
  : list MCPToolAdapter :=
  map snd
      (List.filter (fun kv => String.eqb (server_name (snd kv)) name)
                   (registered_tools self)).

Definition get_tool_by_name (name : string) (self : MCPRegistry)
  : option MCPToolAdapter :=
  get (registered_tools self) name.

(** [cleanup]: [self.registered_tools.clear()] *)
Definition cleanup (self : MCPRegistry) : MCPRegistry :=
  {| registered_tools := [] |}.

End Registry.

(** ** [core/scheduler.py] *)

Module Scheduler.
Import Py ToolTypes.

(** What the scheduler does to the outside, in order: the calls of the
    three callbacks, and [Assigned i old new] for each assignment
    [self.tool_calls[i] = new_call] of [_set_status] (the only place
    where a call changes status). *)
Inductive Event : Type :=
| ToolCallsUpdate (calls : list ToolCall)
| AllToolsComplete (completed_calls : list ToolCall)
| OutputUpdate (call_id output : string)
| Assigned (i : nat) (old new : ToolCall).

(** The scheduler object together with the shared [AbortSignal].

    [self.tool_calls] is a list object that [_set_status] and [schedule]
    mutate in place and that the completion sweep replaces by a new
    empty list ([self.tool_calls = []]) while the execution loop may
    still iterate over the old one.  [tool_calls] is the list
    [self.tool_calls] refers to now; [retired] holds, oldest first, the
    lists it referred to before, as they were left.  A list object is
    identified by the number of lists retired before it was bound.

    The three callbacks are given by whether they are set; a callback
    that is called is taken to return. *)
Record ToolScheduler : Type := {
  tool_calls : list ToolCall;
  retired : list (list ToolCall);
  tool_registry : option Registry.ToolRegistry;
  config_registry : Registry.ToolRegistry;
  output_update_handler : bool;
  on_all_tools_complete : bool;
  on_tool_calls_update : bool;
  signal_aborted : bool;
  time_reads : nat;
  events : list Event
}.

Definition with_tool_calls (l : list ToolCall) (s : ToolScheduler) :=
  {| tool_calls := l; retired := retired s;
     tool_registry := tool_registry s;
     config_registry := config_registry s;
     output_update_handler := output_update_handler s;
     on_all_tools_complete := on_all_tools_complete s;
     on_tool_calls_update := on_tool_calls_update s;
     signal_aborted := signal_aborted s;
     time_reads := time_reads s; events := events s |}.

(** [self.tool_calls = []] *)
Definition rebind_tool_calls (s : ToolScheduler) :=
  {| tool_calls := []; retired := retired s ++ [tool_calls s];
     tool_registry := tool_registry s;
     config_registry := config_registry s;
     output_update_handler := output_update_handler s;
     on_all_tools_complete := on_all_tools_complete s;
     on_tool_calls_update := on_tool_calls_update s;
     signal_aborted := signal_aborted s;
     time_reads := time_reads s; events := events s |}.

Definition emit (e : Event) (s : ToolScheduler) :=
  {| tool_calls := tool_calls s; retired := retired s;
     tool_registry := tool_registry s;
     config_registry := config_registry s;
     output_update_handler := output_update_handler s;
     on_all_tools_complete := on_all_tools_complete s;
     on_tool_calls_update := on_tool_calls_update s;
     signal_aborted := signal_aborted s;
     time_reads := time_reads s; events := events s ++ [e] |}.

Definition tick (s : ToolScheduler) :=
  {| tool_calls := tool_calls s; retired := retired s;
     tool_registry := tool_registry s;
     config_registry := config_registry s;
     output_update_handler := output_update_handler s;
     on_all_tools_complete := on_all_tools_complete s;
     on_tool_calls_update := on_tool_calls_update s;
     signal_aborted := signal_aborted s;
     time_reads := S (time_reads s); events := events s |}.

Definition with_signal_aborted (b : bool) (s : ToolScheduler) :=
  {| tool_calls := tool_calls s; retired := retired s;
     tool_registry := tool_registry s;
     config_registry := config_registry s;
     output_update_handler := output_update_handler s;
     on_all_tools_complete := on_all_tools_complete s;
     on_tool_calls_update := on_tool_calls_update s;
     signal_aborted := b;
     time_reads := time_reads s; events := events s |}.

(** The list object bound to [self.tool_calls] when [generation] lists
    had been retired, as it is now. *)
Definition list_object (generation : nat) (s : ToolScheduler) : list ToolCall :=
  if Nat.eqb generation (length (retired s)) then tool_calls s
  else default [] (retired s !! generation).

Definition terminal_statuses : list string := ["success"; "error"; "cancelled"].

Definition is_terminal (c : ToolCall) : bool :=
  str_in (status c) terminal_statuses.

Definition mk_function_response (id name : string) (response : Json) : Json :=
  JObj [("functionResponse",
         JObj [("id", JStr id); ("name", JStr name); ("response", response)])].

Section WithEnvironment.

(** [utils/function_response.py] is not part of the sources at hand;
    the scheduler is modelled for any such function. *)
Variable convert_to_function_response : string -> string -> ToolResult -> Json.

(** The successive readings of [time.time()]. *)
Variable time_time : nat -> Z.

(** Whether the host aborts the shared signal while the [execute] of
    the call with this id is awaited. *)
Variable abort_during : string -> bool.

Definition _is_running (self : ToolScheduler) : bool :=
  existsb (fun call => str_in (status call) ["executing"; "awaiting_approval"])
          (tool_calls self).

Definition _notify_tool_calls_update (self : ToolScheduler) : ToolScheduler :=
  if on_tool_calls_update self
  then emit (ToolCallsUpdate (tool_calls self)) self
  else self.

Definition _check_and_notify_completion (self : ToolScheduler) : ToolScheduler :=
  if Nat.eqb (length (tool_calls self)) 0 then self
  else
    let all_calls_terminal :=
      forallb (fun call => str_in (status call) terminal_statuses)
              (tool_calls self) in
    let has_awaiting_approval :=
      existsb (fun call => String.eqb (status call) "awaiting_approval")
              (tool_calls self) in
    let has_executing :=
      existsb (fun call => String.eqb (status call) "executing")
              (tool_calls self) in
    let '(completed_calls, self) :=
      if Nat.ltb 0 (length (tool_calls self)) && all_calls_terminal
         && negb has_awaiting_approval && negb has_executing
      then (Some (tool_calls self), rebind_tool_calls self)
      else (None, self) in
    match completed_calls with
    | Some completed_calls =>
        if Nat.eqb (length (tool_calls self)) 0 then
          let self :=
            if on_all_tools_complete self
            then emit (AllToolsComplete completed_calls) self
            else self in
          _notify_tool_calls_update self
        else self
    | None => self
    end.

(** [time.time() - existing_start_time if existing_start_time else 0],
    times 1000: the clock is read only when the start time is true. *)
Definition duration_ms_since
    (existing_start_time : option Z) (self : ToolScheduler)
  : Z * ToolScheduler :=
  match existing_start_time with
  | Some t =>
      if (t =? 0)%Z then (0%Z, self)
      else (((time_time (time_reads self) - t) * 1000)%Z, tick self)
  | None => (0%Z, self)
  end.

(** The [if status == ... elif ...] chain of [_set_status]; [None] is
    the final [else: continue]. *)
Definition new_call_for
    (status : string) (tool_call : ToolCall) (details : Details)
    (self : ToolScheduler) : option (ToolCall * ToolScheduler) :=
  let existing_start_time := start_time tool_call in
  let existing_tool := tool tool_call in
  if String.eqb status "scheduled" then
    Some (ScheduledToolCall (request tool_call) existing_tool
            existing_start_time, self)
  else if String.eqb status "executing" then
    Some (ExecutingToolCall (request tool_call) existing_tool None
            existing_start_time, self)
  else if String.eqb status "awaiting_approval" then
    Some (WaitingToolCall (request tool_call) existing_tool details
            existing_start_time, self)
  else if String.eqb status "success" then
    let '(d, self) := duration_ms_since existing_start_time self in
    Some (SuccessfulToolCall (request tool_call) existing_tool details d, self)
  else if String.eqb status "error" then
    let '(d, self) := duration_ms_since existing_start_time self in
    Some (ErroredToolCall (request tool_call) details d, self)
  else if String.eqb status "cancelled" then
    let '(d, self) := duration_ms_since existing_start_time self in
    Some (CancelledToolCall (request tool_call) existing_tool details d, self)
  else None.

(** [self.tool_calls[i] = new_call] *)
Definition assign (i : nat) (old new : ToolCall) (self : ToolScheduler) :=
  emit (Assigned i old new)
       (with_tool_calls (<[i := new]> (tool_calls self)) self).

(** [for i, tool_call in enumerate(self.tool_calls): ...] from index
    [i] on, [pending] being the calls not yet looked at. *)
Fixpoint set_status_loop
    (id status : string) (details : Details)
    (i : nat) (pending : list ToolCall) (self : ToolScheduler)
  : ToolScheduler :=
  match pending with
  | [] => self
  | tool_call :: rest =>
      if negb (String.eqb (call_id (request tool_call)) id) then
        set_status_loop id status details (S i) rest self
      else if is_terminal tool_call then
        set_status_loop id status details (S i) rest self
      else
        match new_call_for status tool_call details self with
        | Some (new_call, self) => assign i tool_call new_call self
        | None => set_status_loop id status details (S i) rest self
        end
  end.

Definition _set_status
    (id status : string) (details : Details) (self : ToolScheduler)
  : ToolScheduler :=
  let self := set_status_loop id status details 0 (tool_calls self) self in
  let self := _notify_tool_calls_update self in
  _check_and_notify_completion self.

(** The closure of [_create_output_updater]. *)
Definition update_output (id output : string) (self : ToolScheduler) :=
  if output_update_handler self then emit (OutputUpdate id output) self
  else self.

Definition error_response (req : ToolCallRequestInfo) (message e : string)
  : ToolCallResponseInfo :=
  {| response_call_id := call_id req;
     response_parts :=
       mk_function_response (call_id req) (name req)
         (JObj [("error", JStr message)]);
     result_display := None;
     response_error := Some e |}.

(** The body of the execution loop for a call found [scheduled].  The
    [try] has one handler, [except Exception]: an exception of
    [execute] that is not an [Exception] passes it and leaves the loop,
    after the call was set to [executing]. *)
Definition execute_scheduled (tool_call : ToolCall) (self : ToolScheduler)
  : Outcome unit * ToolScheduler :=
  let req := request tool_call in
  let self := _set_status (call_id req) "executing" DNone self in
  match tool tool_call with
  | None =>
      let e := "'NoneType' object has no attribute 'execute'" in
      (Returns tt,
       _set_status (call_id req) "error" (DResponse (error_response req e e))
         self)
  | Some t =>
      let aborted := signal_aborted self || abort_during (call_id req) in
      let self := with_signal_aborted aborted self in
      let '(chunks, outcome) := execute t (args req) aborted in
      let self :=
        fold_left (fun acc chunk => update_output (call_id req) chunk acc)
                  chunks self in
      match outcome with
      | Returns result =>
          let function_response :=
            convert_to_function_response (name req) (call_id req) result in
          if truthy_str (error result) then
            (Returns tt,
             _set_status (call_id req) "error"
               (DResponse
                  {| response_call_id := call_id req;
                     response_parts := function_response;
                     result_display := return_display result;
                     response_error := error result |})
               self)
          else
            (Returns tt,
             _set_status (call_id req) "success"
               (DResponse
                  {| response_call_id := call_id req;
                     response_parts := function_response;
                     result_display := return_display result;
                     response_error := None |})
               self)
      | Raises e =>
          (Returns tt,
           _set_status (call_id req) "error"
             (DResponse (error_response req e e)) self)
      | RaisesBase e => (RaisesBase e, self)
      end
  end.

(** [for tool_call in self.tool_calls: ...]: the iterator walks the
    list object bound when the loop started and reads position [i] of
    it as it is at that moment; [n] bounds the remaining steps.  An
    exception that leaves the body ends the loop. *)
Fixpoint execution_loop
    (n generation i : nat) (self : ToolScheduler)
  : Outcome unit * ToolScheduler :=
  match n with
  | 0 => (Returns tt, self)
  | S n' =>
      match list_object generation self !! i with
      | None => (Returns tt, self)
      | Some tool_call =>
          if String.eqb (status tool_call) "scheduled" then
            match execute_scheduled tool_call self with
            | (Returns _, self) => execution_loop n' generation (S i) self
            | (Raises e, self) => (Raises e, self)
            | (RaisesBase e, self) => (RaisesBase e, self)
            end
          else execution_loop n' generation (S i) self
      end
  end.

Definition _attempt_execution_of_scheduled_calls (self : ToolScheduler)
  : Outcome unit * ToolScheduler :=
  execution_loop (length (tool_calls self)) (length (retired self)) 0 self.

(** First loop of [schedule]: one call per request. *)
Fixpoint create_calls
    (registry : Registry.ToolRegistry) (requests : list ToolCallRequestInfo)
    (self : ToolScheduler) : list ToolCall * ToolScheduler :=
  match requests with
  | [] => ([], self)
  | req :: rest =>
      match Registry.get_tool (name req) registry with
      | None =>
          let e := ("Tool '" ++ name req ++ "' not found in registry")%string in
          let error_call :=
            ErroredToolCall req (DResponse (error_response req e e)) 0 in
          let '(calls, self) := create_calls registry rest self in
          (error_call :: calls, self)
      | Some t =>
          let validating_call :=
            ValidatingToolCall req (Some t)
              (Some (time_time (time_reads self))) in
          let '(calls, self) := create_calls registry rest (tick self) in
          (validating_call :: calls, self)
      end
  end.

(** Body of the second loop of [schedule] for one new call.  Here too
    the handler is [except Exception]. *)
Definition validate_call (tool_call : ToolCall) (self : ToolScheduler)
  : Outcome unit * ToolScheduler :=
  if negb (String.eqb (status tool_call) "validating") then (Returns tt, self)
  else
    let req := request tool_call in
    let outcome :=
      match tool tool_call with
      | Some t => should_confirm_execute t (args req) (signal_aborted self)
      | None =>
          Raises "'NoneType' object has no attribute 'should_confirm_execute'"
      end in
    match outcome with
    | Returns (Some confirmation_details) =>
        (Returns tt,
         _set_status (call_id req) "awaiting_approval"
           (DConfirmation confirmation_details) self)
    | Returns None =>
        (Returns tt, _set_status (call_id req) "scheduled" DNone self)
    | Raises e =>
        (Returns tt,
         _set_status (call_id req) "error"
           (DResponse (error_response req ("Validation failed: " ++ e)%string e))
           self)
    | RaisesBase e => (RaisesBase e, self)
    end.

(** [for tool_call in new_tool_calls: ...], the second loop. *)
Fixpoint validation_loop
    (new_tool_calls : list ToolCall) (self : ToolScheduler)
  : Outcome unit * ToolScheduler :=
  match new_tool_calls with
  | [] => (Returns tt, self)
  | tool_call :: rest =>
      match validate_call tool_call self with
      | (Returns _, self) => validation_loop rest self
      | (Raises e, self) => (Raises e, self)
      | (RaisesBase e, self) => (RaisesBase e, self)
      end
  end.

Definition schedule
    (requests : list ToolCallRequestInfo) (self : ToolScheduler)
  : Outcome unit * ToolScheduler :=
  if _is_running self then
    (Raises "Cannot schedule new tool calls while others are running", self)
  else
    let registry :=
      match tool_registry self with
      | Some r => r
      | None => config_registry self
      end in
    let '(new_tool_calls, self) := create_calls registry requests self in
    let self := with_tool_calls (tool_calls self ++ new_tool_calls) self in
    let self := _notify_tool_calls_update self in
    match validation_loop new_tool_calls self with
    | (Returns _, self) => _attempt_execution_of_scheduled_calls self
    | (Raises e, self) => (Raises e, self)
    | (RaisesBase e, self) => (RaisesBase e, self)
    end.

(** [tool_call.request.args.update(payload)] on the call at position
    [i]; requests are held by value. *)
Definition with_args (a : dict Json) (req : ToolCallRequestInfo) :=
  {| call_id := call_id req; name := name req; args := a;
     is_client_initiated := is_client_initiated req;
     prompt_id := prompt_id req |}.

Definition with_request (req : ToolCallRequestInfo) (c : ToolCall) : ToolCall :=
  match c with
  | ValidatingToolCall _ t st => ValidatingToolCall req t st
  | ScheduledToolCall _ t st => ScheduledToolCall req t st
  | ExecutingToolCall _ t lo st => ExecutingToolCall req t lo st
  | SuccessfulToolCall _ t r d => SuccessfulToolCall req t r d
  | ErroredToolCall _ r d => ErroredToolCall req r d
  | CancelledToolCall _ t r d => CancelledToolCall req t r d
  | WaitingToolCall _ t cd st => WaitingToolCall req t cd st
  end.

Definition update_args
    (i : nat) (tool_call : ToolCall) (payload : dict Json)
    (self : ToolScheduler) : ToolScheduler :=
  let req := request tool_call in
  with_tool_calls
    (<[i := with_request (with_args (update (args req) payload) req) tool_call]>
       (tool_calls self))
    self.

(** The search loop of [handle_confirmation_response]: the position
    and the call of the first entry with this id awaiting approval. *)
Fixpoint find_awaiting (id : string) (i : nat) (calls : list ToolCall)
  : option (nat * ToolCall) :=
  match calls with
  | [] => None
  | call :: rest =>
      if String.eqb (call_id (request call)) id
         && String.eqb (status call) "awaiting_approval"
      then Some (i, call)
      else find_awaiting id (S i) rest
  end.

(** A payload is true when it is a dictionary that is not empty. *)
Definition truthy_payload (payload : option (dict Json)) : bool :=
  match payload with
  | Some (_ :: _) => true
  | _ => false
  end.

Definition cancel_response (id : string) : ToolCallResponseInfo :=
  {| response_call_id := id;
     response_parts := JObj [("text", JStr "User cancelled the operation")];
     result_display := Some "操作已被用户取消";
     response_error := None |}.

Definition handle_confirmation_response
    (id outcome : string) (payload : option (dict Json))
    (self : ToolScheduler) : Outcome unit * ToolScheduler :=
  match find_awaiting id 0 (tool_calls self) with
  | None => (Returns tt, self)
  | Some (i, tool_call) =>
      let self :=
        if String.eqb outcome "cancel" || signal_aborted self then
          _set_status id "cancelled" (DResponse (cancel_response id)) self
        else if String.eqb outcome "modify_with_editor"
                && truthy_payload payload then
          let self := update_args i tool_call (default [] payload) self in
          _set_status id "scheduled" DNone self
        else if str_in outcome
                  ["proceed_once"; "proceed_always";
                   "proceed_always_server"; "proceed_always_tool"] then
          _set_status id "scheduled" DNone self
        else self in
      _attempt_execution_of_scheduled_calls self
  end.

(** *** Runs of the scheduler *)

(** What the host can do between two operations of the scheduler. *)
Inductive Operation : Type :=
| Schedule (requests : list ToolCallRequestInfo)
| ConfirmationResponse
    (id outcome : string) (payload : option (dict Json))
| Abort
| Reset.

(** One operation: how it ends and the scheduler it leaves. *)
Definition perform (op : Operation) (self : ToolScheduler)
  : Outcome unit * ToolScheduler :=
  match op with
  | Schedule requests => schedule requests self
  | ConfirmationResponse id outcome payload =>
      handle_confirmation_response id outcome payload self
  | Abort => (Returns tt, with_signal_aborted true self)
  | Reset => (Returns tt, with_signal_aborted false self)
  end.

(** The scheduler object outlives an operation that raised: the host
    goes on with the object as the operation left it. *)
Definition step (op : Operation) (self : ToolScheduler) : ToolScheduler :=
  snd (perform op self).

Definition run (ops : list Operation) (self : ToolScheduler) : ToolScheduler :=
  fold_left (fun acc op => step op acc) ops self.

(** How each operation of a run ended. *)
Fixpoint outcomes (ops : list Operation) (self : ToolScheduler)
  : list (Outcome unit) :=
  match ops with
  | [] => []
  | op :: rest => fst (perform op self) :: outcomes rest (step op self)
  end.

End WithEnvironment.

(** [ToolScheduler(config, **callbacks)] with the three callbacks given,
    followed by the assignment of [tool_registry]. *)
Definition new_scheduler
    (registry : option Registry.ToolRegistry)
    (config_registry : Registry.ToolRegistry) : ToolScheduler :=
  {| tool_calls := []; retired := [];
     tool_registry := registry;
     config_registry := config_registry;
     output_update_handler := true;
     on_all_tools_complete := true;
     on_tool_calls_update := true;
     signal_aborted := false;
     time_reads := 0; events := [] |}.

End Scheduler.

(** * The format converter of the MCP tools

    [dbrheo/tools/mcp/mcp_converter.py]: tool calls and tool results in
    the wire formats of Gemini, Claude and OpenAI.  The dictionaries are
    built afresh and never mutated; they are modelled by value. *)

Module MCPConverter.
Import Py.

(** [d.get(key, default)] *)
Definition get_default (d : dict Json) (key : string) (default : Json) : Json :=
  match get d key with
  | Some v => v
  | None => default
  end.

Definition _claude_call_to_gemini (call_data : dict Json) : dict Json :=
  [("id", get_default call_data "id" (JStr ""));
   ("name", get_default call_data "name" (JStr ""));
   ("args", get_default call_data "input" (JObj []))].

Definition _gemini_call_to_claude (call_data : dict Json) : dict Json :=
  [("type", JStr "tool_use");
   ("id", get_default call_data "id" (JStr ""));
   ("name", get_default call_data "name" (JStr ""));
   ("input", get_default call_data "args" (JObj []))].

Section Serialization.

(** [json.loads] ([None] for a [JSONDecodeError]), [json.dumps] and
    [str] are taken as given. *)
Variable json_loads : string -> option Json.
Variable json_dumps : Json -> string.
Variable py_str : Json -> string.

(** [function_data.get] raises [AttributeError] when the value of
    ['function'] is no dictionary. *)
Definition _openai_call_to_gemini (call_data : dict Json)
  : Outcome (dict Json) :=
  match get_default call_data "function" (JObj []) with
  | JObj function_data =>
      let args_str := get_default function_data "arguments" (JStr "{}") in
      let args :=
        match args_str with
        | JStr text =>
            match json_loads text with
            | Some parsed => parsed
            | None => JObj []
            end
        | other => other
        end in
      Returns
        [("id", get_default call_data "id" (JStr ""));
         ("name", get_default function_data "name" (JStr ""));
         ("args", args)]
  | _ => Raises "AttributeError"
  end.

Definition _gemini_call_to_openai (call_data : dict Json) : dict Json :=
  [("id", get_default call_data "id" (JStr ""));
   ("type", JStr "function");
   ("function",
    JObj [("name", get_default call_data "name" (JStr ""));
          ("arguments",
           JStr (json_dumps (get_default call_data "args" (JObj []))))])].

Definition convert_tool_call
    (call_data : dict Json) (source_format target_format : string)
  : Outcome (dict Json) :=
  if String.eqb source_format target_format then Returns call_data
  else
    let normalized :=
      if String.eqb source_format "claude"
      then Returns (_claude_call_to_gemini call_data)
      else if String.eqb source_format "openai"
      then _openai_call_to_gemini call_data
      else Returns call_data in
    match normalized with
    | Raises e => Raises e
    | RaisesBase e => RaisesBase e
    | Returns normalized =>
        if String.eqb target_format "claude"
        then Returns (_gemini_call_to_claude normalized)
        else if String.eqb target_format "openai"
        then Returns (_gemini_call_to_openai normalized)
        else Returns normalized
    end.

(** [content if isinstance(content, dict) else {"output": content}] *)
Definition response_of_content (content : Json) : Json :=
  match content with
  | JObj _ => content
  | _ => JObj [("output", content)]
  end.

Definition _claude_result_to_gemini (result_data : dict Json) : dict Json :=
  let content := get_default result_data "content" (JStr "") in
  [("functionResponse",
    JObj [("id", get_default result_data "tool_use_id" (JStr ""));
          ("response", response_of_content content)])].

Definition _openai_result_to_gemini (result_data : dict Json) : dict Json :=
  let content := get_default result_data "content" (JStr "") in
  [("functionResponse",
    JObj [("id", get_default result_data "tool_call_id" (JStr ""));
          ("response", response_of_content content)])].

(** [response["output"]] when [response] is a dictionary with this
    key. *)
Definition output_of (response : Json) : option Json :=
  match response with
  | JObj fields => get fields "output"
  | _ => None
  end.

Definition _gemini_result_to_claude (result_data : dict Json)
  : Outcome (dict Json) :=
  match get_default result_data "functionResponse" (JObj []) with
  | JObj func_response =>
      let response := get_default func_response "response" (JObj []) in
      let content :=
        match output_of response with
        | Some output => output
        | None => response
        end in
      Returns
        [("type", JStr "tool_result");
         ("tool_use_id", get_default func_response "id" (JStr ""));
         ("content", content)]
  | _ => Raises "AttributeError"
  end.

Definition _gemini_result_to_openai (result_data : dict Json)
  : Outcome (dict Json) :=
  match get_default result_data "functionResponse" (JObj []) with
  | JObj func_response =>
      let response := get_default func_response "response" (JObj []) in
      let content :=
        match output_of response with
        | Some output => output
        | None => JStr (py_str response)
        end in
      Returns
        [("role", JStr "tool");
         ("tool_call_id", get_default func_response "id" (JStr ""));
         ("content", content)]
  | _ => Raises "AttributeError"
  end.

Definition convert_tool_result
    (result_data : dict Json) (source_format target_format : string)
  : Outcome (dict Json) :=
  if String.eqb source_format target_format then Returns result_data
  else
    let normalized :=
      if String.eqb source_format "claude"
      then _claude_result_to_gemini result_data
      else if String.eqb source_format "openai"
      then _openai_result_to_gemini result_data
      else result_data in
    if String.eqb target_format "claude"
    then _gemini_result_to_claude normalized
    else if String.eqb target_format "openai"
    then _gemini_result_to_openai normalized
    else Returns normalized.

End Serialization.

End MCPConverter.
(** * Properties of the scheduler *)

Module SchedulerFacts.
Import Py ToolTypes Scheduler.

(** The condition under which the completion sweep fires. *)
Definition sweep_condition (calls : list ToolCall) : bool :=
  negb (Nat.eqb (length calls) 0)
  && forallb is_terminal calls
  && negb (existsb (fun call => String.eqb (status call) "awaiting_approval") calls)
  && negb (existsb (fun call => String.eqb (status call) "executing") calls).


(** The id of the request of a call. *)
Definition call_id_of (c : ToolCall) : string := call_id (request c).

(** The ids of the calls that are not terminal, in list order. *)
Definition nt_ids (calls : list ToolCall) : list string :=
  map call_id_of (List.filter (fun c => negb (is_terminal c)) calls).

(** The transition diagram of the specification, edge by edge:
    validating to scheduled, awaiting approval or error; awaiting approval
    to scheduled or cancelled; scheduled to executing; executing to
    success or error.  (Where the diagram can be read in more than one
    way, the readings only add edges to these.) *)
Definition valid_successors (before : string) : list string :=
  if String.eqb before "validating" then
    ["scheduled"; "awaiting_approval"; "error"]
  else if String.eqb before "awaiting_approval" then
    ["scheduled"; "cancelled"]
  else if String.eqb before "scheduled" then ["executing"]
  else if String.eqb before "executing" then ["success"; "error"]
  else [].

Definition valid_transition (before after : string) : bool :=
  str_in after (valid_successors before).

(** An assignment of [_set_status] is valid when it replaces a call that
    is not terminal by one whose status is a valid successor. *)
Definition valid_event (e : Event) : Prop :=
  match e with
  | Assigned _ old new =>
      is_terminal old = false
      /\ valid_transition (status old) (status new) = true
  | _ => True
  end.

(** [emits Q s s']: from [s] to [s'] the scheduler only added events, all
    of them satisfying [Q]. *)
Definition emits (Q : Event -> Prop) (s s' : ToolScheduler) : Prop :=
  exists evs, events s' = events s ++ evs /\ Forall Q evs.

(** The status in which the body of the execution loop leaves a call,
    given what the tool of the call does when it observes [aborted]:
    [error] for an [Exception] or a result with an error, [success] for
    any other result; when [execute] is left by an exception that is not
    an [Exception] the body makes no second transition and the call
    stays [executing]. *)
Definition outcome_status (tc : ToolCall) (aborted : bool) : string :=
  match tool tc with
  | None => "error"
  | Some t =>
      match snd (execute t (args (request tc)) aborted) with
      | Returns result => if truthy_str (error result) then "error" else "success"
      | Raises _ => "error"
      | RaisesBase _ => "executing"
      end
  end.

Definition is_output (e : Event) : Prop :=
  match e with OutputUpdate _ _ => True | _ => False end.

(** *** Invariants of the runs

    While [schedule] validates its new calls, [pend] holds the ids still
    to be validated.  [call_ok strict pend c]: if [c] is not terminal
    and its id is among them, [c] is validating; and, as long as no
    operation was left by an exception that is not an [Exception]
    ([strict]), if [c] is not terminal and its id is not among them,
    [c] awaits approval or is scheduled. *)
Definition call_ok (strict : bool) (pend : list string) (c : ToolCall) : Prop :=
  is_terminal c = false ->
  (call_id_of c ∈ pend -> status c = "validating")
  /\ (strict = true -> call_id_of c ∉ pend ->
      status c = "awaiting_approval" \/ status c = "scheduled").

Record Inv (strict : bool) (pend : list string) (s : ToolScheduler) : Prop := {
  inv_events : Forall valid_event (events s);
  inv_nodup : NoDup (nt_ids (tool_calls s));
  inv_calls : Forall (call_ok strict pend) (tool_calls s)
}.

(** Between two operations the assignments made so far were valid and
    the calls that are not terminal have distinct ids; and, as long as
    no operation was left by an exception that is not an [Exception],
    every call is terminal or awaits approval. *)
Record Boundary (strict : bool) (s : ToolScheduler) : Prop := {
  bnd_events : Forall valid_event (events s);
  bnd_nodup : NoDup (nt_ids (tool_calls s));
  bnd_calls :
    strict = true ->
    Forall (fun c => is_terminal c = true \/ status c = "awaiting_approval")
           (tool_calls s)
}.

(** The call ids of a batch. *)
Definition batch_ids (requests : list ToolCallRequestInfo) : list string :=
  map call_id requests.

Definition unique_call_ids (op : Operation) : Prop :=
  match op with
  | Schedule requests => NoDup (batch_ids requests)
  | _ => True
  end.

Section WithEnvironment.

Variable convert_to_function_response : string -> string -> ToolResult -> Json.
Variable time_time : nat -> Z.
Variable abort_during : string -> bool.

Abbreviation schedule := (schedule convert_to_function_response time_time abort_during).
Abbreviation _set_status := (_set_status time_time).
Abbreviation set_status_loop := (set_status_loop time_time).
Abbreviation _attempt_execution_of_scheduled_calls :=
  (_attempt_execution_of_scheduled_calls
     convert_to_function_response time_time abort_during).

(** *** The completion sweep *)

Lemma sweep_not_fired (self : ToolScheduler) :
  sweep_condition (tool_calls self) = false ->
  _check_and_notify_completion self = self.
Proof.
  unfold _check_and_notify_completion, sweep_condition, is_terminal.
  destruct (tool_calls self) as [|c calls] eqn:Hcalls; [reflexivity|].
  cbn [length Nat.eqb negb andb Nat.ltb Nat.leb].
  intros ->. reflexivity.
Qed.

Lemma sweep_fired (self : ToolScheduler) :
  sweep_condition (tool_calls self) = true ->
  _check_and_notify_completion self =
    _notify_tool_calls_update
      (if on_all_tools_complete self
       then emit (AllToolsComplete (tool_calls self)) (rebind_tool_calls self)
       else rebind_tool_calls self).
Proof.
  unfold _check_and_notify_completion, sweep_condition, is_terminal.
  destruct (tool_calls self) as [|c calls] eqn:Hcalls; [discriminate|].
  cbn [length Nat.eqb negb andb Nat.ltb Nat.leb].
  intros ->. reflexivity.
Qed.


(** *** Statuses *)

Definition known_status (st : string) : bool :=
  str_in st ["scheduled"; "executing"; "awaiting_approval";
             "success"; "error"; "cancelled"].

Lemma str_in_cons x y ys :
  str_in x (y :: ys) = String.eqb x y || str_in x ys.
Proof. reflexivity. Qed.

Lemma str_in_true x ys : str_in x ys = true <-> In x ys.
Proof.
  unfold str_in. rewrite existsb_exists. split.
  - intros (y & Hy & E). apply String.eqb_eq in E. now subst.
  - intros H. exists x. split; [assumption|apply String.eqb_refl].
Qed.

Lemma duration_ms_since_frame t s d s1 :
  duration_ms_since time_time t s = (d, s1) ->
  tool_calls s1 = tool_calls s /\ retired s1 = retired s
  /\ events s1 = events s /\ signal_aborted s1 = signal_aborted s
  /\ on_tool_calls_update s1 = on_tool_calls_update s
  /\ on_all_tools_complete s1 = on_all_tools_complete s.
Proof.
  unfold duration_ms_since.
  destruct t as [t|]; [destruct (t =? 0)%Z|]; intros [= <- <-]; now simpl.
Qed.

Lemma new_call_for_Some st tc d s nc s1 :
  new_call_for time_time st tc d s = Some (nc, s1) ->
  known_status st = true /\ status nc = st /\ request nc = request tc
  /\ tool_calls s1 = tool_calls s /\ retired s1 = retired s
  /\ events s1 = events s /\ signal_aborted s1 = signal_aborted s
  /\ on_tool_calls_update s1 = on_tool_calls_update s
  /\ on_all_tools_complete s1 = on_all_tools_complete s.
Proof.
  unfold new_call_for, known_status.
  repeat match goal with
         | |- context [String.eqb st ?x] =>
             let E := fresh "E" in
             destruct (String.eqb st x) eqn:E;
             [apply String.eqb_eq in E; subst st|]
         end;
    try discriminate;
    try (intros [= <- <-]; now simpl).
  all: destruct (duration_ms_since time_time (start_time tc) s) as [d0 s0] eqn:Hd;
    apply duration_ms_since_frame in Hd;
    intros [= <- <-]; simpl; tauto.
Qed.

Lemma new_call_for_None st tc d s :
  new_call_for time_time st tc d s = None -> known_status st = false.
Proof.
  unfold new_call_for, known_status. rewrite !str_in_cons.
  repeat match goal with
         | |- context [String.eqb st ?x] =>
             destruct (String.eqb st x) eqn:?
         end;
    try discriminate; try reflexivity.
  all: destruct (duration_ms_since time_time (start_time tc) s); discriminate.
Qed.

Lemma new_call_for_known st tc d s :
  known_status st = true ->
  exists nc s1, new_call_for time_time st tc d s = Some (nc, s1).
Proof.
  intros Hk. destruct (new_call_for time_time st tc d s) as [[nc s1]|] eqn:E.
  - eauto.
  - apply new_call_for_None in E. congruence.
Qed.

(** The entry that [_set_status] replaces: the first one with this id
    that is not terminal. *)
Fixpoint target (id : string) (calls : list ToolCall) : option (nat * ToolCall) :=
  match calls with
  | [] => None
  | c :: rest =>
      if String.eqb (call_id (request c)) id && negb (is_terminal c)
      then Some (0, c)
      else match target id rest with
           | Some (j, tc) => Some (S j, tc)
           | None => None
           end
  end.

Lemma target_Some id calls i tc :
  target id calls = Some (i, tc) ->
  calls !! i = Some tc /\ call_id (request tc) = id /\ is_terminal tc = false.
Proof.
  revert i. induction calls as [|c rest IH]; intros i; simpl; [discriminate|].
  destruct (String.eqb (call_id (request c)) id && negb (is_terminal c)) eqn:E.
  - intros [= <- <-]. apply andb_true_iff in E as [E1 E2].
    apply String.eqb_eq in E1. apply negb_true_iff in E2. auto.
  - destruct (target id rest) as [[j tc']|]; [|discriminate].
    intros [= <- <-]. now apply IH.
Qed.

Lemma set_status_loop_target id st d off pending s :
  set_status_loop id st d off pending s =
    match target id pending with
    | Some (j, tc) =>
        match new_call_for time_time st tc d s with
        | Some (nc, s1) => assign (off + j) tc nc s1
        | None => s
        end
    | None => s
    end.
Proof.
  revert off. induction pending as [|c rest IH]; intros off; simpl; [reflexivity|].
  destruct (String.eqb (call_id (request c)) id) eqn:E1; simpl.
  - destruct (is_terminal c) eqn:E2; simpl.
    + rewrite IH. destruct (target id rest) as [[j tc]|]; [|reflexivity].
      now replace (off + S j) with (S off + j) by lia.
    + destruct (new_call_for time_time st c d s) as [[nc s1]|] eqn:E3.
      * now rewrite Nat.add_0_r.
      * rewrite IH. destruct (target id rest) as [[j tc]|]; [|reflexivity].
        apply new_call_for_None in E3.
        destruct (new_call_for time_time st tc d s) as [[nc s1]|] eqn:E4;
          [|reflexivity].
        apply new_call_for_Some in E4. destruct E4 as [E4 _]. congruence.
  - rewrite IH. destruct (target id rest) as [[j tc]|]; [|reflexivity].
    now replace (off + S j) with (S off + j) by lia.
Qed.

(** *** What one [_set_status] does *)

(** The loop of [_set_status] on [calls]: nothing, or one assignment at
    the target. *)
Inductive loop_effect (id st : string) (calls : list ToolCall)
  : list ToolCall -> list Event -> Prop :=
| LoopUnchanged :
    target id calls = None \/ known_status st = false ->
    loop_effect id st calls calls []
| LoopAssigned i tc nc :
    target id calls = Some (i, tc) ->
    known_status st = true ->
    status nc = st ->
    request nc = request tc ->
    loop_effect id st calls (<[i := nc]> calls) [Assigned i tc nc].

(** The sweep on a scheduler whose list was [calls] and whose retired
    lists were [old]. *)
Inductive sweep_effect (calls : list ToolCall) (old : list (list ToolCall))
    (s' : ToolScheduler) : Prop :=
| SweepKept :
    sweep_condition calls = false ->
    tool_calls s' = calls -> retired s' = old ->
    sweep_effect calls old s'
| SweepCleared :
    sweep_condition calls = true ->
    tool_calls s' = [] -> retired s' = old ++ [calls] ->
    sweep_effect calls old s'.

(** The events after the loop: the notifications of the list and of the
    empty list, and the completion callback with the list. *)
Definition after_loop_event (calls : list ToolCall) (e : Event) : Prop :=
  match e with
  | ToolCallsUpdate l => l = calls \/ l = []
  | AllToolsComplete l => l = calls /\ sweep_condition calls = true
  | _ => False
  end.

Lemma notify_effect s :
  exists evs,
    events (_notify_tool_calls_update s) = events s ++ evs
    /\ Forall (after_loop_event (tool_calls s)) evs
    /\ tool_calls (_notify_tool_calls_update s) = tool_calls s
    /\ retired (_notify_tool_calls_update s) = retired s
    /\ signal_aborted (_notify_tool_calls_update s) = signal_aborted s.
Proof.
  unfold _notify_tool_calls_update.
  destruct (on_tool_calls_update s).
  - exists [ToolCallsUpdate (tool_calls s)]. simpl.
    repeat split; auto.
    apply List.Forall_cons; [now left|apply List.Forall_nil].
  - exists []. rewrite app_nil_r. repeat split; auto.
Qed.

Lemma sweep_effect_of s :
  exists evs,
    events (_check_and_notify_completion s) = events s ++ evs
    /\ Forall (after_loop_event (tool_calls s)) evs
    /\ sweep_effect (tool_calls s) (retired s) (_check_and_notify_completion s)
    /\ signal_aborted (_check_and_notify_completion s) = signal_aborted s.
Proof.
  destruct (sweep_condition (tool_calls s)) eqn:Hc.
  - rewrite (sweep_fired s Hc).
    unfold _notify_tool_calls_update.
    destruct (on_all_tools_complete s) eqn:Ha; simpl;
      destruct (on_tool_calls_update s) eqn:Hu; simpl.
    + exists [AllToolsComplete (tool_calls s); ToolCallsUpdate []].
      rewrite <- app_assoc. simpl. repeat split.
      * repeat (apply List.Forall_cons; [simpl; auto|]). apply List.Forall_nil.
      * now apply SweepCleared.
    + exists [AllToolsComplete (tool_calls s)].
      repeat split.
      * repeat (apply List.Forall_cons; [simpl; auto|]). apply List.Forall_nil.
      * now apply SweepCleared.
    + exists [ToolCallsUpdate []].
      repeat split.
      * repeat (apply List.Forall_cons; [simpl; auto|]). apply List.Forall_nil.
      * now apply SweepCleared.
    + exists []. rewrite app_nil_r. repeat split; auto.
      now apply SweepCleared.
  - rewrite (sweep_not_fired s Hc). exists []. rewrite app_nil_r.
    repeat split; auto. now apply SweepKept.
Qed.

Lemma set_status_effect id st d s :
  exists calls1 evs1 evs2,
    loop_effect id st (tool_calls s) calls1 evs1
    /\ sweep_effect calls1 (retired s) (_set_status id st d s)
    /\ events (_set_status id st d s) = events s ++ evs1 ++ evs2
    /\ Forall (after_loop_event calls1) evs2
    /\ signal_aborted (_set_status id st d s) = signal_aborted s.
Proof.
  unfold Scheduler._set_status.
  set (s1 := set_status_loop id st d 0 (tool_calls s) s).
  assert (H1 : exists calls1 evs1,
             loop_effect id st (tool_calls s) calls1 evs1
             /\ tool_calls s1 = calls1 /\ retired s1 = retired s
             /\ events s1 = events s ++ evs1
             /\ signal_aborted s1 = signal_aborted s).
  { subst s1. rewrite set_status_loop_target.
    destruct (target id (tool_calls s)) as [[j tc]|] eqn:Ht.
    - destruct (new_call_for time_time st tc d s) as [[nc s0]|] eqn:Hn.
      + apply new_call_for_Some in Hn.
        destruct Hn as (Hk & Hst & Hrq & Hc & Hr & He & Hs & _).
        exists (<[j := nc]> (tool_calls s)), [Assigned j tc nc].
        simpl. rewrite Hc, Hr, He, Hs. repeat split; auto.
        now apply LoopAssigned.
      + apply new_call_for_None in Hn.
        exists (tool_calls s), []. rewrite app_nil_r. repeat split; auto.
        apply LoopUnchanged. now right.
    - exists (tool_calls s), []. rewrite app_nil_r. repeat split; auto.
      apply LoopUnchanged. now left. }
  destruct H1 as (calls1 & evs1 & Hl & Hc1 & Hr1 & He1 & Hs1).
  destruct (notify_effect s1) as (evs2 & He2 & Hf2 & Hc2 & Hr2 & Hs2).
  destruct (sweep_effect_of (_notify_tool_calls_update s1))
    as (evs3 & He3 & Hf3 & Hsw & Hs3).
  exists calls1, evs1, (evs2 ++ evs3).
  rewrite Hc2, Hc1 in *. rewrite Hr2, Hr1 in Hsw.
  repeat split; auto.
  - rewrite He3, He2, He1. now rewrite <- !app_assoc.
  - apply Forall_app. split; assumption.
  - congruence.
Qed.

(** *** Ids of the calls that are not terminal *)

Lemma emits_refl Q s : emits Q s s.
Proof. exists []. rewrite app_nil_r. split; [reflexivity|apply List.Forall_nil]. Qed.

Lemma emits_trans Q s1 s2 s3 : emits Q s1 s2 -> emits Q s2 s3 -> emits Q s1 s3.
Proof.
  intros (e1 & H1 & F1) (e2 & H2 & F2). exists (e1 ++ e2). split.
  - rewrite H2, H1. now rewrite <- app_assoc.
  - apply Forall_app. now split.
Qed.

Lemma emits_weaken (Q Q' : Event -> Prop) s s' :
  (forall e, Q e -> Q' e) -> emits Q s s' -> emits Q' s s'.
Proof.
  intros HQ (evs & H & F). exists evs. split; [assumption|].
  eapply Forall_impl; eauto.
Qed.

Lemma emits_Forall Q s s' :
  emits Q s s' -> Forall Q (events s) -> Forall Q (events s').
Proof.
  intros (evs & H & F) F0. rewrite H. apply Forall_app. now split.
Qed.

Lemma nt_ids_cons c calls :
  nt_ids (c :: calls) =
    if is_terminal c then nt_ids calls else call_id_of c :: nt_ids calls.
Proof. unfold nt_ids. simpl. now destruct (is_terminal c). Qed.

Lemma elem_of_nt_ids calls i tc :
  calls !! i = Some tc -> is_terminal tc = false ->
  call_id_of tc ∈ nt_ids calls.
Proof.
  revert i. induction calls as [|c rest IH]; intros i Hl Ht; [discriminate|].
  rewrite nt_ids_cons. destruct i as [|i]; simpl in Hl.
  - injection Hl as ->. rewrite Ht. apply list_elem_of_here.
  - specialize (IH i Hl Ht). destruct (is_terminal c); [assumption|].
    now apply list_elem_of_further.
Qed.

Lemma NoDup_nt_ids_tail c calls :
  NoDup (nt_ids (c :: calls)) -> NoDup (nt_ids calls).
Proof.
  rewrite nt_ids_cons. destruct (is_terminal c); [trivial|].
  intros H. now apply NoDup_cons in H as [_ H].
Qed.

Lemma target_unique calls i tc :
  NoDup (nt_ids calls) -> calls !! i = Some tc -> is_terminal tc = false ->
  target (call_id_of tc) calls = Some (i, tc).
Proof.
  revert i. induction calls as [|c rest IH]; intros i Hnd Hl Ht; [discriminate|].
  destruct i as [|i]; simpl in Hl.
  - injection Hl as ->. simpl. fold (call_id_of tc).
    now rewrite String.eqb_refl, Ht.
  - simpl. fold (call_id_of c).
    destruct (String.eqb (call_id_of c) (call_id_of tc) && negb (is_terminal c))
      eqn:E.
    + exfalso. apply andb_true_iff in E as [E1 E2].
      apply String.eqb_eq in E1. apply negb_true_iff in E2.
      rewrite nt_ids_cons, E2 in Hnd. apply NoDup_cons in Hnd as [Hn _].
      apply Hn. rewrite E1. eapply elem_of_nt_ids; eauto.
    + rewrite (IH i); auto. eapply NoDup_nt_ids_tail; eauto.
Qed.

Lemma target_exists calls k tc :
  calls !! k = Some tc -> is_terminal tc = false ->
  exists j tcj, target (call_id_of tc) calls = Some (j, tcj).
Proof.
  revert k. induction calls as [|c rest IH]; intros k Hl Ht; [discriminate|].
  simpl. fold (call_id_of c).
  destruct (String.eqb (call_id_of c) (call_id_of tc) && negb (is_terminal c))
    eqn:E; [eauto|].
  destruct k as [|k]; simpl in Hl.
  - injection Hl as ->. now rewrite String.eqb_refl, Ht in E.
  - destruct (IH k Hl Ht) as (j & tcj & ->). eauto.
Qed.

Lemma target_insert_same id calls j tcj nc :
  target id calls = Some (j, tcj) ->
  call_id_of nc = id -> is_terminal nc = false ->
  target id (<[j := nc]> calls) = Some (j, nc).
Proof.
  revert j. induction calls as [|c rest IH]; intros j; simpl; [discriminate|].
  fold (call_id_of c).
  destruct (String.eqb (call_id_of c) id && negb (is_terminal c)) eqn:E.
  - intros [= <- <-] Hid Hnt. simpl. fold (call_id_of nc).
    rewrite Hid, String.eqb_refl, Hnt. reflexivity.
  - destruct (target id rest) as [[j' tc']|] eqn:Ht; [|discriminate].
    intros [= <- <-] Hid Hnt. simpl. fold (call_id_of c). rewrite E.
    now rewrite (IH j' eq_refl Hid Hnt).
Qed.

Lemma nt_ids_insert calls i tc nc :
  calls !! i = Some tc -> call_id_of nc = call_id_of tc ->
  is_terminal tc = false ->
  nt_ids (<[i := nc]> calls) `sublist_of` nt_ids calls.
Proof.
  revert i. induction calls as [|c rest IH]; intros i Hl Hid Ht; [discriminate|].
  destruct i as [|i]; simpl in Hl.
  - injection Hl as ->. simpl. rewrite !nt_ids_cons, Ht, Hid.
    destruct (is_terminal nc).
    + now apply sublist_cons.
    + reflexivity.
  - simpl. rewrite !nt_ids_cons. specialize (IH i Hl Hid Ht).
    destruct (is_terminal c); [assumption|]. now apply sublist_skip.
Qed.

Lemma NoDup_nt_ids_insert calls i tc nc :
  calls !! i = Some tc -> call_id_of nc = call_id_of tc ->
  is_terminal tc = false ->
  NoDup (nt_ids calls) -> NoDup (nt_ids (<[i := nc]> calls)).
Proof.
  intros Hl Hid Ht Hnd.
  exact (sublist_NoDup _ _ Hnd (nt_ids_insert _ _ _ _ Hl Hid Ht)).
Qed.

Lemma sweep_condition_terminal calls :
  sweep_condition calls = true -> Forall (fun c => is_terminal c = true) calls.
Proof.
  unfold sweep_condition. intros H.
  apply andb_true_iff in H as [H _]. apply andb_true_iff in H as [H _].
  apply andb_true_iff in H as [_ H].
  apply Forall_forall. intros c Hc.
  rewrite forallb_forall in H. apply H. now apply list_elem_of_In.
Qed.

Lemma sweep_condition_insert_nt calls j nc :
  j < length calls -> is_terminal nc = false ->
  sweep_condition (<[j := nc]> calls) = false.
Proof.
  intros Hj Hnt.
  destruct (sweep_condition (<[j := nc]> calls)) eqn:E; [|reflexivity].
  apply sweep_condition_terminal in E.
  assert (Hl : <[j := nc]> calls !! j = Some nc)
    by now apply list_lookup_insert_eq.
  pose proof (Forall_lookup_1 _ _ _ _ E Hl) as E'. simpl in E'. congruence.
Qed.

(** One [_set_status] when the target is known. *)
Lemma set_status_at id st d s j tcj :
  target id (tool_calls s) = Some (j, tcj) ->
  known_status st = true ->
  exists nc evs2,
    status nc = st /\ request nc = request tcj
    /\ events (_set_status id st d s)
       = events s ++ [Assigned j tcj nc] ++ evs2
    /\ Forall (after_loop_event (<[j := nc]> (tool_calls s))) evs2
    /\ sweep_effect (<[j := nc]> (tool_calls s)) (retired s)
         (_set_status id st d s)
    /\ signal_aborted (_set_status id st d s) = signal_aborted s.
Proof.
  intros Ht Hk.
  destruct (set_status_effect id st d s)
    as (calls1 & evs1 & evs2 & Hl & Hsw & He & Hf & Hs).
  inversion Hl as [[Hn|Hn] E1 E2|i tc nc Ht' Hk' Hst Hrq E1 E2]; subst.
  - congruence.
  - congruence.
  - rewrite Ht in Ht'. injection Ht' as <- <-.
    exists nc, evs2. repeat split; auto.
Qed.

(** One [_set_status] when there is no target. *)
Lemma set_status_no_target id st d s :
  target id (tool_calls s) = None ->
  exists evs2,
    events (_set_status id st d s) = events s ++ evs2
    /\ Forall (after_loop_event (tool_calls s)) evs2
    /\ sweep_effect (tool_calls s) (retired s) (_set_status id st d s)
    /\ signal_aborted (_set_status id st d s) = signal_aborted s.
Proof.
  intros Ht.
  destruct (set_status_effect id st d s)
    as (calls1 & evs1 & evs2 & Hl & Hsw & He & Hf & Hs).
  inversion Hl as [[Hn|Hn] E1 E2|i tc nc Ht' Hk' Hst Hrq E1 E2]; subst.
  - exists evs2. repeat split; auto.
  - exists evs2. repeat split; auto.
  - congruence.
Qed.

(** *** The body of the execution loop *)

Lemma status_not_terminal c st :
  status c = st -> str_in st terminal_statuses = false -> is_terminal c = false.
Proof. unfold is_terminal. now intros ->. Qed.

Lemma outputs_effect id chunks s :
  let s' := fold_left (fun acc chunk => update_output id chunk acc) chunks s in
  tool_calls s' = tool_calls s /\ retired s' = retired s
  /\ signal_aborted s' = signal_aborted s
  /\ exists outs, events s' = events s ++ outs /\ Forall is_output outs.
Proof.
  revert s. induction chunks as [|c rest IH]; intros s; simpl.
  - repeat split; auto. exists []. rewrite app_nil_r.
    split; [reflexivity|apply List.Forall_nil].
  - destruct (IH (update_output id c s)) as (H1 & H2 & H3 & outs & H4 & H5).
    unfold update_output in *.
    destruct (output_update_handler s); simpl in *.
    + rewrite H1, H2, H3. repeat split; auto.
      exists (OutputUpdate id c :: outs). rewrite H4, <- app_assoc.
      split; [reflexivity|]. apply List.Forall_cons; [exact I|assumption].
    + repeat split; auto. exists outs. now split.
Qed.


(** The body is the transition to [executing], the output of the tool
    and, unless [execute] is left by an exception that is not an
    [Exception], one more [_set_status] with the status of the outcome. *)
Lemma execute_scheduled_shape tc s :
  let id := call_id_of tc in
  let s1 := _set_status id "executing" DNone s in
  let st := outcome_status tc (signal_aborted s1 || abort_during id) in
  exists sX outs,
    tool_calls sX = tool_calls s1 /\ retired sX = retired s1
    /\ events sX = events s1 ++ outs /\ Forall is_output outs
    /\ ((exists e,
            execute_scheduled convert_to_function_response time_time
              abort_during tc s = (RaisesBase e, sX)
            /\ st = "executing")
        \/ (exists d,
               execute_scheduled convert_to_function_response time_time
                 abort_during tc s = (Returns tt, _set_status id st d sX)
               /\ (st = "success" \/ st = "error"))).
Proof.
  intros id s1 st. subst st. unfold execute_scheduled, outcome_status.
  fold (call_id_of tc). fold id. fold s1.
  destruct (tool tc) as [t|].
  - destruct (execute t (args (request tc))
                (signal_aborted s1 || abort_during id)) as [chunks outcome] eqn:Hx.
    destruct (outputs_effect id chunks
                (with_signal_aborted (signal_aborted s1 || abort_during id) s1))
      as (H1 & H2 & _ & outs & H4 & H5).
    simpl in H1, H2, H4. simpl.
    destruct outcome as [result|e|e];
      [destruct (truthy_str (error result))| |].
    all: eexists _, outs; split; [exact H1|]; split; [exact H2|];
      split; [exact H4|]; split; [exact H5|].
    + right. eexists. split; [reflexivity|now right].
    + right. eexists. split; [reflexivity|now left].
    + right. eexists. split; [reflexivity|now right].
    + left. exists e. split; reflexivity.
  - exists s1, []. rewrite app_nil_r.
    split; [reflexivity|]. split; [reflexivity|]. split; [reflexivity|].
    split; [apply List.Forall_nil|].
    right. eexists. split; [reflexivity|now right].
Qed.

Lemma outcome_status_known tc ab : known_status (outcome_status tc ab) = true.
Proof.
  unfold outcome_status. destruct (tool tc) as [t|]; [|reflexivity].
  destruct (snd (execute t (args (request tc)) ab)) as [r|e|e];
    [|reflexivity|reflexivity].
  now destruct (truthy_str (error r)).
Qed.

Lemma outcome_status_cases tc ab :
  outcome_status tc ab = "success" \/ outcome_status tc ab = "error"
  \/ outcome_status tc ab = "executing".
Proof.
  unfold outcome_status. destruct (tool tc) as [t|]; [|right; now left].
  destruct (snd (execute t (args (request tc)) ab)) as [r|e|e];
    [|right; now left|right; now right].
  destruct (truthy_str (error r)); [right; now left|now left].
Qed.

(** The events of the body and the list it leaves, for a call that is
    in the list and not terminal: the first assignment is made at the
    first call of this id that is not terminal; when [execute] is left
    by an exception that is not an [Exception] this is the only
    assignment, otherwise a second one follows at the same position. *)
Lemma execute_scheduled_effect s k tc :
  tool_calls s !! k = Some tc -> is_terminal tc = false ->
  let r := execute_scheduled convert_to_function_response time_time
             abort_during tc s in
  let st := outcome_status tc
              (signal_aborted s || abort_during (call_id_of tc)) in
  exists j tcj nc1 evsA outs,
    target (call_id_of tc) (tool_calls s) = Some (j, tcj)
    /\ status nc1 = "executing" /\ request nc1 = request tcj
    /\ Forall (after_loop_event (<[j := nc1]> (tool_calls s))) evsA
    /\ Forall is_output outs
    /\ ((exists e,
            fst r = RaisesBase e /\ st = "executing"
            /\ events (snd r)
               = events s ++ [Assigned j tcj nc1] ++ evsA ++ outs
            /\ tool_calls (snd r) = <[j := nc1]> (tool_calls s)
            /\ retired (snd r) = retired s)
        \/ (fst r = Returns tt
            /\ exists nc2 evsB,
                status nc2 = st /\ (st = "success" \/ st = "error")
                /\ request nc2 = request tcj
                /\ events (snd r)
                   = events s ++ [Assigned j tcj nc1] ++ evsA ++ outs
                       ++ [Assigned j nc1 nc2] ++ evsB
                /\ Forall (after_loop_event (<[j := nc2]> (tool_calls s))) evsB
                /\ sweep_effect (<[j := nc2]> (tool_calls s)) (retired s)
                     (snd r))).
Proof.
  intros Hk Hnt r st.
  destruct (target_exists _ _ _ Hk Hnt) as (j & tcj & Ht).
  destruct (target_Some _ _ _ _ Ht) as (Hj & Hid & Hntj).
  destruct (set_status_at _ "executing" DNone s j tcj Ht eq_refl)
    as (nc1 & evsA & Hst1 & Hrq1 & He1 & HfA & Hsw1 & Hs1).
  assert (Hnt1 : is_terminal nc1 = false)
    by (eapply status_not_terminal; eauto).
  assert (Hjlt : j < length (tool_calls s)) by (eapply lookup_lt_Some; eauto).
  inversion Hsw1 as [Hc Hc1 Hr1|Hc Hc1 Hr1];
    [|rewrite sweep_condition_insert_nt in Hc by assumption; discriminate].
  destruct (execute_scheduled_shape tc s)
    as (sX & outs & HcX & HrX & HeX & Hfo & Hcase).
  cbv zeta in HcX, HrX, HeX, Hcase. rewrite Hs1 in Hcase. fold st in Hcase.
  fold r in Hcase.
  exists j, tcj, nc1, evsA, outs.
  split; [exact Ht|]. split; [exact Hst1|]. split; [exact Hrq1|].
  split; [exact HfA|]. split; [exact Hfo|].
  destruct Hcase as [(e & Heq & Hst)|(d & Heq & Hst)].
  - left. exists e. rewrite Heq. simpl.
    split; [reflexivity|]. split; [exact Hst|].
    split; [rewrite HeX, He1; now rewrite <- !app_assoc|].
    split; congruence.
  - right. rewrite Heq. simpl. split; [reflexivity|].
    assert (Ht2 : target (call_id_of tc) (tool_calls sX) = Some (j, nc1)).
    { rewrite HcX, Hc1. apply (target_insert_same _ _ _ tcj); auto.
      unfold call_id_of. now rewrite Hrq1. }
    destruct (set_status_at _ st d sX j nc1 Ht2 (outcome_status_known _ _))
      as (nc2 & evsB & Hst2 & Hrq2 & He2 & HfB & Hsw2 & Hs2).
    rewrite HcX, Hc1, list_insert_insert_eq in HfB, Hsw2.
    rewrite HrX, Hr1 in Hsw2.
    exists nc2, evsB.
    split; [exact Hst2|]. split; [exact Hst|]. split; [congruence|].
    split; [rewrite He2, HeX, He1; now rewrite <- !app_assoc|].
    split; assumption.
Qed.

(** *** How the loops end *)

Lemma execute_scheduled_outcome tc s :
  fst (execute_scheduled convert_to_function_response time_time
         abort_during tc s) = Returns tt
  \/ exists e,
      fst (execute_scheduled convert_to_function_response time_time
             abort_during tc s) = RaisesBase e.
Proof.
  destruct (execute_scheduled_shape tc s)
    as (sX & outs & _ & _ & _ & _ & [(e & -> & _)|(d & -> & _)]);
    [right; now exists e|now left].
Qed.

Lemma execution_loop_outcome n g i s :
  fst (execution_loop convert_to_function_response time_time
         abort_during n g i s) = Returns tt
  \/ exists e,
      fst (execution_loop convert_to_function_response time_time
             abort_during n g i s) = RaisesBase e.
Proof.
  revert i s. induction n as [|n IH]; intros i s; simpl; [now left|].
  destruct (list_object g s !! i) as [tc|]; [|now left].
  destruct (String.eqb (status tc) "scheduled"); [|apply IH].
  destruct (execute_scheduled_outcome tc s) as [H|(e & H)];
    destruct (execute_scheduled convert_to_function_response time_time
                abort_during tc s) as [o s']; simpl in H; subst o.
  - apply IH.
  - right. now exists e.
Qed.

Lemma validate_call_cases tc s :
  status tc = "validating" ->
  (exists e, validate_call time_time tc s = (RaisesBase e, s))
  \/ exists st d,
      In st ["awaiting_approval"; "scheduled"; "error"]
      /\ validate_call time_time tc s
         = (Returns tt, _set_status (call_id_of tc) st d s).
Proof.
  intros Hst. unfold validate_call. rewrite Hst. simpl.
  fold (call_id_of tc).
  destruct (tool tc) as [t|].
  - destruct (should_confirm_execute t (args (request tc)) (signal_aborted s))
      as [[cd|]|e|e].
    + right. eexists _, _. split; [|reflexivity]. simpl. auto.
    + right. eexists _, _. split; [|reflexivity]. simpl. auto.
    + right. eexists _, _. split; [|reflexivity]. simpl. auto.
    + left. now exists e.
  - right. eexists _, _. split; [|reflexivity]. simpl. auto.
Qed.

Lemma validate_call_other tc s :
  status tc <> "validating" -> validate_call time_time tc s = (Returns tt, s).
Proof.
  intros Hst. unfold validate_call.
  destruct (String.eqb (status tc) "validating") eqn:E; [|reflexivity].
  apply String.eqb_eq in E. contradiction.
Qed.

Lemma validate_call_terminal tc s :
  is_terminal tc = true -> validate_call time_time tc s = (Returns tt, s).
Proof.
  intros Ht. apply validate_call_other. intros E.
  unfold is_terminal in Ht. now rewrite E in Ht.
Qed.

Lemma validate_call_outcome tc s :
  fst (validate_call time_time tc s) = Returns tt
  \/ exists e, fst (validate_call time_time tc s) = RaisesBase e.
Proof.
  destruct (String.eqb (status tc) "validating") eqn:E.
  - apply String.eqb_eq in E.
    destruct (validate_call_cases tc s E) as [(e & ->)|(st & d & _ & ->)];
      [right; now exists e|now left].
  - apply String.eqb_neq in E. rewrite validate_call_other by assumption.
    now left.
Qed.

Lemma validation_loop_outcome new s :
  fst (validation_loop time_time new s) = Returns tt
  \/ exists e, fst (validation_loop time_time new s) = RaisesBase e.
Proof.
  revert s. induction new as [|c rest IH]; intros s; simpl; [now left|].
  destruct (validate_call_outcome c s) as [H|(e & H)];
    destruct (validate_call time_time c s) as [o s']; simpl in H; subst o.
  - apply IH.
  - right. now exists e.
Qed.

(** *** The execution loop keeps the invariant *)

Lemma after_loop_event_valid calls e : after_loop_event calls e -> valid_event e.
Proof. destruct e; simpl; tauto. Qed.

Lemma is_output_valid e : is_output e -> valid_event e.
Proof. destruct e; simpl; tauto. Qed.

Lemma Forall_valid_after calls evs :
  Forall (after_loop_event calls) evs -> Forall valid_event evs.
Proof.
  intros H. eapply Forall_impl; [exact H|]. apply after_loop_event_valid.
Qed.

Lemma Forall_valid_output evs : Forall is_output evs -> Forall valid_event evs.
Proof.
  intros H. eapply Forall_impl; [exact H|]. apply is_output_valid.
Qed.

Lemma status_scheduled_not_terminal c :
  status c = "scheduled" -> is_terminal c = false.
Proof. intros H. eapply status_not_terminal; eauto. Qed.

Lemma terminal_call_ok strict pend c :
  is_terminal c = true -> call_ok strict pend c.
Proof. intros H Hn. congruence. Qed.

Lemma call_ok_false c : call_ok false [] c.
Proof.
  intros _. split; [intros H; now apply elem_of_nil in H|discriminate].
Qed.

(** Without [strict] and with nothing to validate the invariant only
    speaks of the events and of the ids. *)
Lemma Inv_false strict pend s : Inv strict pend s -> Inv false [] s.
Proof.
  intros [Hev Hnd _]. split; auto.
  apply Forall_forall. intros c _. apply call_ok_false.
Qed.

Lemma Inv_false_intro s :
  Forall valid_event (events s) -> NoDup (nt_ids (tool_calls s)) ->
  Inv false [] s.
Proof.
  intros Hev Hnd. split; auto.
  apply Forall_forall. intros c _. apply call_ok_false.
Qed.

Lemma outcome_terminal c st :
  status c = st -> st = "success" \/ st = "error" -> is_terminal c = true.
Proof. unfold is_terminal. intros -> [-> | ->]; reflexivity. Qed.

(** The effect of the body on the invariant, for the call at position
    [i] of [self.tool_calls]. *)
Lemma execute_scheduled_inv strict s i tc :
  Inv strict [] s -> tool_calls s !! i = Some tc -> status tc = "scheduled" ->
  let r := execute_scheduled convert_to_function_response time_time
             abort_during tc s in
  Inv (strict && negb (escaped (fst r))) [] (snd r)
  /\ ((exists e nc1,
          fst r = RaisesBase e /\ status nc1 = "executing"
          /\ tool_calls (snd r) = <[i := nc1]> (tool_calls s)
          /\ retired (snd r) = retired s)
      \/ (fst r = Returns tt
          /\ exists nc2,
              is_terminal nc2 = true
              /\ sweep_effect (<[i := nc2]> (tool_calls s)) (retired s)
                   (snd r))).
Proof.
  intros [Hev Hnd Hcalls] Hi Hst r.
  pose proof (status_scheduled_not_terminal _ Hst) as Hnt.
  destruct (execute_scheduled_effect s i tc Hi Hnt)
    as (j & tcj & nc1 & evsA & outs & Ht & Hs1 & Hr1 & HfA & Hfo & Hcase).
  rewrite (target_unique _ _ _ Hnd Hi Hnt) in Ht. injection Ht as <- <-.
  fold r in Hcase.
  assert (Hfirst : valid_event (Assigned i tc nc1)).
  { simpl. split; [assumption|]. now rewrite Hst, Hs1. }
  destruct Hcase
    as [(e & Ho & _ & He & Hc & Hr)
       |(Ho & nc2 & evsB & Hs2 & Hcases & Hr2 & He & HfB & Hsw)].
  - rewrite Ho. simpl. rewrite andb_false_r. split.
    + apply Inv_false_intro.
      * rewrite He. rewrite !Forall_app. repeat split; auto.
        -- eapply Forall_valid_after; eauto.
        -- now apply Forall_valid_output.
      * rewrite Hc. eapply NoDup_nt_ids_insert; eauto.
        unfold call_id_of. now rewrite Hr1.
    + left. exists e, nc1. auto.
  - rewrite Ho. simpl. rewrite andb_true_r.
    pose proof (outcome_terminal _ _ Hs2 Hcases) as Hterm2.
    split; [|right; split; [reflexivity|exists nc2; now split]].
    split.
    + rewrite He. rewrite !Forall_app. repeat split; auto.
      * eapply Forall_valid_after; eauto.
      * now apply Forall_valid_output.
      * apply List.Forall_cons; [|apply List.Forall_nil]. simpl.
        split; [eapply status_not_terminal; eauto|].
        rewrite Hs1, Hs2. destruct Hcases as [-> | ->]; reflexivity.
      * eapply Forall_valid_after; eauto.
    + inversion Hsw as [_ -> _|_ -> _]; [|apply NoDup_nil_2].
      eapply NoDup_nt_ids_insert; eauto. unfold call_id_of. now rewrite Hr2.
    + inversion Hsw as [_ -> _|_ -> _]; [|apply List.Forall_nil].
      apply Forall_insert; [assumption|]. now apply terminal_call_ok.
Qed.

(** The state of the iteration over the list object of generation [g]
    that had [n0] entries, before position [i] is read. *)
Definition loop_inv (strict : bool) (g n0 i : nat) (s : ToolScheduler) : Prop :=
  Inv strict [] s
  /\ ((length (retired s) = g /\ length (tool_calls s) = n0
       /\ (strict = true ->
           forall j c, j < i -> tool_calls s !! j = Some c ->
                       status c <> "scheduled"))
      \/ (g < length (retired s)
          /\ Forall (fun c => is_terminal c = true)
                    (default [] (retired s !! g))
          /\ tool_calls s = [])).

Lemma Inv_nil_Boundary strict s :
  Inv strict [] s ->
  (strict = true ->
   forall j c, tool_calls s !! j = Some c -> status c <> "scheduled") ->
  Boundary strict s.
Proof.
  intros [Hev Hnd Hcalls] Hns. split; auto.
  intros Hs. apply Forall_lookup. intros j c Hj.
  destruct (is_terminal c) eqn:Ht; [now left|]. right.
  pose proof (Forall_lookup_1 _ _ _ _ Hcalls Hj Ht) as [_ H].
  destruct (H Hs (not_elem_of_nil _)) as [H'|H']; [exact H'|].
  exfalso. eapply Hns; eauto.
Qed.

Lemma Inv_Boundary_false strict pend s : Inv strict pend s -> Boundary false s.
Proof. intros [Hev Hnd _]. split; auto. discriminate. Qed.

Lemma execution_loop_inv strict g n0 n i s :
  loop_inv strict g n0 i s -> n + i = n0 ->
  let r := execution_loop convert_to_function_response time_time
             abort_during n g i s in
  Boundary (strict && negb (escaped (fst r))) (snd r).
Proof.
  revert i s. induction n as [|n IH]; intros i s [HI Hcase] Hn; simpl.
  - rewrite andb_true_r.
    destruct Hcase as [(Hg & Hlen & Hns)|(Hg & Hterm & Hnil)].
    + apply Inv_nil_Boundary; [assumption|].
      intros Hs j c Hj. apply (Hns Hs j c); [|assumption].
      apply lookup_lt_Some in Hj. lia.
    + apply Inv_nil_Boundary; [assumption|].
      rewrite Hnil. intros _ j c Hj. discriminate.
  - unfold list_object.
    destruct Hcase as [(Hg & Hlen & Hns)|(Hg & Hterm & Hnil)].
    + rewrite Hg, Nat.eqb_refl.
      destruct (tool_calls s !! i) as [tc|] eqn:Hi.
      2:{ apply lookup_ge_None in Hi. lia. }
      destruct (String.eqb (status tc) "scheduled") eqn:Hst.
      * apply String.eqb_eq in Hst.
        destruct (execute_scheduled_inv strict s i tc HI Hi Hst)
          as (HI' & Hcase).
        destruct (execute_scheduled convert_to_function_response time_time
                    abort_during tc s) as [o s'].
        simpl in HI', Hcase.
        destruct Hcase
          as [(e & nc1 & -> & _)|(-> & nc2 & Hterm2 & Hsw)].
        -- simpl in *. rewrite andb_false_r in *.
           eapply Inv_Boundary_false; eauto.
        -- simpl in HI'. rewrite andb_true_r in HI'.
           apply IH; [|lia]. split; [assumption|].
           inversion Hsw as [_ Hc Hr|Hc0 Hc Hr].
           ++ left. rewrite Hc, Hr, length_insert. repeat split; auto.
              intros Hs j c Hj Hl.
              destruct (decide (j = i)) as [->|Hne].
              ** rewrite list_lookup_insert_eq in Hl
                   by (eapply lookup_lt_Some; eauto).
                 injection Hl as <-. intros E.
                 unfold is_terminal in Hterm2. now rewrite E in Hterm2.
              ** rewrite list_lookup_insert_ne in Hl by auto.
                 apply (Hns Hs j c); [lia|assumption].
           ++ right. rewrite Hr, Hc. repeat split.
              ** rewrite length_app. simpl. lia.
              ** rewrite lookup_app_r by lia. rewrite Hg, Nat.sub_diag. simpl.
                 now apply sweep_condition_terminal.
      * apply IH; [|lia]. split; [assumption|]. left. repeat split; auto.
        intros Hs j c Hj Hl.
        destruct (decide (j = i)) as [->|Hne].
        -- rewrite Hi in Hl. injection Hl as <-. intros E.
           now rewrite E in Hst.
        -- apply (Hns Hs j c); [lia|assumption].
    + destruct (Nat.eqb g (length (retired s))) eqn:E.
      { apply Nat.eqb_eq in E. lia. }
      destruct (default [] (retired s !! g) !! i) as [tc|] eqn:Hi.
      2:{ simpl. rewrite andb_true_r.
          apply Inv_nil_Boundary; [assumption|].
          rewrite Hnil. intros _ j c Hj. discriminate. }
      pose proof (Forall_lookup_1 _ _ _ _ Hterm Hi) as Htc. simpl in Htc.
      destruct (String.eqb (status tc) "scheduled") eqn:Hst.
      { apply String.eqb_eq in Hst.
        unfold is_terminal in Htc. now rewrite Hst in Htc. }
      apply IH; [|lia]. split; [assumption|]. right. auto.
Qed.

Lemma attempt_execution_Boundary strict s :
  Inv strict [] s ->
  let r := _attempt_execution_of_scheduled_calls s in
  Boundary (strict && negb (escaped (fst r))) (snd r).
Proof.
  intros HI. unfold Scheduler._attempt_execution_of_scheduled_calls.
  apply (execution_loop_inv strict _ (length (tool_calls s))); [|lia].
  split; [assumption|]. left. repeat split; auto. intros _ j c Hj. lia.
Qed.

(** *** The validation loop keeps the invariant *)

Lemma target_None_ids id calls :
  target id calls = None ->
  forall k c, calls !! k = Some c -> is_terminal c = false ->
              call_id_of c <> id.
Proof.
  induction calls as [|c0 rest IH]; intros Ht k c Hk Hnt; [discriminate|].
  simpl in Ht. fold (call_id_of c0) in Ht.
  destruct (String.eqb (call_id_of c0) id && negb (is_terminal c0)) eqn:E;
    [discriminate|].
  destruct (target id rest) as [[j tcj]|] eqn:Hr; [discriminate|].
  destruct k as [|k]; simpl in Hk.
  - injection Hk as ->. intros Hid. subst id.
    now rewrite String.eqb_refl, Hnt in E.
  - now apply (IH eq_refl k c).
Qed.

Lemma set_status_unique id st d s i tc :
  NoDup (nt_ids (tool_calls s)) ->
  tool_calls s !! i = Some tc -> is_terminal tc = false ->
  call_id_of tc = id -> known_status st = true ->
  exists nc evs2,
    status nc = st /\ request nc = request tc
    /\ events (_set_status id st d s)
       = events s ++ [Assigned i tc nc] ++ evs2
    /\ Forall (after_loop_event (<[i := nc]> (tool_calls s))) evs2
    /\ sweep_effect (<[i := nc]> (tool_calls s)) (retired s)
         (_set_status id st d s)
    /\ signal_aborted (_set_status id st d s) = signal_aborted s.
Proof.
  intros Hnd Hi Hnt <- Hk. apply set_status_at; [|assumption].
  now apply target_unique.
Qed.

(** A call other than the one validated stays as the invariant wants it
    when the id validated leaves [pend]. *)
Lemma call_ok_drop strict id pend c :
  call_ok strict (id :: pend) c ->
  (is_terminal c = false -> call_id_of c <> id) ->
  call_ok strict pend c.
Proof.
  intros H Hne Hnt. destruct (H Hnt) as [A B]. split.
  - intros Hin. apply A. now apply list_elem_of_further.
  - intros Hs Hin. apply B; [exact Hs|].
    intros Hin'. apply elem_of_cons in Hin' as [E|Hin']; [|contradiction].
    now apply Hne.
Qed.

Lemma set_status_validating_Inv strict id pend st d s :
  Inv strict (id :: pend) s -> id ∉ pend ->
  In st ["awaiting_approval"; "scheduled"; "error"] ->
  Inv strict pend (_set_status id st d s).
Proof.
  intros [Hev Hnd Hcalls] Hfresh Hst.
  assert (Hk : known_status st = true).
  { simpl in Hst. destruct Hst as [<-|[<-|[<-|[]]]]; reflexivity. }
  destruct (target id (tool_calls s)) as [[j tcj]|] eqn:Ht.
  - destruct (target_Some _ _ _ _ Ht) as (Hj & Hid & Hnt).
    assert (Hval : status tcj = "validating").
    { apply (Forall_lookup_1 _ _ _ _ Hcalls Hj Hnt).
      fold (call_id_of tcj) in Hid. rewrite Hid. apply list_elem_of_here. }
    destruct (set_status_at id st d s j tcj Ht Hk)
      as (nc & evs2 & Hsn & Hrq & He & Hf & Hsw & _).
    split.
    + rewrite He, !Forall_app. repeat split; auto.
      * apply List.Forall_cons; [|apply List.Forall_nil]. simpl.
        split; [assumption|]. rewrite Hval, Hsn.
        simpl in Hst. destruct Hst as [<-|[<-|[<-|[]]]]; reflexivity.
      * eapply Forall_valid_after; eauto.
    + inversion Hsw as [_ -> _|_ -> _]; [|apply NoDup_nil_2].
      eapply NoDup_nt_ids_insert; eauto. unfold call_id_of. now rewrite Hrq.
    + inversion Hsw as [_ -> _|_ -> _]; [|apply List.Forall_nil].
      apply Forall_lookup. intros k c Hkc.
      destruct (decide (k = j)) as [->|Hne].
      * rewrite list_lookup_insert_eq in Hkc
          by (eapply lookup_lt_Some; eauto).
        injection Hkc as <-.
        assert (Hidn : call_id_of nc = id)
          by (unfold call_id_of; now rewrite Hrq).
        intros Hntn. rewrite Hidn. split; [contradiction|].
        intros _ _. simpl in Hst. destruct Hst as [<-|[<-|[<-|[]]]].
        -- now left.
        -- now right.
        -- unfold is_terminal in Hntn. now rewrite Hsn in Hntn.
      * rewrite list_lookup_insert_ne in Hkc by auto.
        apply (call_ok_drop strict id); [eapply Forall_lookup_1; eauto|].
        intros Hntc Hidc.
        rewrite <- Hidc in Ht.
        rewrite (target_unique _ _ _ Hnd Hkc Hntc) in Ht.
        injection Ht as ? ?. contradiction.
  - destruct (set_status_no_target id st d s Ht)
      as (evs2 & He & Hf & Hsw & _).
    split.
    + rewrite He, Forall_app. split; [assumption|].
      eapply Forall_valid_after; eauto.
    + inversion Hsw as [_ -> _|_ -> _]; [assumption|apply NoDup_nil_2].
    + inversion Hsw as [_ -> _|_ -> _]; [|apply List.Forall_nil].
      apply Forall_lookup. intros k c Hkc.
      apply (call_ok_drop strict id); [eapply Forall_lookup_1; eauto|].
      intros Hntc. eapply target_None_ids; eauto.
Qed.

Lemma validation_loop_Inv strict new s :
  Forall (fun c => status c = "validating" \/ is_terminal c = true) new ->
  NoDup (nt_ids new) -> Inv strict (nt_ids new) s ->
  let r := validation_loop time_time new s in
  Inv (strict && negb (escaped (fst r))) [] (snd r).
Proof.
  revert s. induction new as [|c rest IH]; intros s Hnew Hnd HI; simpl.
  - now rewrite andb_true_r.
  - apply Forall_cons in Hnew as [Hc Hrest].
    rewrite nt_ids_cons in Hnd, HI. destruct Hc as [Hv|Ht].
    + assert (Hnt : is_terminal c = false)
        by (eapply status_not_terminal; eauto).
      rewrite Hnt in Hnd, HI. apply NoDup_cons in Hnd as [Hfresh Hnd].
      destruct (validate_call_cases c s Hv) as [(e & ->)|(st & d & Hst & ->)].
      * simpl. rewrite andb_false_r. eapply Inv_false; eauto.
      * apply IH; auto. now apply set_status_validating_Inv.
    + rewrite Ht in Hnd, HI. rewrite validate_call_terminal by assumption.
      now apply IH.
Qed.

(** *** [schedule] and [handle_confirmation_response] keep the invariant *)

Lemma nt_ids_app l1 l2 : nt_ids (l1 ++ l2) = nt_ids l1 ++ nt_ids l2.
Proof. unfold nt_ids. now rewrite List.filter_app, map_app. Qed.

Lemma nt_ids_terminal l :
  Forall (fun c => is_terminal c = true) l -> nt_ids l = [].
Proof.
  induction l as [|c rest IH]; intros H; [reflexivity|].
  apply Forall_cons in H as [Hc Hr]. rewrite nt_ids_cons, Hc. auto.
Qed.

Lemma nt_ids_sublist l : nt_ids l `sublist_of` map call_id_of l.
Proof.
  induction l as [|c rest IH]; [constructor|].
  rewrite nt_ids_cons. simpl. destruct (is_terminal c).
  - now apply sublist_cons.
  - now apply sublist_skip.
Qed.

Lemma create_calls_spec registry requests s new s1 :
  create_calls time_time registry requests s = (new, s1) ->
  tool_calls s1 = tool_calls s /\ events s1 = events s
  /\ retired s1 = retired s
  /\ map call_id_of new = batch_ids requests
  /\ Forall (fun c => status c = "validating" \/ is_terminal c = true) new.
Proof.
  revert s new s1. induction requests as [|req rest IH]; intros s new s1; simpl.
  - intros [= <- <-]. repeat split; auto.
  - destruct (Registry.get_tool (name req) registry) as [t|].
    + destruct (create_calls time_time registry rest (tick s))
        as [calls s2] eqn:E.
      intros [= <- <-]. destruct (IH _ _ _ E) as (H1 & H2 & H3 & H4 & H5).
      simpl in *. repeat split; auto.
      all: try (unfold batch_ids in *; simpl; now rewrite H4).
      all: apply List.Forall_cons; [now left|assumption].
    + destruct (create_calls time_time registry rest s) as [calls s2] eqn:E.
      intros [= <- <-]. destruct (IH _ _ _ E) as (H1 & H2 & H3 & H4 & H5).
      repeat split; auto.
      all: try (unfold batch_ids in *; simpl; now rewrite H4).
      all: apply List.Forall_cons; [now right|assumption].
Qed.

Lemma not_running_terminal s :
  Boundary true s -> _is_running s = false ->
  Forall (fun c => is_terminal c = true) (tool_calls s).
Proof.
  intros [_ _ Hcalls] Hr. specialize (Hcalls eq_refl).
  apply Forall_lookup. intros k c Hk.
  pose proof (Forall_lookup_1 _ _ _ _ Hcalls Hk) as [H|H]; [assumption|].
  exfalso. unfold _is_running in Hr.
  assert (Hex : existsb
                  (fun call => str_in (status call)
                                 ["executing"; "awaiting_approval"])
                  (tool_calls s) = true).
  { apply existsb_exists. exists c. split.
    - apply list_elem_of_In. eapply list_elem_of_lookup_2; eauto.
    - now rewrite H. }
  congruence.
Qed.

Lemma notify_Inv strict pend s :
  Inv strict pend s -> Inv strict pend (_notify_tool_calls_update s).
Proof.
  intros [Hev Hnd Hcalls].
  destruct (notify_effect s) as (evs & He & Hf & Hc & _).
  split.
  - rewrite He, Forall_app. split; [assumption|].
    eapply Forall_valid_after; eauto.
  - now rewrite Hc.
  - now rewrite Hc.
Qed.

(** The invariant when the new calls have been appended: their ids are
    distinct and are not ids of calls of the list that are not
    terminal. *)
Lemma extend_Inv strict s s1 new ids :
  Boundary strict s ->
  (strict = true -> Forall (fun c => is_terminal c = true) (tool_calls s)) ->
  tool_calls s1 = tool_calls s -> events s1 = events s ->
  map call_id_of new = ids ->
  Forall (fun c => status c = "validating" \/ is_terminal c = true) new ->
  NoDup (nt_ids (tool_calls s) ++ ids) ->
  NoDup (nt_ids new)
  /\ Inv strict (nt_ids new)
       (with_tool_calls (tool_calls s1 ++ new) s1).
Proof.
  intros [Hev _ _] Hterm Hc He Hids Hnew Hnd.
  assert (Hsub : nt_ids new `sublist_of` ids)
    by (rewrite <- Hids; apply nt_ids_sublist).
  assert (Hndn : NoDup (nt_ids new)).
  { eapply sublist_NoDup; [|exact Hsub].
    now apply NoDup_app in Hnd as (_ & _ & Hnd). }
  split; [exact Hndn|]. split; simpl.
  - now rewrite He.
  - rewrite Hc, nt_ids_app. eapply sublist_NoDup; [exact Hnd|].
    now apply sublist_app.
  - rewrite Hc. apply Forall_app. split.
    + apply Forall_lookup. intros k c Hk Hnt. split.
      * intros Hin. exfalso.
        apply NoDup_app in Hnd as (_ & Hdis & _).
        apply (Hdis (call_id_of c)).
        -- eapply elem_of_nt_ids; eauto.
        -- eapply elem_of_sublist; eauto.
      * intros Hs _. exfalso.
        pose proof (Forall_lookup_1 _ _ _ _ (Hterm Hs) Hk) as Ht.
        simpl in Ht. congruence.
    + apply Forall_lookup. intros k c Hk Hnt.
      pose proof (Forall_lookup_1 _ _ _ _ Hnew Hk) as [Hv|Ht];
        [|congruence].
      split; [auto|]. intros _ Hn. exfalso. apply Hn.
      eapply elem_of_nt_ids; eauto.
Qed.

Lemma schedule_Boundary strict requests s :
  Boundary strict s ->
  (_is_running s = false ->
   NoDup (nt_ids (tool_calls s) ++ batch_ids requests)) ->
  let r := schedule requests s in
  Boundary (strict && negb (escaped (fst r))) (snd r).
Proof.
  intros HB Hnd. unfold Scheduler.schedule.
  destruct (_is_running s) eqn:Hrun.
  { simpl. now rewrite andb_true_r. }
  specialize (Hnd eq_refl).
  assert (Hterm : strict = true ->
                  Forall (fun c => is_terminal c = true) (tool_calls s)).
  { intros ->. now apply not_running_terminal. }
  set (registry := match tool_registry s with
                   | Some r => r
                   | None => config_registry s
                   end).
  destruct (create_calls time_time registry requests s) as [new s1] eqn:E.
  destruct (create_calls_spec _ _ _ _ _ E) as (Hc & He & _ & Hids & Hnew).
  destruct (extend_Inv strict s s1 new _ HB Hterm Hc He Hids Hnew Hnd)
    as [Hndn HI].
  apply (notify_Inv strict) in HI.
  pose proof (validation_loop_Inv strict new _ Hnew Hndn HI) as HV.
  cbv zeta in HV.
  destruct (validation_loop_outcome new
              (_notify_tool_calls_update
                 (with_tool_calls (tool_calls s1 ++ new) s1)))
    as [Ho|(e & Ho)];
    destruct (validation_loop time_time new
                (_notify_tool_calls_update
                   (with_tool_calls (tool_calls s1 ++ new) s1)))
      as [o s2]; simpl in Ho, HV; subst o.
  - simpl in HV. rewrite andb_true_r in HV.
    now apply attempt_execution_Boundary.
  - simpl in *. rewrite andb_false_r in *.
    eapply Inv_Boundary_false; eauto.
Qed.

Lemma find_awaiting_Some id off calls i tc :
  find_awaiting id off calls = Some (i, tc) ->
  exists k, i = off + k /\ calls !! k = Some tc
            /\ call_id_of tc = id /\ status tc = "awaiting_approval".
Proof.
  revert off. induction calls as [|c rest IH]; intros off; simpl; [discriminate|].
  destruct (String.eqb (call_id (request c)) id
            && String.eqb (status c) "awaiting_approval") eqn:E.
  - intros [= <- <-]. apply andb_true_iff in E as [E1 E2].
    apply String.eqb_eq in E1, E2. exists 0. rewrite Nat.add_0_r. auto.
  - intros H. destruct (IH _ H) as (k & -> & Hk & Hid & Hst).
    exists (S k). split; [lia|auto].
Qed.

Lemma Boundary_Inv strict s : Boundary strict s -> Inv strict [] s.
Proof.
  intros [Hev Hnd Hcalls]. split; auto.
  apply Forall_lookup. intros k c Hk Hnt.
  split; [intros H; now apply elem_of_nil in H|].
  intros Hs _.
  pose proof (Forall_lookup_1 _ _ _ _ (Hcalls Hs) Hk) as [H|H];
    [simpl in H; congruence|now left].
Qed.

Lemma set_status_awaiting_Inv strict id st d s i tc :
  Inv strict [] s -> tool_calls s !! i = Some tc ->
  status tc = "awaiting_approval" -> call_id_of tc = id ->
  In st ["cancelled"; "scheduled"] ->
  Inv strict [] (_set_status id st d s).
Proof.
  intros [Hev Hnd Hcalls] Hi Hst Hid Hin.
  assert (Hnt : is_terminal tc = false)
    by (eapply status_not_terminal; eauto).
  assert (Hk : known_status st = true).
  { simpl in Hin. destruct Hin as [<-|[<-|[]]]; reflexivity. }
  destruct (set_status_unique id st d s i tc Hnd Hi Hnt Hid Hk)
    as (nc & evs2 & Hsn & Hrq & He & Hf & Hsw & _).
  split.
  - rewrite He, !Forall_app. repeat split; auto.
    + apply List.Forall_cons; [|apply List.Forall_nil]. simpl.
      split; [assumption|]. rewrite Hst, Hsn.
      simpl in Hin. destruct Hin as [<-|[<-|[]]]; reflexivity.
    + eapply Forall_valid_after; eauto.
  - inversion Hsw as [_ -> _|_ -> _]; [|apply NoDup_nil_2].
    eapply NoDup_nt_ids_insert; eauto. unfold call_id_of. now rewrite Hrq.
  - inversion Hsw as [_ -> _|_ -> _]; [|apply List.Forall_nil].
    apply Forall_insert; [assumption|].
    simpl in Hin. destruct Hin as [<-|[<-|[]]].
    + apply terminal_call_ok. unfold is_terminal. now rewrite Hsn.
    + intros _. split; [intros H; now apply elem_of_nil in H|].
      intros _ _. now right.
Qed.

Lemma with_request_status req c : status (with_request req c) = status c.
Proof. now destruct c. Qed.

Lemma with_request_request req c : request (with_request req c) = req.
Proof. now destruct c. Qed.

Lemma update_args_Inv strict i tc payload s :
  Inv strict [] s -> tool_calls s !! i = Some tc ->
  status tc = "awaiting_approval" ->
  let tc' := with_request
               (with_args (update (args (request tc)) payload) (request tc))
               tc in
  Inv strict [] (update_args i tc payload s)
  /\ tool_calls (update_args i tc payload s) !! i = Some tc'
  /\ status tc' = "awaiting_approval" /\ call_id_of tc' = call_id_of tc.
Proof.
  intros [Hev Hnd Hcalls] Hi Hst tc'.
  assert (Hnt : is_terminal tc = false)
    by (eapply status_not_terminal; eauto).
  assert (Hs' : status tc' = "awaiting_approval")
    by (unfold tc'; now rewrite with_request_status).
  assert (Hid' : call_id_of tc' = call_id_of tc)
    by (unfold tc', call_id_of; now rewrite with_request_request).
  repeat split; auto; simpl.
  - eapply NoDup_nt_ids_insert; eauto.
  - apply Forall_insert; [assumption|].
    intros _. split; [intros H; now apply elem_of_nil in H|].
    intros _ _. now left.
  - apply list_lookup_insert_eq. eapply lookup_lt_Some; eauto.
Qed.

Lemma handle_confirmation_response_Boundary strict id outcome payload s :
  Boundary strict s ->
  let r := handle_confirmation_response convert_to_function_response
             time_time abort_during id outcome payload s in
  Boundary (strict && negb (escaped (fst r))) (snd r).
Proof.
  intros HB. unfold handle_confirmation_response.
  destruct (find_awaiting id 0 (tool_calls s)) as [[i tc]|] eqn:Hf.
  2:{ simpl. now rewrite andb_true_r. }
  destruct (find_awaiting_Some _ _ _ _ _ Hf) as (k & -> & Hk & Hid & Hst).
  simpl. apply attempt_execution_Boundary.
  pose proof (Boundary_Inv strict s HB) as HI.
  destruct (String.eqb outcome "cancel" || signal_aborted s).
  - eapply set_status_awaiting_Inv; eauto. simpl. auto.
  - destruct (String.eqb outcome "modify_with_editor" && truthy_payload payload).
    + destruct (update_args_Inv strict k tc (default [] payload) s HI Hk Hst)
        as (HI' & Hk' & Hst' & Hid').
      eapply set_status_awaiting_Inv; eauto; [congruence|simpl; auto].
    + match goal with
      | |- context [if ?b then _ else _] => destruct b
      end; [|exact HI].
      eapply set_status_awaiting_Inv; eauto. simpl. auto.
Qed.

(** *** Runs *)

(** The ids of a batch that [schedule] accepts are new: they are
    pairwise distinct and none is the id of a call of the list that is
    not terminal. *)
Definition fresh_ids (op : Operation) (s : ToolScheduler) : Prop :=
  match op with
  | Schedule requests =>
      _is_running s = false ->
      NoDup (nt_ids (tool_calls s) ++ batch_ids requests)
  | _ => True
  end.

Fixpoint fresh_call_ids (ops : list Operation) (s : ToolScheduler) : Prop :=
  match ops with
  | [] => True
  | op :: rest =>
      fresh_ids op s
      /\ fresh_call_ids rest
           (step convert_to_function_response time_time abort_during op s)
  end.

Lemma perform_Boundary strict op s :
  Boundary strict s -> fresh_ids op s ->
  let r := perform convert_to_function_response time_time abort_during op s in
  Boundary (strict && negb (escaped (fst r))) (snd r).
Proof.
  intros HB Hfresh.
  destruct op as [requests|id outcome payload| |]; simpl.
  - now apply schedule_Boundary.
  - now apply handle_confirmation_response_Boundary.
  - rewrite andb_true_r. destruct HB. now split.
  - rewrite andb_true_r. destruct HB. now split.
Qed.

Lemma Boundary_false strict s : Boundary strict s -> Boundary false s.
Proof. intros [Hev Hnd _]. split; auto. discriminate. Qed.

(** Every run with new ids keeps the assignments valid and the ids of
    the calls that are not terminal distinct. *)
Lemma run_Boundary ops s :
  Boundary false s -> fresh_call_ids ops s ->
  Boundary false (run convert_to_function_response time_time abort_during ops s).
Proof.
  revert s. induction ops as [|op rest IH]; intros s HB Hops; simpl.
  - exact HB.
  - destruct Hops as [Hop Hrest]. apply IH; [|exact Hrest].
    exact (perform_Boundary false op s HB Hop).
Qed.

Lemma strict_fresh op s :
  Boundary true s -> unique_call_ids op -> fresh_ids op s.
Proof.
  intros HB Hu. destruct op as [requests|id outcome payload| |];
    simpl; auto.
  intros Hrun.
  now rewrite (nt_ids_terminal _ (not_running_terminal s HB Hrun)).
Qed.

(** A run in which the ids of each batch are distinct and no operation
    is left by an exception that is not an [Exception] ends with every
    call terminal or awaiting approval. *)
Lemma run_Boundary_strict ops s :
  Boundary true s -> Forall unique_call_ids ops ->
  Forall (fun o => escaped o = false)
         (outcomes convert_to_function_response time_time abort_during ops s) ->
  Boundary true (run convert_to_function_response time_time abort_during ops s).
Proof.
  revert s. induction ops as [|op rest IH]; intros s HB Hops Hout; simpl.
  - exact HB.
  - apply Forall_cons in Hops as [Hop Hrest].
    simpl in Hout. apply Forall_cons in Hout as [Ho Hout].
    apply IH; [|exact Hrest|exact Hout].
    pose proof (perform_Boundary true op s HB (strict_fresh op s HB Hop)) as H.
    cbv zeta in H. now rewrite Ho in H.
Qed.

Lemma set_status_keeps_terminal id st d s i c :
  tool_calls s !! i = Some c -> is_terminal c = true ->
  tool_calls (_set_status id st d s) !! i = Some c
  \/ (tool_calls (_set_status id st d s) = []
      /\ exists l, retired (_set_status id st d s) = retired s ++ [l]
                   /\ l !! i = Some c).
Proof.
  intros Hi Ht.
  destruct (set_status_effect id st d s)
    as (calls1 & evs1 & evs2 & Hl & Hsw & _).
  assert (H1 : calls1 !! i = Some c).
  { inversion Hl as [_ E1 E2|j tc nc Htg _ _ _ E1 E2]; subst; [assumption|].
    destruct (target_Some _ _ _ _ Htg) as (Hj & _ & Hnt).
    rewrite list_lookup_insert_ne; [assumption|].
    intros ->. rewrite Hi in Hj. injection Hj as ->. congruence. }
  inversion Hsw as [_ Hc Hr|_ Hc Hr].
  - left. now rewrite Hc.
  - right. split; [assumption|]. exists calls1. now split.
Qed.

(** *** The two claims about [schedule] and the sweep *)

Lemma is_running_true s :
  _is_running s = true <->
  exists c, c ∈ tool_calls s
            /\ (status c = "executing" \/ status c = "awaiting_approval").
Proof.
  unfold _is_running. rewrite existsb_exists. split.
  - intros (c & Hin & H). exists c. split; [now apply list_elem_of_In|].
    apply str_in_true in H. simpl in H. destruct H as [H|[H|[]]]; auto.
  - intros (c & Hin & H). exists c. split; [now apply list_elem_of_In|].
    apply str_in_true. simpl. destruct H as [H|H]; auto.
Qed.

(** C4.  When a call is executing or awaits approval, [schedule] raises
    and returns the scheduler as it was: the list of calls, the statuses
    and the events (no listener and no completion callback was called)
    are unchanged.  When no call is in one of these two states,
    [schedule] does not raise: it returns, unless a tool lets an
    exception pass that is not an [Exception], which then leaves
    [schedule] as it is. *)
Theorem schedule_fails_fast_when_running
    (requests : list ToolCallRequestInfo) (s : ToolScheduler) :
  ((exists c, c ∈ tool_calls s
              /\ (status c = "executing" \/ status c = "awaiting_approval")) ->
   schedule requests s
   = (Raises "Cannot schedule new tool calls while others are running", s))
  /\ ((forall c, c ∈ tool_calls s ->
                 status c <> "executing" /\ status c <> "awaiting_approval") ->
      (forall e, fst (schedule requests s) <> Raises e)
      /\ (fst (schedule requests s) = Returns tt
          \/ exists e, fst (schedule requests s) = RaisesBase e)).
Proof.
  split.
  - intros H. apply is_running_true in H.
    unfold Scheduler.schedule. now rewrite H.
  - intros H.
    assert (Hcases : fst (schedule requests s) = Returns tt
                     \/ exists e, fst (schedule requests s) = RaisesBase e).
    { unfold Scheduler.schedule.
      destruct (_is_running s) eqn:E.
      { apply is_running_true in E. destruct E as (c & Hin & Hc).
        destruct (H c Hin) as [H1 H2]. tauto. }
      destruct (create_calls time_time _ requests s) as [new s1].
      match goal with
      | |- context [validation_loop time_time new ?x] =>
          destruct (validation_loop_outcome new x) as [Ho|(e & Ho)];
          destruct (validation_loop time_time new x) as [o s2];
          simpl in Ho; subst o
      end.
      - apply execution_loop_outcome.
      - right. now exists e. }
    split; [|exact Hcases].
    intros e E. destruct Hcases as [H'|(e' & H')]; congruence.
Qed.

Lemma sweep_condition_spec calls :
  sweep_condition calls = true <->
  calls <> []
  /\ Forall (fun c => is_terminal c = true) calls
  /\ Forall (fun c => status c <> "awaiting_approval") calls
  /\ Forall (fun c => status c <> "executing") calls.
Proof.
  unfold sweep_condition. rewrite !andb_true_iff, !negb_true_iff.
  rewrite forallb_forall.
  split.
  - intros [[[H1 H2] H3] H4]. repeat split.
    + intros ->. discriminate.
    + apply Forall_forall. intros c Hc. apply H2. now apply list_elem_of_In.
    + apply Forall_forall. intros c Hc E.
      assert (existsb (fun call => String.eqb (status call) "awaiting_approval")
                calls = true); [|congruence].
      apply existsb_exists. exists c. split; [now apply list_elem_of_In|].
      now rewrite E.
    + apply Forall_forall. intros c Hc E.
      assert (existsb (fun call => String.eqb (status call) "executing")
                calls = true); [|congruence].
      apply existsb_exists. exists c. split; [now apply list_elem_of_In|].
      now rewrite E.
  - intros (H1 & H2 & H3 & H4). repeat split.
    + destruct calls; [contradiction|reflexivity].
    + intros c Hc. apply list_elem_of_In in Hc.
      rewrite Forall_forall in H2. now apply H2.
    + apply not_true_iff_false. intros E. apply existsb_exists in E.
      destruct E as (c & Hc & E). apply String.eqb_eq in E.
      apply list_elem_of_In in Hc. rewrite Forall_forall in H3.
      now apply (H3 c).
    + apply not_true_iff_false. intros E. apply existsb_exists in E.
      destruct E as (c & Hc & E). apply String.eqb_eq in E.
      apply list_elem_of_In in Hc. rewrite Forall_forall in H4.
      now apply (H4 c).
Qed.

(** C2.  The sweep changes the list only when it is not empty, all its
    calls are terminal and none awaits approval or executes.  Then (both
    callbacks being given) it rebinds [tool_calls] to an empty list, calls
    [on_all_tools_complete] once with the calls it captured, and then
    notifies the listeners of the empty list.  Otherwise it leaves the
    scheduler as it is.  [_set_status] ends with the sweep. *)
Theorem completion_sweep_clears_only_when_done (s : ToolScheduler) :
  (tool_calls (_check_and_notify_completion s) <> tool_calls s ->
   tool_calls s <> []
   /\ Forall (fun c => is_terminal c = true) (tool_calls s)
   /\ Forall (fun c => status c <> "awaiting_approval") (tool_calls s)
   /\ Forall (fun c => status c <> "executing") (tool_calls s))
  /\ (sweep_condition (tool_calls s) = true ->
      on_all_tools_complete s = true -> on_tool_calls_update s = true ->
      tool_calls (_check_and_notify_completion s) = []
      /\ retired (_check_and_notify_completion s) = retired s ++ [tool_calls s]
      /\ events (_check_and_notify_completion s)
         = events s ++ [AllToolsComplete (tool_calls s); ToolCallsUpdate []])
  /\ (sweep_condition (tool_calls s) = false ->
      _check_and_notify_completion s = s)
  /\ _check_and_notify_completion (_check_and_notify_completion s)
     = _check_and_notify_completion s
  /\ (forall id st d,
        _set_status id st d s
        = _check_and_notify_completion
            (_notify_tool_calls_update
               (set_status_loop id st d 0 (tool_calls s) s))).
Proof.
  split; [|split; [|split; [|split]]].
  - intros H.
    assert (E : sweep_condition (tool_calls s) = true).
    { destruct (sweep_condition (tool_calls s)) eqn:E; [reflexivity|].
      exfalso. apply H. now rewrite sweep_not_fired. }
    now apply sweep_condition_spec in E.
  - intros E Ha Hu. rewrite sweep_fired by assumption. rewrite Ha.
    unfold _notify_tool_calls_update. simpl. rewrite Hu. simpl.
    rewrite <- app_assoc. auto.
  - apply sweep_not_fired.
  - destruct (sweep_condition (tool_calls s)) eqn:E.
    + apply sweep_not_fired.
      destruct (sweep_effect_of s) as (evs & _ & _ & Hsw & _).
      inversion Hsw as [Hc _ _|_ Hc _]; [congruence|]. now rewrite Hc.
    + rewrite (sweep_not_fired s E). apply (sweep_not_fired s E).
  - reflexivity.
Qed.

(** C1, as the code has it.  In every run from a scheduler without
    calls in which the ids of each batch accepted are new (pairwise
    distinct, and none the id of a call of the list that is not
    terminal), each assignment of [_set_status] replaces a call that is
    not terminal by a call whose status is a valid successor of the old
    status; and, whatever the ids, one [_set_status] leaves every
    terminal call as it is, in the list or, when the sweep fires, in the
    list it retires. *)
Theorem status_transitions_follow_edges
    (ops : list Operation) (s0 : ToolScheduler) :
  tool_calls s0 = [] -> events s0 = [] ->
  fresh_call_ids ops s0 ->
  Forall valid_event
    (events (run convert_to_function_response time_time abort_during ops s0))
  /\ (forall s id st d i c,
        tool_calls s !! i = Some c -> is_terminal c = true ->
        tool_calls (_set_status id st d s) !! i = Some c
        \/ (tool_calls (_set_status id st d s) = []
            /\ exists l,
                retired (_set_status id st d s) = retired s ++ [l]
                /\ l !! i = Some c)).
Proof.
  intros Hc He Hops. split.
  - apply run_Boundary; [|assumption].
    split; rewrite ?Hc, ?He; simpl; auto using NoDup_nil_2.
  - intros s id st d i c. apply set_status_keeps_terminal.
Qed.

(** *** Events of the execution loop *)

(** A loop-level induction: [P] is a property of [self.tool_calls] that
    the body re-establishes when it returns, [R] one that holds when
    the body is left by an exception, [Q] a property of the events it
    emits. *)
Lemma execution_loop_emits (Q : Event -> Prop) (P R : list ToolCall -> Prop) :
  P [] ->
  (forall s i tc,
      P (tool_calls s) -> tool_calls s !! i = Some tc ->
      status tc = "scheduled" ->
      let r := execute_scheduled convert_to_function_response time_time
                 abort_during tc s in
      emits Q s (snd r)
      /\ ((exists e, fst r = RaisesBase e /\ R (tool_calls (snd r)))
          \/ (fst r = Returns tt
              /\ exists calls',
                  P calls' /\ sweep_effect calls' (retired s) (snd r)))) ->
  forall s,
    P (tool_calls s) ->
    let r := _attempt_execution_of_scheduled_calls s in
    emits Q s (snd r)
    /\ ((exists e, fst r = RaisesBase e /\ R (tool_calls (snd r)))
        \/ (fst r = Returns tt /\ P (tool_calls (snd r)))).
Proof.
  intros Hnil Hbody s HP.
  unfold Scheduler._attempt_execution_of_scheduled_calls.
  generalize (length (tool_calls s)) as n.
  set (g := length (retired s)).
  assert (Hg : length (retired s) = g
               \/ (g < length (retired s)
                   /\ Forall (fun c => is_terminal c = true)
                             (default [] (retired s !! g)))) by now left.
  clearbody g. generalize 0 as i. intros i n.
  revert i s HP Hg. induction n as [|n IH]; intros i s HP Hg; simpl.
  - split; [apply emits_refl|right; now split].
  - unfold list_object. destruct Hg as [Hg|[Hg Hterm]].
    + rewrite Hg, Nat.eqb_refl.
      destruct (tool_calls s !! i) as [tc|] eqn:Hi;
        [|split; [apply emits_refl|right; now split]].
      destruct (String.eqb (status tc) "scheduled") eqn:Hst;
        [|apply IH; auto].
      apply String.eqb_eq in Hst.
      destruct (Hbody s i tc HP Hi Hst) as (Hem & Hcase).
      destruct (execute_scheduled convert_to_function_response time_time
                  abort_during tc s) as [o s'].
      simpl in Hem, Hcase.
      destruct Hcase as [(e & -> & HR)|(-> & calls' & HP' & Hsw)].
      * simpl. split; [exact Hem|]. left. exists e. now split.
      * assert (H' : let r := execution_loop convert_to_function_response
                                time_time abort_during n g (S i) s' in
                     emits Q s' (snd r)
                     /\ ((exists e, fst r = RaisesBase e
                                    /\ R (tool_calls (snd r)))
                         \/ (fst r = Returns tt /\ P (tool_calls (snd r))))).
        { inversion Hsw as [_ Hc Hr|Hc0 Hc Hr].
          - apply IH; [now rewrite Hc|left; congruence].
          - apply IH; [now rewrite Hc|]. right. rewrite Hr. split.
            + rewrite length_app. simpl. lia.
            + rewrite lookup_app_r by lia. rewrite Hg, Nat.sub_diag. simpl.
              now apply sweep_condition_terminal. }
        destruct H' as [Hem' HP'']. split; [|assumption].
        eapply emits_trans; eauto.
    + destruct (Nat.eqb g (length (retired s))) eqn:E.
      { apply Nat.eqb_eq in E. lia. }
      destruct (default [] (retired s !! g) !! i) as [tc|] eqn:Hi;
        [|split; [apply emits_refl|right; now split]].
      pose proof (Forall_lookup_1 _ _ _ _ Hterm Hi) as Htc. simpl in Htc.
      destruct (String.eqb (status tc) "scheduled") eqn:Hst.
      { apply String.eqb_eq in Hst.
        unfold is_terminal in Htc. now rewrite Hst in Htc. }
      apply IH; auto.
Qed.

(** The events of one run of the body, each with the list it reports. *)
Lemma execute_scheduled_emits (Q : Event -> Prop) s i tc :
  tool_calls s !! i = Some tc -> status tc = "scheduled" ->
  (forall j old nc1,
      status nc1 = "executing" -> j < length (tool_calls s) ->
      Q (Assigned j old nc1)
      /\ Q (ToolCallsUpdate (<[j := nc1]> (tool_calls s)))) ->
  (forall j nc1 nc2,
      status nc1 = "executing" ->
      status nc2 = "success" \/ status nc2 = "error" ->
      j < length (tool_calls s) ->
      Q (Assigned j nc1 nc2)
      /\ Q (ToolCallsUpdate (<[j := nc2]> (tool_calls s)))
      /\ Q (AllToolsComplete (<[j := nc2]> (tool_calls s)))) ->
  Q (ToolCallsUpdate []) ->
  (forall id chunk, Q (OutputUpdate id chunk)) ->
  let r := execute_scheduled convert_to_function_response time_time
             abort_during tc s in
  emits Q s (snd r)
  /\ ((exists e j nc1,
          fst r = RaisesBase e /\ j < length (tool_calls s)
          /\ status nc1 = "executing"
          /\ tool_calls (snd r) = <[j := nc1]> (tool_calls s))
      \/ (fst r = Returns tt
          /\ exists j nc2,
              j < length (tool_calls s) /\ is_terminal nc2 = true
              /\ sweep_effect (<[j := nc2]> (tool_calls s)) (retired s)
                   (snd r))).
Proof.
  intros Hi Hst HQ1 HQ2 Hnil Hout r.
  pose proof (status_scheduled_not_terminal _ Hst) as Hnt.
  destruct (execute_scheduled_effect s i tc Hi Hnt)
    as (j & tcj & nc1 & evsA & outs & Ht & Hs1 & Hr1 & HfA & Hfo & Hcase).
  fold r in Hcase.
  destruct (target_Some _ _ _ _ Ht) as (Hj & _ & _).
  apply lookup_lt_Some in Hj.
  destruct (HQ1 j tcj nc1 Hs1 Hj) as (Q1 & Q3).
  assert (HA : Forall Q evsA).
  { eapply Forall_impl; [exact HfA|].
    intros [l|l| |] H; simpl in H; try contradiction.
    - destruct H as [-> | ->]; assumption.
    - destruct H as [_ H].
      rewrite sweep_condition_insert_nt in H; [discriminate|assumption|].
      eapply status_not_terminal; eauto. }
  assert (HO : Forall Q outs).
  { eapply Forall_impl; [exact Hfo|].
    intros [l|l|id chunk|] H; simpl in H; try contradiction. apply Hout. }
  destruct Hcase
    as [(e & Ho & _ & He & Hc & Hr)
       |(Ho & nc2 & evsB & Hs2 & Hcases & Hr2 & He & HfB & Hsw)].
  - split.
    + exists ([Assigned j tcj nc1] ++ evsA ++ outs).
      split; [assumption|].
      rewrite !Forall_app. repeat split; try assumption.
      apply List.Forall_cons; [assumption|apply List.Forall_nil].
    + left. exists e, j, nc1. auto.
  - assert (Hs2' : status nc2 = "success" \/ status nc2 = "error")
      by (rewrite Hs2; exact Hcases).
    destruct (HQ2 j nc1 nc2 Hs1 Hs2' Hj) as (Q2 & Q4 & Q5).
    split.
    + exists ([Assigned j tcj nc1] ++ evsA ++ outs
                ++ [Assigned j nc1 nc2] ++ evsB).
      split; [assumption|].
      rewrite !Forall_app. repeat split; try assumption.
      * apply List.Forall_cons; [assumption|apply List.Forall_nil].
      * apply List.Forall_cons; [assumption|apply List.Forall_nil].
      * eapply Forall_impl; [exact HfB|].
        intros [l|l| |] H; simpl in H; try contradiction.
        -- destruct H as [-> | ->]; assumption.
        -- destruct H as [-> _]. assumption.
    + right. split; [exact Ho|]. exists j, nc2. repeat split; auto.
      eapply outcome_terminal; eauto.
Qed.


(** C7, as the code has it.  The execution loop never consults the
    signal: whatever the state of the scheduler and of the signal, and
    whether or not the host aborts while a tool runs, every assignment
    made by [_attempt_execution_of_scheduled_calls] gives a call the
    status [executing], [success] or [error], never [cancelled]; and
    the status in which the body leaves the call is given by the
    outcome of [execute] alone: [error] when it raises an [Exception]
    or returns an error, [success] when it returns without one, and
    [executing], with no second assignment, when it is left by an
    exception that is not an [Exception] (a cancellation of the task
    among them), which then leaves the loop. *)
Theorem execution_never_cancels (s : ToolScheduler) :
  emits
    (fun e =>
       match e with
       | Assigned _ _ new => In (status new) ["executing"; "success"; "error"]
       | _ => True
       end)
    s (snd (_attempt_execution_of_scheduled_calls s))
  /\ (forall i tc,
        tool_calls s !! i = Some tc -> status tc = "scheduled" ->
        let r := execute_scheduled convert_to_function_response time_time
                   abort_during tc s in
        let st := outcome_status tc
                    (signal_aborted s || abort_during (call_id_of tc)) in
        exists j old nc1 evs1,
          status nc1 = "executing" /\ st <> "cancelled"
          /\ ((st = "executing" /\ (exists e, fst r = RaisesBase e)
               /\ events (snd r) = events s ++ [Assigned j old nc1] ++ evs1
               /\ tool_calls (snd r) = <[j := nc1]> (tool_calls s))
              \/ ((st = "success" \/ st = "error") /\ fst r = Returns tt
                  /\ exists nc2 evs2,
                      events (snd r)
                      = events s ++ [Assigned j old nc1] ++ evs1
                          ++ [Assigned j nc1 nc2] ++ evs2
                      /\ status nc2 = st))).
Proof.
  split.
  - set (Q := fun e =>
                match e with
                | Assigned _ _ new =>
                    In (status new) ["executing"; "success"; "error"]
                | _ => True
                end).
    apply (execution_loop_emits Q (fun _ => True) (fun _ => True)); auto.
    intros s0 i tc _ Hi Hst r.
    destruct (execute_scheduled_emits Q s0 i tc Hi Hst) as (Hem & Hcase).
    + intros j old nc1 Hs1 Hj. unfold Q. rewrite Hs1. simpl. auto.
    + intros j nc1 nc2 Hs1 Hs2 Hj. unfold Q.
      split; [|split; exact I]. destruct Hs2 as [-> | ->]; simpl; auto.
    + exact I.
    + intros id chunk. exact I.
    + split; [exact Hem|].
      destruct Hcase as [(e & j & nc1 & Ho & _)|(Ho & j & nc2 & _ & _ & Hsw)].
      * left. exists e. now split.
      * right. split; [exact Ho|]. eauto.
  - intros i tc Hi Hst r st.
    pose proof (status_scheduled_not_terminal _ Hst) as Hnt.
    destruct (execute_scheduled_effect s i tc Hi Hnt)
      as (j & tcj & nc1 & evsA & outs & Ht & Hs1 & Hr1 & _ & _ & Hcase).
    fold r st in Hcase.
    exists j, tcj, nc1, (evsA ++ outs).
    split; [exact Hs1|].
    destruct Hcase
      as [(e & Ho & Hst' & He & Hc & _)
         |(Ho & nc2 & evsB & Hs2 & Hcases & _ & He & _)].
    + split; [rewrite Hst'; discriminate|]. left.
      split; [exact Hst'|]. split; [now exists e|].
      split; [exact He|exact Hc].
    + split; [destruct Hcases as [-> | ->]; discriminate|]. right.
      split; [exact Hcases|]. split; [exact Ho|]. exists nc2, evsB.
      split; [rewrite He; now rewrite <- !app_assoc|exact Hs2].
Qed.



(** *** The confirmation handoff *)

Lemma find_awaiting_unique calls off i tc :
  NoDup (nt_ids calls) -> calls !! i = Some tc ->
  status tc = "awaiting_approval" ->
  find_awaiting (call_id_of tc) off calls = Some (off + i, tc).
Proof.
  revert off i. induction calls as [|c rest IH]; intros off i Hnd Hi Hst;
    [discriminate|].
  assert (Hnt : is_terminal tc = false)
    by (eapply status_not_terminal; eauto).
  destruct i as [|i]; simpl in Hi.
  - injection Hi as ->. simpl. fold (call_id_of tc).
    now rewrite String.eqb_refl, Hst, Nat.add_0_r.
  - simpl. fold (call_id_of c).
    destruct (String.eqb (call_id_of c) (call_id_of tc)
              && String.eqb (status c) "awaiting_approval") eqn:E.
    + exfalso. apply andb_true_iff in E as [E1 E2].
      apply String.eqb_eq in E1, E2.
      assert (Hntc : is_terminal c = false)
        by (eapply status_not_terminal; eauto).
      rewrite nt_ids_cons, Hntc in Hnd. apply NoDup_cons in Hnd as [Hn _].
      apply Hn. rewrite E1. eapply elem_of_nt_ids; eauto.
    + rewrite (IH (S off) i); auto.
      * f_equal. f_equal. lia.
      * eapply NoDup_nt_ids_tail; eauto.
Qed.

Lemma set_status_exact id st d s i tc nc s1 :
  target id (tool_calls s) = Some (i, tc) ->
  new_call_for time_time st tc d s = Some (nc, s1) ->
  _set_status id st d s
  = _check_and_notify_completion
      (_notify_tool_calls_update (assign i tc nc s1)).
Proof.
  intros Ht Hn. unfold Scheduler._set_status.
  now rewrite set_status_loop_target, Ht, Hn.
Qed.

Lemma with_request_tool req c : tool (with_request req c) = tool c.
Proof. now destruct c. Qed.

Lemma with_request_start_time req c :
  start_time (with_request req c) = start_time c.
Proof. now destruct c. Qed.

Lemma get_not_in {V} (d : dict V) k : k ∉ map fst d -> get d k = None.
Proof.
  induction d as [|[k0 v0] r IH]; intros Hn; simpl; [reflexivity|].
  destruct (String.eqb k0 k) eqn:E.
  - apply String.eqb_eq in E. subst k0. exfalso. apply Hn. simpl.
    apply list_elem_of_here.
  - apply IH. intros Hin. apply Hn. simpl. now apply list_elem_of_further.
Qed.

(** [args.update(payload)]: the keys of the payload take the values of
    the payload, the other keys keep theirs. *)
Lemma update_get {V} (a p : dict V) k :
  NoDup (map fst p) ->
  get (update a p) k
  = match get p k with Some v => Some v | None => get a k end.
Proof.
  unfold update. revert a. induction p as [|[k0 v0] r IH]; intros a Hnd; simpl.
  - reflexivity.
  - apply NoDup_cons in Hnd as [Hn Hnd]. rewrite IH by assumption.
    destruct (String.eqb k0 k) eqn:E.
    + apply String.eqb_eq in E. subst k0.
      rewrite get_not_in by assumption. apply get_set_eq.
    + destruct (get r k); [reflexivity|]. apply get_set_ne.
      intros ->. now rewrite String.eqb_refl in E.
Qed.

(** C6, as the code has it.  For a call awaiting approval (ids of the
    calls that are not terminal being distinct):
    - [cancel], or an aborted signal, replaces it by a cancelled call
      whose response carries the text of the cancellation;
    - [modify_with_editor] with a payload that is not empty merges the
      payload into the arguments of the request and replaces the call by
      a scheduled one;
    - a proceed outcome replaces it by a scheduled call;
    - [modify_with_editor] without a payload, or with an empty one,
      leaves the call as it is;
    and in each case the execution of the scheduled calls is attempted
    after the listeners were notified and the sweep has run. *)
Theorem confirmation_response_outcomes
    (id outcome : string) (payload : option (dict Json))
    (s : ToolScheduler) (i : nat) (tc : ToolCall) :
  NoDup (nt_ids (tool_calls s)) ->
  tool_calls s !! i = Some tc ->
  status tc = "awaiting_approval" ->
  call_id_of tc = id ->
  let handled :=
    handle_confirmation_response convert_to_function_response time_time
      abort_during id outcome payload s in
  let after_transition old new s1 :=
    _attempt_execution_of_scheduled_calls
      (_check_and_notify_completion
         (_notify_tool_calls_update (assign i old new s1))) in
  (outcome = "cancel" \/ signal_aborted s = true ->
   let d := duration_ms_since time_time (start_time tc) s in
   handled
   = after_transition tc
       (CancelledToolCall (request tc) (tool tc)
          (DResponse (cancel_response id)) (fst d))
       (snd d)
   /\ response_parts (cancel_response id)
      = JObj [("text", JStr "User cancelled the operation")])
  /\ (signal_aborted s = false -> outcome = "modify_with_editor" ->
      forall p, payload = Some p -> p <> [] ->
      let req := with_args (update (args (request tc)) p) (request tc) in
      handled
      = after_transition (with_request req tc)
          (ScheduledToolCall req (tool tc) (start_time tc))
          (update_args i tc p s)
      /\ (NoDup (map fst p) ->
          forall k, get (args req) k
                    = match get p k with
                      | Some v => Some v
                      | None => get (args (request tc)) k
                      end))
  /\ (signal_aborted s = false ->
      In outcome ["proceed_once"; "proceed_always";
                  "proceed_always_server"; "proceed_always_tool"] ->
      handled
      = after_transition tc
          (ScheduledToolCall (request tc) (tool tc) (start_time tc)) s)
  /\ (signal_aborted s = false -> outcome = "modify_with_editor" ->
      payload = None \/ payload = Some [] ->
      handled = _attempt_execution_of_scheduled_calls s).
Proof.
  intros Hnd Hi Hst Hid handled after_transition.
  assert (Hnt : is_terminal tc = false)
    by (eapply status_not_terminal; eauto).
  assert (Hf : find_awaiting id 0 (tool_calls s) = Some (i, tc)).
  { rewrite <- Hid. now rewrite (find_awaiting_unique _ 0 i tc). }
  assert (Ht : target id (tool_calls s) = Some (i, tc)).
  { rewrite <- Hid. now apply target_unique. }
  subst handled after_transition. unfold handle_confirmation_response.
  rewrite Hf. cbv zeta.
  split; [|split; [|split]].
  - intros Hc.
    assert (E : String.eqb outcome "cancel" || signal_aborted s = true).
    { destruct Hc as [-> | ->]; [reflexivity|apply orb_true_r]. }
    rewrite E. split; [|reflexivity]. f_equal.
    apply set_status_exact; [assumption|].
    unfold new_call_for. simpl.
    now destruct (duration_ms_since time_time (start_time tc) s).
  - intros Hs -> p -> Hp. rewrite Hs.
    assert (Etp : truthy_payload (Some p) = true)
      by (destruct p; [contradiction|reflexivity]).
    change (String.eqb "modify_with_editor" "cancel") with false.
    change (String.eqb "modify_with_editor" "modify_with_editor") with true.
    rewrite Etp. cbn [orb andb default]. cbv iota. split.
    + f_equal.
      set (req := with_args (update (args (request tc)) p) (request tc)).
      apply set_status_exact.
      * rewrite <- Hid.
        replace (call_id_of tc) with (call_id_of (with_request req tc))
          by (unfold call_id_of; now rewrite with_request_request).
        apply target_unique.
        -- simpl. eapply NoDup_nt_ids_insert; eauto.
           unfold call_id_of. now rewrite with_request_request.
        -- simpl. apply list_lookup_insert_eq. eapply lookup_lt_Some; eauto.
        -- unfold is_terminal in *. now rewrite with_request_status.
      * unfold new_call_for. simpl.
        now rewrite with_request_request, with_request_tool,
          with_request_start_time.
    + intros Hndp k. simpl. now apply update_get.
  - intros Hs Hin. rewrite Hs.
    assert (E1 : String.eqb outcome "cancel" = false).
    { simpl in Hin. destruct Hin as [<-|[<-|[<-|[<-|[]]]]]; reflexivity. }
    assert (E2 : String.eqb outcome "modify_with_editor" = false).
    { simpl in Hin. destruct Hin as [<-|[<-|[<-|[<-|[]]]]]; reflexivity. }
    rewrite E1, E2. simpl orb. simpl andb. cbv iota.
    apply str_in_true in Hin. rewrite Hin. f_equal.
    now apply set_status_exact.
  - intros Hs -> Hp. rewrite Hs. simpl.
    destruct Hp as [-> | ->]; reflexivity.
Qed.
End WithEnvironment.

(** *** Concrete schedulers *)

(** A converter in the wire shape of the specification. *)
Definition example_converter (name id : string) (result : ToolResult) : Json :=
  mk_function_response id name (JObj [("output", JStr (llm_content result))]).

Definition example_clock (n : nat) : Z := 1700000000 + Z.of_nat n.

Definition never_aborts (id : string) : bool := false.

(** The host aborts the signal while the call [c1] executes. *)
Definition aborts_during_c1 (id : string) : bool := String.eqb id "c1".

(** A tool that needs no confirmation and succeeds. *)
Definition now_tool : Tool :=
  {| tool_name := "now"; description := "current time";
     parameter_schema := None;
     should_confirm_execute := fun _ _ => Returns None;
     execute := fun _ _ =>
       ([], Returns {| summary := None;
                       llm_content := "2024-01-01T00:00:00Z";
                       return_display := None; error := None |}) |}.

(** A tool that asks for confirmation. *)
Definition delete_file_tool : Tool :=
  {| tool_name := "delete_file"; description := "delete a file";
     parameter_schema := None;
     should_confirm_execute := fun _ _ =>
       Returns (Some {| confirmation_type := "exec"; title := "delete" |});
     execute := fun _ _ =>
       ([], Returns {| summary := None; llm_content := "deleted";
                       return_display := None; error := None |}) |}.

(** A tool that honours the signal the way [MCPToolAdapter.execute] does:
    when it sees the signal aborted it returns at once with the error
    ["Execution aborted"]. *)
Definition echo_tool : Tool :=
  {| tool_name := "srv__echo"; description := "echo";
     parameter_schema := None;
     should_confirm_execute := fun _ _ => Returns None;
     execute := fun _ aborted =>
       if aborted then
         ([], Returns {| summary := None;
                         llm_content := "Execution was aborted by user";
                         return_display := None;
                         error := Some "Execution aborted" |})
       else
         ([], Returns {| summary := None; llm_content := "hi";
                         return_display := None; error := None |}) |}.

Definition empty_registry : Registry.ToolRegistry :=
  {| Registry.tools := [];
     Registry._capability_index := ∅;
     Registry._tag_index := ∅ |}.

Definition example_registry : Registry.ToolRegistry :=
  Registry.register_tool echo_tool {[Registry.EXTERNAL]} None 60 None
    (Registry.register_tool delete_file_tool {[Registry.WRITE]} None 50 None
       (Registry.register_tool now_tool {[Registry.READ]} None 50 None
          empty_registry)).

Definition example_scheduler : ToolScheduler :=
  new_scheduler (Some example_registry) empty_registry.

Definition request_of (id name : string) : ToolCallRequestInfo :=
  {| call_id := id; name := name; args := [];
     is_client_initiated := false; prompt_id := "p1" |}.


(** The lists handed to [on_all_tools_complete]. *)
Definition completed_batches (evs : list Event) : list (list ToolCall) :=
  flat_map
    (fun e => match e with AllToolsComplete calls => [calls] | _ => [] end)
    evs.

(** The functionResponse part of a response, as [(id, name)]. *)
Definition function_response_of (parts : Json) : option (string * string) :=
  match parts with
  | JObj fields =>
      match get fields "functionResponse" with
      | Some (JObj fr) =>
          match get fr "id", get fr "name" with
          | Some (JStr id), Some (JStr name) => Some (id, name)
          | _, _ => None
          end
      | _ => None
      end
  | _ => None
  end.

Definition response_function_response (c : ToolCall) : option (string * string) :=
  match response c with
  | DResponse r => function_response_of (response_parts r)
  | _ => None
  end.

Lemma NoDup_two (a b : string) : a <> b -> NoDup [a; b].
Proof.
  intros H. apply NoDup_cons. split.
  - intros Hin. apply list_elem_of_singleton in Hin. contradiction.
  - apply NoDup_singleton.
Defined.

(** A run with a confirmation: [c1] asks, [c2] does not; the host
    approves [c1]. *)
Definition confirmed_run : list Operation :=
  [Schedule [request_of "c1" "delete_file"; request_of "c2" "now"];
   ConfirmationResponse "c1" "proceed_once" None].

Lemma confirmed_run_fresh :
  fresh_call_ids example_converter example_clock never_aborts
    confirmed_run example_scheduler.
Proof.
  split; [|split; exact I].
  intros _. simpl. apply NoDup_two. discriminate.
Defined.

Lemma status_transitions_follow_edges_witness :
  tool_calls example_scheduler = []
  /\ events example_scheduler = []
  /\ fresh_call_ids example_converter example_clock never_aborts
       confirmed_run example_scheduler
  /\ Forall valid_event
       (events (run example_converter example_clock never_aborts
                  confirmed_run example_scheduler)).
Proof.
  split; [reflexivity|]. split; [reflexivity|].
  split; [exact confirmed_run_fresh|].
  exact (proj1 (status_transitions_follow_edges example_converter
                  example_clock never_aborts confirmed_run example_scheduler
                  eq_refl eq_refl confirmed_run_fresh)).
Defined.

(** C1, the case the claim gets wrong: a batch in which two requests
    carry the same call id.  [_set_status] finds a call by its id, so
    the validation of the second request reaches the first call again,
    which is already scheduled, and assigns it a scheduled call once
    more, a transition that is no edge of the diagram; the second call
    is never validated and stays in the list when the first has
    succeeded. *)
Lemma duplicate_call_ids_leave_the_edges :
  let s' := run example_converter example_clock never_aborts
              [Schedule [request_of "c1" "now"; request_of "c1" "now"]]
              example_scheduler in
  ~ Forall valid_event (events s')
  /\ (exists old new,
         events s' !! 3 = Some (Assigned 0 old new)
         /\ status old = "scheduled" /\ status new = "scheduled"
         /\ valid_transition (status old) (status new) = false)
  /\ map status (tool_calls s') = ["success"; "validating"].
Proof.
  assert (H : exists old new,
             events (run example_converter example_clock never_aborts
                       [Schedule [request_of "c1" "now";
                                  request_of "c1" "now"]]
                       example_scheduler) !! 3
             = Some (Assigned 0 old new)
             /\ status old = "scheduled" /\ status new = "scheduled"
             /\ valid_transition (status old) (status new) = false).
  { eexists _, _. split; [vm_compute; reflexivity|].
    split; [reflexivity|]. split; reflexivity. }
  cbv zeta. split; [|split; [exact H|vm_compute; reflexivity]].
  intros Hall. destruct H as (old & new & Hl & _ & _ & Hv).
  pose proof (Forall_lookup_1 _ _ _ _ Hall Hl) as [_ Hedge].
  congruence.
Qed.


(** A scheduler in which [c1] awaits approval. *)
Definition waiting_call : ToolCall :=
  WaitingToolCall (request_of "c1" "delete_file") (Some delete_file_tool)
    (DConfirmation {| confirmation_type := "exec"; title := "delete" |})
    (Some 1700000000%Z).

Definition waiting_scheduler : ToolScheduler :=
  with_tool_calls [waiting_call] example_scheduler.

Lemma waiting_scheduler_reached :
  tool_calls (snd (schedule example_converter example_clock never_aborts
                     [request_of "c1" "delete_file"] example_scheduler))
  = [waiting_call].
Proof. vm_compute. reflexivity. Qed.

Lemma schedule_fails_fast_when_running_witness :
  (exists c, c ∈ tool_calls waiting_scheduler
             /\ (status c = "executing" \/ status c = "awaiting_approval"))
  /\ schedule example_converter example_clock never_aborts
       [request_of "c2" "now"] waiting_scheduler
     = (Raises "Cannot schedule new tool calls while others are running",
        waiting_scheduler).
Proof.
  assert (H : exists c, c ∈ tool_calls waiting_scheduler
                        /\ (status c = "executing"
                            \/ status c = "awaiting_approval")).
  { exists waiting_call. split; [apply list_elem_of_here|now right]. }
  split; [exact H|].
  exact (proj1 (schedule_fails_fast_when_running example_converter
                  example_clock never_aborts [request_of "c2" "now"]
                  waiting_scheduler) H).
Defined.

(** A scheduler whose only call is terminal, before the sweep. *)
Definition finished_call : ToolCall :=
  SuccessfulToolCall (request_of "c2" "now") (Some now_tool) DNone 0.

Definition finished_scheduler : ToolScheduler :=
  with_tool_calls [finished_call] example_scheduler.

Lemma completion_sweep_clears_only_when_done_witness :
  sweep_condition (tool_calls finished_scheduler) = true
  /\ on_all_tools_complete finished_scheduler = true
  /\ on_tool_calls_update finished_scheduler = true
  /\ tool_calls (_check_and_notify_completion finished_scheduler) = []
  /\ events (_check_and_notify_completion finished_scheduler)
     = [AllToolsComplete [finished_call]; ToolCallsUpdate []]
  /\ sweep_condition (tool_calls waiting_scheduler) = false
  /\ _check_and_notify_completion waiting_scheduler = waiting_scheduler.
Proof.
  pose proof (completion_sweep_clears_only_when_done example_clock
                finished_scheduler) as (_ & H & _).
  pose proof (completion_sweep_clears_only_when_done example_clock
                waiting_scheduler) as (_ & _ & H' & _).
  destruct (H eq_refl eq_refl eq_refl) as (H1 & _ & H3).
  repeat split; auto.
Defined.

Lemma confirmation_response_outcomes_witness :
  NoDup (nt_ids (tool_calls waiting_scheduler))
  /\ tool_calls waiting_scheduler !! 0 = Some waiting_call
  /\ status waiting_call = "awaiting_approval"
  /\ call_id_of waiting_call = "c1"
  /\ handle_confirmation_response example_converter example_clock
       never_aborts "c1" "proceed_once" None waiting_scheduler
     = _attempt_execution_of_scheduled_calls example_converter example_clock
         never_aborts
         (_check_and_notify_completion
            (_notify_tool_calls_update
               (assign 0 waiting_call
                  (ScheduledToolCall (request waiting_call)
                     (tool waiting_call) (start_time waiting_call))
                  waiting_scheduler))).
Proof.
  assert (H1 : NoDup (nt_ids (tool_calls waiting_scheduler)))
    by apply NoDup_singleton.
  split; [exact H1|]. split; [reflexivity|]. split; [reflexivity|].
  split; [reflexivity|].
  refine (proj1 (proj2 (proj2
            (confirmation_response_outcomes example_converter example_clock
               never_aborts "c1" "proceed_once" None waiting_scheduler 0
               waiting_call H1 eq_refl eq_refl eq_refl))) eq_refl _).
  simpl. auto.
Defined.

(** C6, the case the claim gets wrong: the payload is given and empty.
    The handler makes no transition: the call still awaits approval and
    no event is emitted. *)
Lemma empty_payload_is_ignored :
  let s' := snd (handle_confirmation_response example_converter example_clock
                   never_aborts "c1" "modify_with_editor" (Some [])
                   waiting_scheduler) in
  map status (tool_calls s') = ["awaiting_approval"]
  /\ events s' = events waiting_scheduler.
Proof. vm_compute. split; reflexivity. Qed.

(** C7, the case the claim gets wrong: the host aborts the signal while
    [c1] executes and the tool returns at once; the call ends in
    [error], not in [cancelled]. *)
Lemma abort_during_execution_ends_in_error :
  let s' := snd (schedule example_converter example_clock aborts_during_c1
                   [request_of "c1" "srv__echo"] example_scheduler) in
  signal_aborted s' = true
  /\ map (map status) (completed_batches (events s')) = [["error"]]
  /\ ~ In "cancelled" (flat_map (map status) (completed_batches (events s'))).
Proof.
  vm_compute. split; [reflexivity|]. split; [reflexivity|].
  intros [H|[]]. discriminate.
Qed.

(** A tool whose [execute] is cancelled with the task that awaits it:
    [asyncio.CancelledError] is not an [Exception]. *)
Definition cancelled_tool : Tool :=
  {| tool_name := "slow"; description := "a long query";
     parameter_schema := None;
     should_confirm_execute := fun _ _ => Returns None;
     execute := fun _ _ => ([], RaisesBase "CancelledError") |}.

Definition slow_registry : Registry.ToolRegistry :=
  Registry.register_tool cancelled_tool {[Registry.QUERY]} None 50 None
    example_registry.

(** The exception leaves [schedule]; the call is left [executing], no
    completion is reported, and the scheduler refuses the next batch. *)
Lemma cancelled_task_leaves_call_executing :
  let s0 := new_scheduler (Some slow_registry) empty_registry in
  let r := schedule example_converter example_clock never_aborts
             [request_of "c1" "slow"; request_of "c2" "now"] s0 in
  fst r = RaisesBase "CancelledError"
  /\ map status (tool_calls (snd r)) = ["executing"; "scheduled"]
  /\ completed_batches (events (snd r)) = []
  /\ fst (schedule example_converter example_clock never_aborts
            [request_of "c3" "now"] (snd r))
     = Raises "Cannot schedule new tool calls while others are running".
Proof. vm_compute. repeat split; reflexivity. Qed.




(** The error responses built by the scheduler carry a functionResponse
    part with the id and the name of the request. *)
Lemma error_response_function_response req message e :
  function_response_of (response_parts (error_response req message e))
  = Some (call_id req, name req).
Proof. reflexivity. Qed.

(** C3, at the failing input: [c1] is cancelled through
    [handle_confirmation_response]; the response of the completed call
    is the text part and holds no functionResponse part. *)
Theorem cancelled_call_has_no_function_response :
  let s' := run example_converter example_clock never_aborts
              [Schedule [request_of "c1" "delete_file"];
               ConfirmationResponse "c1" "cancel" None]
              example_scheduler in
  map (map status) (completed_batches (events s')) = [["cancelled"]]
  /\ map (map response) (completed_batches (events s'))
     = [[DResponse (cancel_response "c1")]]
  /\ map (map response_function_response) (completed_batches (events s'))
     = [[None]]
  /\ function_response_of (response_parts (cancel_response "c1")) = None.
Proof. vm_compute. repeat split; reflexivity. Qed.

(** C5, at the failing input: a batch whose only request names a tool
    that is not in the registry.  The call is created in [error] with
    duration 0 and the "not found" functionResponse, but no
    [_set_status] runs, so the sweep never runs: the call stays in
    [tool_calls] and [on_all_tools_complete] is not called. *)
Theorem batch_of_unknown_tools_never_completes :
  let req := request_of "c1" "missing" in
  let s' := snd (schedule example_converter example_clock never_aborts
                   [req] example_scheduler) in
  tool_calls s'
  = [ErroredToolCall req
       (DResponse
          {| response_call_id := "c1";
             response_parts :=
               mk_function_response "c1" "missing"
                 (JObj [("error",
                         JStr "Tool 'missing' not found in registry")]);
             result_display := None;
             response_error := Some "Tool 'missing' not found in registry" |})
       0]
  /\ completed_batches (events s') = []
  /\ events s' = [ToolCallsUpdate (tool_calls s')].
Proof. vm_compute. repeat split; reflexivity. Qed.

(** In a batch that also holds a known tool the unknown one is reported
    with the others when the batch completes. *)
Lemma mixed_batch_completes :
  let s' := snd (schedule example_converter example_clock never_aborts
                   [request_of "c1" "missing"; request_of "c2" "now"]
                   example_scheduler) in
  tool_calls s' = []
  /\ map (map (fun c => (call_id_of c, status c)))
         (completed_batches (events s'))
     = [[("c1", "error"); ("c2", "success")]].
Proof. vm_compute. split; reflexivity. Qed.

End SchedulerFacts.

(** * Properties of the registry *)

Module RegistryFacts.
Import Py ToolTypes Registry.

(** The registry before any registration. *)
Definition registry_before : ToolRegistry :=
  {| tools := []; _capability_index := ∅; _tag_index := ∅ |}.

Definition echo_adapter : MCPToolAdapter :=
  {| adapter_tool :=
       {| tool_name := "srv__echo"; description := "echo";
          parameter_schema := None;
          should_confirm_execute := fun _ _ => Returns None;
          execute := fun _ _ =>
            ([], Returns {| summary := None; llm_content := "hi";
                            return_display := None; error := None |}) |};
     server_name := "srv";
     original_name := "echo" |}.

(** The MCP registry and the tool registry after the discovery of the tool
    [echo] of the server [srv]. *)
Definition after_registration : MCPRegistry * ToolRegistry :=
  register_discovered_tool echo_adapter ∅
    ({| registered_tools := [] |}, registry_before).

Lemma unregister_one_keeps_registry name st :
  snd (unregister_one name st) = snd st.
Proof. now destruct st. Qed.

Lemma unregister_loop_keeps_registry names st :
  snd (fold_left (fun st tool_name => unregister_one tool_name st) names st)
  = snd st.
Proof.
  revert st. induction names as [|n rest IH]; intros st; simpl; [reflexivity|].
  rewrite IH. apply unregister_one_keeps_registry.
Qed.

Lemma unregister_loop_registered names st :
  registered_tools
    (fst (fold_left (fun st tool_name => unregister_one tool_name st) names st))
  = fold_left del names (registered_tools (fst st)).
Proof.
  revert st. induction names as [|n rest IH]; intros [self reg]; simpl;
    [reflexivity|].
  now rewrite IH.
Qed.

Lemma del_all_keys {V} (names : list string) (d : dict V) :
  (forall kv, In kv d -> In (fst kv) names) -> fold_left del names d = [].
Proof.
  revert d. induction names as [|n rest IH]; intros d H; simpl.
  - destruct d as [|kv d]; [reflexivity|]. destruct (H kv). now left.
  - apply IH. intros kv Hin. unfold del in Hin. apply filter_In in Hin.
    destruct Hin as [Hin Hne]. destruct (H kv Hin) as [E|Hr]; [|assumption].
    rewrite <- E, String.eqb_refl in Hne. discriminate.
Qed.

(** C9, as the code has it.  [ToolRegistry] has no [unregister_tool]:
    [_unregister_all_tools] and [remove_server] find [hasattr] false and
    only forget the tools in the MCP registry's own table.  The three
    indices of the tool registry are left as they are. *)
Theorem unregister_all_tools_keeps_registry
    (self : MCPRegistry) (tool_registry : ToolRegistry) :
  hasattr_unregister_tool = false
  /\ snd (_unregister_all_tools self tool_registry) = tool_registry
  /\ registered_tools (fst (_unregister_all_tools self tool_registry)) = []
  /\ (forall name,
        snd (remove_server_tools name self tool_registry) = tool_registry).
Proof.
  split; [reflexivity|]. split; [|split].
  - unfold _unregister_all_tools. now rewrite unregister_loop_keeps_registry.
  - unfold _unregister_all_tools. rewrite unregister_loop_registered. simpl.
    apply del_all_keys. intros kv Hin. now apply in_map.
  - intros name. unfold remove_server_tools.
    now rewrite unregister_loop_keeps_registry.
Qed.

(** C9, the case the claim gets wrong: a tool is registered and all MCP
    tools are unregistered; the registry still holds the tool in its name
    index, in the capability index and in the tag index, and so differs
    from the registry before the registration. *)
Lemma register_then_unregister_changes_registry :
  let before := registry_before in
  let st := _unregister_all_tools (fst after_registration)
              (snd after_registration) in
  map fst (tools (snd st)) = ["srv__echo"]
  /\ (exists t, get_tool "srv__echo" (snd st) = Some t)
  /\ get_tool "srv__echo" before = None
  /\ _capability_index (snd st) !! EXTERNAL = Some {["srv__echo"]}
  /\ _capability_index before !! EXTERNAL = None
  /\ _tag_index (snd st) !! "mcp" = Some {["srv__echo"]}
  /\ _tag_index before !! "mcp" = None
  /\ snd st <> before.
Proof.
  cbv zeta. unfold _unregister_all_tools.
  rewrite unregister_loop_keeps_registry.
  split; [reflexivity|]. split; [eexists; reflexivity|].
  split; [reflexivity|].
  split; [vm_compute; reflexivity|]. split; [reflexivity|].
  split; [vm_compute; reflexivity|]. split; [reflexivity|].
  intros E. apply (f_equal tools) in E. discriminate.
Qed.

End RegistryFacts.

(** * Properties of the sanitizer *)

Module SanitizerFacts.
Import Py Sanitizer.

Definition is_unsupported (key : string) : bool :=
  existsb (String.eqb key) unsupported_fields.

(** The keys through which the recursion descends. *)
Definition list_keys : list string := ["anyOf"; "oneOf"; "allOf"].

(** [child heap x c]: the dictionary at [c] is a sub-schema of the
    dictionary at [x], reached through ['properties'], ['items'],
    ['anyOf'], ['oneOf'] or ['allOf']. *)
Definition child (heap : Heap) (x c : nat) : Prop :=
  exists dx,
    heap !! x = Some dx /\ c < length heap
    /\ ((exists p props k,
            get dx "properties" = Some (VDict p)
            /\ heap !! p = Some props /\ In (k, VDict c) props)
        \/ get dx "items" = Some (VDict c)
        \/ (exists key items,
               In key list_keys /\ get dx key = Some (VList items)
               /\ In (VDict c) items)).

(** The sub-schemas nested in [x], at any depth. *)
Inductive nested (heap : Heap) (x : nat) : nat -> Prop :=
| nested_child c : child heap x c -> nested heap x c
| nested_step y c : nested heap x y -> child heap y c -> nested heap x c.

(** [post st st']: from [st] to [st'] the visited set grew, every
    dictionary visited in between was cleaned in place and no other
    dictionary changed. *)
Definition post (st st' : State) : Prop :=
  st.2 ⊆ st'.2
  /\ length st'.1 = length st.1
  /\ (forall x, x ∉ st'.2 \/ x ∈ st.2 -> st'.1 !! x = st.1 !! x)
  /\ (forall x, x ∈ st'.2 -> x ∉ st.2 ->
                x < length st.1
                /\ st'.1 !! x = clean_fields <$> (st.1 !! x)).

(** [closed st st']: the sub-schemas of the dictionaries visited from
    [st] to [st'] are visited in [st']. *)
Definition closed (st st' : State) : Prop :=
  forall x, x ∈ st'.2 -> x ∉ st.2 ->
            forall c, child st'.1 x c -> c ∈ st'.2.

Definition good (st st' : State) : Prop := post st st' /\ closed st st'.

(** What the loops assume of the recursive call. *)
Definition rec_ok (rec : nat -> State -> Run State) : Prop :=
  forall l st st',
    is_Some (st.1 !! l) -> rec l st = Finished st' ->
    good st st' /\ l ∈ st'.2.

(** *** Fields after [clean_fields] *)

Lemma get_fold_del (fs : list string) (d : Object) (key : string) :
  get (fold_left (fun d f => if contains d f then del d f else d) fs d) key
  = if existsb (String.eqb key) fs then None else get d key.
Proof.
  revert d. induction fs as [|f rest IH]; intros d; simpl; [reflexivity|].
  rewrite IH. destruct (existsb (String.eqb key) rest).
  - now rewrite orb_true_r.
  - rewrite orb_false_r. unfold contains.
    destruct (String.eqb key f) eqn:E.
    + apply String.eqb_eq in E. subst f.
      destruct (get d key) eqn:G; [apply get_del_eq|assumption].
    + assert (f <> key) by (intros ->; now rewrite String.eqb_refl in E).
      destruct (get d f); [now apply get_del_ne|reflexivity].
Qed.

Lemma get_delete_unsupported d key :
  get (delete_unsupported d) key
  = if is_unsupported key then None else get d key.
Proof. apply get_fold_del. Qed.

Lemma get_clean_format d key :
  key <> "format" -> get (clean_format d) key = get d key.
Proof.
  intros Hne. unfold clean_format.
  destruct (is_str (get d "type") "string" && contains d "format");
    [|reflexivity].
  destruct (negb _); [|reflexivity]. apply get_del_ne. congruence.
Qed.

Lemma get_clean_fields_unsupported d f :
  In f unsupported_fields -> get (clean_fields d) f = None.
Proof.
  intros Hin. unfold clean_fields.
  assert (Hu : is_unsupported f = true).
  { unfold is_unsupported. apply existsb_exists. exists f.
    split; [assumption|apply String.eqb_refl]. }
  assert (Hne : f <> "format").
  { intros ->. discriminate. }
  rewrite get_clean_format by assumption.
  now rewrite get_delete_unsupported, Hu.
Qed.

Lemma get_clean_fields_kept d key :
  is_unsupported key = false -> key <> "format" ->
  get (clean_fields d) key = get d key.
Proof.
  intros Hu Hne. unfold clean_fields.
  rewrite get_clean_format by assumption.
  now rewrite get_delete_unsupported, Hu.
Qed.

Lemma in_fold_del (fs : list string) (d : Object) kv :
  In kv (fold_left (fun d f => if contains d f then del d f else d) fs d) ->
  In kv d.
Proof.
  revert d. induction fs as [|f rest IH]; intros d; simpl; [trivial|].
  intros H. apply IH in H. destruct (contains d f); [|assumption].
  eapply in_del; eauto.
Qed.

Lemma in_clean_fields d kv : In kv (clean_fields d) -> In kv d.
Proof.
  unfold clean_fields, clean_format, delete_unsupported. intros H.
  apply (in_fold_del unsupported_fields).
  destruct (is_str _ "string" && contains _ "format"); [|assumption].
  destruct (negb _); [|assumption]. eapply in_del; eauto.
Qed.

(** *** The relations compose *)

Lemma post_refl st : post st st.
Proof.
  split; [reflexivity|]. split; [reflexivity|]. split; [auto|].
  intros x H1 H2. contradiction.
Qed.

Lemma post_trans st1 st2 st3 : post st1 st2 -> post st2 st3 -> post st1 st3.
Proof.
  intros (S1 & L1 & U1 & K1) (S2 & L2 & U2 & K2).
  split; [clear - S1 S2; set_solver|]. split; [congruence|]. split.
  - intros x Hx. rewrite U2, U1; auto.
    + destruct Hx as [Hx|Hx]; [left|right]; clear - S1 S2 Hx; set_solver.
    + destruct Hx as [Hx|Hx]; [left|right]; clear - S1 S2 Hx; set_solver.
  - intros x H3 H1. destruct (decide (x ∈ st2.2)) as [H2|H2].
    + destruct (K1 x H2 H1) as [Hl E]. split; [assumption|].
      rewrite U2 by auto. exact E.
    + destruct (K2 x H3 H2) as [Hl E]. split; [congruence|].
      rewrite E, U1 by auto. reflexivity.
Qed.

Lemma post_lookup st1 st2 x :
  post st1 st2 ->
  st2.1 !! x = st1.1 !! x \/ st2.1 !! x = clean_fields <$> (st1.1 !! x).
Proof.
  intros (S1 & L1 & U1 & K1).
  destruct (decide (x ∈ st2.2)) as [H2|H2]; [|left; auto].
  destruct (decide (x ∈ st1.2)) as [H1|H1]; [left; auto|].
  right. now apply K1.
Qed.

Lemma child_mono st1 st2 x c :
  post st1 st2 -> x ∈ st1.2 -> child st2.1 x c -> child st1.1 x c.
Proof.
  intros HP Hx (dx & Hdx & Hc & Hcases).
  pose proof HP as (S1 & L1 & U1 & K1).
  exists dx. split; [rewrite <- U1; auto|]. split; [congruence|].
  destruct Hcases as [(p & props & k & Hg & Hp & Hin)|[Hi|Hl]]; auto.
  left. destruct (post_lookup st1 st2 p HP) as [E|E]. all: rewrite Hp in E.
  - exists p, props, k. auto.
  - destruct (st1.1 !! p) as [props1|] eqn:Hp1; [|discriminate].
    injection E as ->. exists p, props1, k. repeat split; auto.
    eapply in_clean_fields; eauto.
Qed.

Lemma good_refl st : good st st.
Proof.
  split; [apply post_refl|]. intros x H1 H2. contradiction.
Qed.

Lemma good_trans st1 st2 st3 : good st1 st2 -> good st2 st3 -> good st1 st3.
Proof.
  intros [P1 K1] [P2 K2]. split; [eapply post_trans; eauto|].
  intros x H3 H1 c Hc. destruct (decide (x ∈ st2.2)) as [H2|H2].
  - pose proof P2 as (S2 & _). apply S2. apply (K1 x H2 H1).
    eapply child_mono; eauto.
  - now apply (K2 x H3 H2).
Qed.

(** *** The loops and the recursion *)

Lemma bind_Finished {A B} (r : Run A) (k : A -> Run B) b :
  bind r k = Finished b -> exists a, r = Finished a /\ k a = Finished b.
Proof. destruct r as [a| |]; simpl; [eauto|discriminate|discriminate]. Qed.

Lemma post_is_Some st st' c :
  post st st' -> is_Some (st.1 !! c) -> is_Some (st'.1 !! c).
Proof.
  intros (_ & L & _) H. apply lookup_lt_is_Some in H.
  apply lookup_lt_is_Some. congruence.
Qed.

Lemma post_subseteq st st' c : post st st' -> c ∈ st.2 -> c ∈ st'.2.
Proof. intros (S & _) H. now apply S. Qed.

Lemma visit_if_dict_ok rec v st st' :
  rec_ok rec -> visit_if_dict rec v st = Finished st' ->
  good st st'
  /\ forall c, v = VDict c -> is_Some (st.1 !! c) -> c ∈ st'.2.
Proof.
  intros Hrec. unfold visit_if_dict.
  destruct v as [| | | | |c];
    try (intros [= <-]; split; [apply good_refl|discriminate]).
  destruct (st.1 !! c) as [dc|] eqn:Hc.
  - intros H. destruct (Hrec c st st') as [Hg Hin]; [now rewrite Hc|exact H|].
    split; [assumption|]. now intros c' [= <-] _.
  - intros [= <-]. split; [apply good_refl|].
    intros c' [= <-] [dc Hdc]. congruence.
Qed.

Lemma for_list_ok rec items st st' :
  rec_ok rec -> for_list rec items st = Finished st' ->
  good st st'
  /\ forall c, In (VDict c) items -> is_Some (st.1 !! c) -> c ∈ st'.2.
Proof.
  intros Hrec. revert st. induction items as [|item rest IH]; intros st; simpl.
  - intros [= <-]. split; [apply good_refl|]. intros c [].
  - intros H. apply bind_Finished in H as (st1 & H1 & H2).
    destruct (visit_if_dict_ok _ _ _ _ Hrec H1) as [G1 V1].
    destruct (IH _ H2) as [G2 V2].
    split; [eapply good_trans; eauto|].
    intros c [->|Hin] Hs.
    + eapply post_subseteq; [apply G2|]. now apply V1.
    + apply V2; [assumption|]. eapply post_is_Some; [apply G1|assumption].
Qed.

Lemma for_items_ok rec p size0 pending st st' :
  rec_ok rec -> for_items rec p size0 pending st = Finished st' ->
  good st st'
  /\ forall k c, In (k, VDict c) pending -> is_Some (st.1 !! c) -> c ∈ st'.2.
Proof.
  intros Hrec. revert st.
  induction pending as [|[k0 v0] rest IH]; intros st; simpl.
  - destruct (negb _); [discriminate|].
    intros [= <-]. split; [apply good_refl|]. intros k c [].
  - destruct (negb _); [discriminate|].
    intros H. apply bind_Finished in H as (st1 & H1 & H2).
    destruct (visit_if_dict_ok _ _ _ _ Hrec H1) as [G1 V1].
    destruct (IH _ H2) as [G2 V2].
    split; [eapply good_trans; eauto|].
    intros k c [[= -> ->]|Hin] Hs.
    + eapply post_subseteq; [apply G2|]. now apply V1.
    + apply (V2 k); [assumption|].
      eapply post_is_Some; [apply G1|assumption].
Qed.

Lemma recurse_properties_ok rec l st st' :
  rec_ok rec -> recurse_properties rec l st = Finished st' ->
  good st st'
  /\ forall p props k c,
      field st l "properties" = Some (VDict p) ->
      st.1 !! p = Some props -> In (k, VDict c) props ->
      is_Some (st.1 !! c) -> c ∈ st'.2.
Proof.
  intros Hrec. unfold recurse_properties.
  destruct (field st l "properties") as [[| | | | |p]|];
    try (intros [= <-]; split; [apply good_refl|discriminate]).
  destruct (st.1 !! p) as [props|] eqn:Hp.
  - intros H. destruct (for_items_ok _ _ _ _ _ _ Hrec H) as [G V].
    split; [assumption|].
    intros p' props' k c [= <-] Hp'. rewrite Hp in Hp'.
    injection Hp' as <-. apply V.
  - intros [= <-]. split; [apply good_refl|].
    intros p' props' k c [= <-] Hp'. congruence.
Qed.

Lemma recurse_items_ok rec l st st' :
  rec_ok rec -> recurse_items rec l st = Finished st' ->
  good st st'
  /\ forall c, field st l "items" = Some (VDict c) ->
               is_Some (st.1 !! c) -> c ∈ st'.2.
Proof.
  intros Hrec. unfold recurse_items.
  destruct (field st l "items") as [v|].
  - intros H. destruct (visit_if_dict_ok _ _ _ _ Hrec H) as [G V].
    split; [assumption|]. intros c [= ->]. now apply V.
  - intros [= <-]. split; [apply good_refl|discriminate].
Qed.

Lemma recurse_list_ok rec key l st st' :
  rec_ok rec -> recurse_list rec key l st = Finished st' ->
  good st st'
  /\ forall items c,
      field st l key = Some (VList items) -> In (VDict c) items ->
      is_Some (st.1 !! c) -> c ∈ st'.2.
Proof.
  intros Hrec. unfold recurse_list.
  destruct (field st l key) as [[| | | |items|]|];
    try (intros [= <-]; split; [apply good_refl|discriminate]).
  intros H. destruct (for_list_ok _ _ _ _ Hrec H) as [G V].
  split; [assumption|]. intros items' c [= <-]. apply V.
Qed.

(** A visited dictionary keeps the fields it had when its visit began. *)
Lemma field_stable st st' l key :
  post st st' -> l ∈ st.2 -> field st' l key = field st l key.
Proof.
  intros (_ & _ & U & _) Hl. unfold field. rewrite U by auto. reflexivity.
Qed.

(** One visit of a dictionary not visited before: [st1] is the state
    right after its own fields were cleaned. *)
Lemma sanitize_recursive_step fuel l (h : Heap) (vis : gset nat) st' d :
  rec_ok (_sanitize_parameters_recursive fuel) ->
  l ∉ vis -> h !! l = Some d ->
  _sanitize_parameters_recursive (S fuel) l (h, vis) = Finished st' ->
  let st1 : State := (<[l := clean_fields d]> h, {[l]} ∪ vis) in
  post (h, vis) st1 /\ good st1 st'
  /\ forall c, child st1.1 l c -> c ∈ st'.2.
Proof.
  intros IH Hnin Hd. simpl.
  destruct (decide (l ∈ vis)) as [Hin|_]; [contradiction|]. rewrite Hd.
  set (st1 := (<[l := clean_fields d]> h, {[l]} ∪ vis)).
  intros H.
  apply bind_Finished in H as (st2 & H2 & H).
  apply bind_Finished in H as (st3 & H3 & H).
  apply bind_Finished in H as (st4 & H4 & H).
  apply bind_Finished in H as (st5 & H5 & H6).
  destruct (recurse_properties_ok _ _ _ _ IH H2) as [G2 V2].
  destruct (recurse_items_ok _ _ _ _ IH H3) as [G3 V3].
  destruct (recurse_list_ok _ _ _ _ _ IH H4) as [G4 V4].
  destruct (recurse_list_ok _ _ _ _ _ IH H5) as [G5 V5].
  destruct (recurse_list_ok _ _ _ _ _ IH H6) as [G6 V6].
  assert (Hl : l < length h) by (eapply lookup_lt_Some; eauto).
  assert (P01 : post (h, vis) st1).
  { split; [simpl; apply union_subseteq_r|].
    split; [simpl; apply length_insert|]. split.
    - intros x Hx. simpl in *. apply list_lookup_insert_ne.
      intros ->. destruct Hx as [Hx|Hx]; [|contradiction].
      apply Hx. apply elem_of_union_l. now apply elem_of_singleton.
    - intros x Hx Hnx. simpl in *.
      apply elem_of_union in Hx as [Hx|Hx]; [|contradiction].
      apply elem_of_singleton in Hx. subst x. split; [assumption|].
      rewrite list_lookup_insert_eq by assumption. now rewrite Hd. }
  assert (Hl1 : l ∈ st1.2).
  { simpl. apply elem_of_union_l. now apply elem_of_singleton. }
  assert (G13 : good st1 st3) by (eapply good_trans; eauto).
  assert (G14 : good st1 st4) by (eapply good_trans; eauto).
  assert (G15 : good st1 st5) by (eapply good_trans; eauto).
  assert (G16 : good st1 st') by (eapply good_trans; eauto).
  assert (F1 : forall key, field st1 l key = get (clean_fields d) key).
  { intros key. unfold field. simpl.
    now rewrite list_lookup_insert_eq by assumption. }
  split; [exact P01|]. split; [exact G16|].
  intros c (dx & Hdx & Hclt & Hcases).
  assert (Hdx' : dx = clean_fields d).
  { simpl in Hdx. rewrite list_lookup_insert_eq in Hdx by assumption.
    congruence. }
  subst dx.
  assert (Hlen : forall st, post st1 st -> is_Some (st.1 !! c)).
  { intros st (_ & L & _). apply lookup_lt_is_Some. rewrite L. exact Hclt. }
  destruct Hcases
    as [(p & props & k & Hg & Hp & Hk)|[Hi|(key & items & Hkey & Hg & Hk)]].
  - eapply post_subseteq;
      [eapply post_trans;
       [apply G3|eapply post_trans;
                 [apply G4|eapply post_trans; [apply G5|apply G6]]]|].
    apply (V2 p props k c); auto.
    + now rewrite F1.
    + apply Hlen, post_refl.
  - eapply post_subseteq;
      [eapply post_trans; [apply G4|eapply post_trans; [apply G5|apply G6]]|].
    apply V3.
    + rewrite (field_stable st1 st2 l) by (auto; apply G2). now rewrite F1.
    + apply Hlen. apply G2.
  - simpl in Hkey. destruct Hkey as [<-|[<-|[<-|[]]]].
    + eapply post_subseteq; [eapply post_trans; [apply G5|apply G6]|].
      apply (V4 items); auto.
      * rewrite (field_stable st1 st3 l) by (auto; apply G13).
        now rewrite F1.
      * apply Hlen. apply G13.
    + eapply post_subseteq; [apply G6|].
      apply (V5 items); auto.
      * rewrite (field_stable st1 st4 l) by (auto; apply G14).
        now rewrite F1.
      * apply Hlen. apply G14.
    + apply (V6 items); auto.
      * rewrite (field_stable st1 st5 l) by (auto; apply G15).
        now rewrite F1.
      * apply Hlen. apply G15.
Qed.

Lemma sanitize_recursive_ok fuel :
  rec_ok (_sanitize_parameters_recursive fuel).
Proof.
  induction fuel as [|fuel IH]; intros l [h vis] st' Hsome H;
    [discriminate|].
  destruct (decide (l ∈ vis)) as [Hin|Hnin].
  { simpl in H. destruct (decide (l ∈ vis)); [|contradiction].
    injection H as <-. split; [apply good_refl|assumption]. }
  simpl in Hsome. destruct Hsome as [d Hd].
  destruct (sanitize_recursive_step fuel l h vis st' d IH Hnin Hd H)
    as (P01 & G1 & V).
  set (st1 := (<[l := clean_fields d]> h, {[l]} ∪ vis)) in *.
  assert (Hl1 : l ∈ st1.2).
  { simpl. apply elem_of_union_l. now apply elem_of_singleton. }
  split; [split|].
  - eapply post_trans; [exact P01|apply G1].
  - intros x Hx Hnx c Hc. simpl in Hnx.
    destruct (decide (x = l)) as [->|Hne].
    + apply V. eapply child_mono; eauto. apply G1.
    + apply (proj2 G1 x Hx); [|assumption].
      simpl. intros Hin. apply elem_of_union in Hin as [Hin|Hin];
        [|contradiction].
      apply elem_of_singleton in Hin. contradiction.
  - eapply post_subseteq; [apply G1|assumption].
Qed.

(** *** The recursion ends *)














(** *** [sanitize_parameters] *)

Lemma nested_visited st st' r c :
  closed st st' -> st.2 = ∅ -> r ∈ st'.2 -> nested st'.1 r c -> c ∈ st'.2.
Proof.
  intros K He Hr Hn. induction Hn as [c Hc|y c Hy IH Hc].
  - apply (K r Hr); [|assumption]. rewrite He. apply not_elem_of_empty.
  - apply (K y IH); [|assumption]. rewrite He. apply not_elem_of_empty.
Qed.

Lemma sanitize_parameters_spec (heap : Heap) s d r heap' :
  heap !! s = Some d -> d <> [] ->
  sanitize_parameters (Some s) heap = Finished (r, heap') ->
  let r0 := length heap in
  exists vis',
    r = Some r0
    /\ good (heap ++ [d], ∅) (heap', vis')
    /\ r0 ∈ vis'
    /\ forall c, child (<[r0 := clean_fields d]> (heap ++ [d])) r0 c ->
                 c ∈ vis'.
Proof.
  intros Hs Hd. unfold sanitize_parameters, sanitize_parameters_fuel.
  rewrite Hs. destruct d as [|kv d0]; [contradiction|].
  set (d := kv :: d0) in *.
  replace (length heap + 2) with (S (length heap + 1)) by lia.
  intros H. apply bind_Finished in H as ([h' vis'] & H & [= <- <-]).
  assert (Hr : (heap ++ [d]) !! length heap = Some d).
  { rewrite lookup_app_r by lia. now rewrite Nat.sub_diag. }
  destruct (sanitize_recursive_ok (S (length heap + 1)) (length heap)
              (heap ++ [d], ∅) (h', vis'))
    as [G Hin]; [simpl; now rewrite Hr|exact H|].
  destruct (sanitize_recursive_step (length heap + 1) (length heap)
              (heap ++ [d]) ∅ (h', vis') d
              (sanitize_recursive_ok (length heap + 1))
              (not_elem_of_empty _) Hr H)
    as (_ & _ & V).
  exists vis'. split; [reflexivity|]. split; [exact G|].
  split; [exact Hin|exact V].
Qed.

Lemma kept_key key :
  In key ["properties"; "items"; "anyOf"; "oneOf"; "allOf"] ->
  is_unsupported key = false /\ key <> "format".
Proof.
  simpl. intros [<-|[<-|[<-|[<-|[<-|[]]]]]]; split; (reflexivity || discriminate).
Qed.

(** C10, first part.  [sanitize_parameters] on a dictionary that is not
    empty returns a new dictionary, the copy of the top level with its
    fields cleaned.  Every other dictionary is left as it is or cleaned
    in place.  Each sub-schema reached from the input through
    ['properties'], ['items'], ['anyOf'], ['oneOf'] or ['allOf'] is a
    dictionary of the caller, shared with the copy, and is cleaned in
    place; so is every sub-schema nested in the result at any depth.  A
    cleaned dictionary has none of the unsupported fields. *)
Lemma sanitize_parameters_cleans_in_place (heap : Heap) s d r heap' :
  heap !! s = Some d -> d <> [] ->
  sanitize_parameters (Some s) heap = Finished (r, heap') ->
  r = Some (length heap)
  /\ length heap' = S (length heap)
  /\ heap' !! length heap = Some (clean_fields d)
  /\ (forall kv, In kv (clean_fields d) -> In kv d)
  /\ (forall x dx, heap !! x = Some dx ->
                   heap' !! x = Some dx
                   \/ heap' !! x = Some (clean_fields dx))
  /\ (forall c dc, child heap s c -> heap !! c = Some dc ->
                   heap' !! c = Some (clean_fields dc))
  /\ (forall c, nested heap' (length heap) c -> c <> length heap ->
                exists dc, heap !! c = Some dc
                           /\ heap' !! c = Some (clean_fields dc))
  /\ (forall dx f, In f unsupported_fields -> get (clean_fields dx) f = None).
Proof.
  intros Hs Hd H.
  destruct (sanitize_parameters_spec heap s d r heap' Hs Hd H)
    as (vis' & Hr & [P K] & Hin & V).
  pose proof P as (_ & L & U & C). simpl in L, U, C.
  rewrite length_app in L. simpl in L.
  assert (Hr0 : (heap ++ [d]) !! length heap = Some d).
  { rewrite lookup_app_r by lia. now rewrite Nat.sub_diag. }
  assert (Hvis : forall c dc, c ∈ vis' -> heap !! c = Some dc ->
                              heap' !! c = Some (clean_fields dc)).
  { intros c dc Hc Hdc.
    destruct (C c Hc (not_elem_of_empty _)) as [_ E].
    rewrite E, lookup_app_l by (eapply lookup_lt_Some; eauto).
    now rewrite Hdc. }
  split; [assumption|]. split; [lia|]. split.
  { destruct (C _ Hin (not_elem_of_empty _)) as [_ E].
    rewrite E, Hr0. reflexivity. }
  split; [intros kv; apply in_clean_fields|]. split.
  { intros x dx Hx.
    destruct (post_lookup _ _ x P) as [E|E]; simpl in E;
      rewrite lookup_app_l in E by (eapply lookup_lt_Some; eauto);
      rewrite Hx in E; auto. }
  split.
  { intros c dc Hc Hdc. apply Hvis; [|assumption]. apply V.
    destruct Hc as (dx & Hdx & Hclt & Hcases).
    rewrite Hs in Hdx. injection Hdx as <-.
    exists (clean_fields d). split.
    - apply list_lookup_insert_eq. rewrite length_app. simpl. lia.
    - split; [rewrite length_insert, length_app; simpl; lia|].
      destruct Hcases
        as [(p & props & k & Hg & Hp & Hk)|[Hi|(key & items & Hkey & Hg & Hk)]].
      + left. exists p, props, k. split; [|split; [|assumption]].
        * rewrite get_clean_fields_kept; [assumption|reflexivity|discriminate].
        * assert (p < length heap) by (eapply lookup_lt_Some; eauto).
          rewrite list_lookup_insert_ne by lia.
          now rewrite lookup_app_l by assumption.
      + right. left.
        rewrite get_clean_fields_kept; [assumption|reflexivity|discriminate].
      + right. right. exists key, items. split; [assumption|].
        split; [|assumption].
        destruct (kept_key key) as [E1 E2].
        { unfold list_keys in Hkey. simpl in *. tauto. }
        now rewrite get_clean_fields_kept. }
  split.
  { intros c Hn Hne.
    assert (Hc : c ∈ vis').
    { apply (nested_visited (heap ++ [d], ∅) (heap', vis') (length heap));
        auto. }
    destruct (C c Hc (not_elem_of_empty _)) as [Hclt E].
    rewrite length_app in Hclt. simpl in Hclt.
    assert (Hlt : c < length heap) by lia.
    destruct (lookup_lt_is_Some_2 heap c Hlt) as [dc Hdc].
    exists dc. split; [assumption|]. now apply Hvis. }
  intros dx f. apply get_clean_fields_unsupported.
Qed.

(** *** Several runs on one heap *)

(** A dictionary without any of the unsupported fields. *)
Definition stripped (d : Object) : Prop :=
  forall f, In f unsupported_fields -> get d f = None.



(** Every reference held by a dictionary of the heap is the address of a
    dictionary of the heap. *)
Definition closed_heap (h : Heap) : Prop :=
  forall x dx, h !! x = Some dx ->
    (forall k r, In (k, VDict r) dx -> r < length h)
    /\ (forall k items r,
           In (k, VList items) dx -> In (VDict r) items -> r < length h).

Lemma get_In {V} (d : dict V) k v : get d k = Some v -> In (k, v) d.
Proof.
  induction d as [|[k0 v0] rest IH]; simpl; [discriminate|].
  destruct (String.eqb k0 k) eqn:E.
  - apply String.eqb_eq in E. subst k0. intros [= ->]. now left.
  - intros H. right. now apply IH.
Qed.







Lemma stripped_clean_fields d : stripped (clean_fields d).
Proof. intros f Hf. now apply get_clean_fields_unsupported. Qed.



Lemma sanitize_parameters_cases schema (heap : Heap) r heap' :
  sanitize_parameters schema heap = Finished (r, heap') ->
  (r = schema /\ heap' = heap
   /\ forall s d, schema = Some s -> heap !! s = Some d -> d = [])
  \/ exists s d, schema = Some s /\ heap !! s = Some d /\ d <> [].
Proof.
  unfold sanitize_parameters, sanitize_parameters_fuel.
  destruct schema as [s|].
  - destruct (heap !! s) as [[|kv d]|] eqn:Hs.
    + intros [= <- <-]. left. repeat split; auto.
      intros s' d' [= <-] Hd. congruence.
    + intros _. right. exists s, (kv :: d). repeat split; auto.
    + intros [= <- <-]. left. repeat split; auto.
      intros s' d' [= <-] Hd. congruence.
  - intros [= <- <-]. left. repeat split; auto. discriminate.
Qed.


Lemma sanitize_parameters_closed schema (heap : Heap) r heap' :
  closed_heap heap ->
  sanitize_parameters schema heap = Finished (r, heap') ->
  closed_heap heap'.
Proof.
  intros Hc H.
  destruct (sanitize_parameters_cases _ _ _ _ H)
    as [(_ & -> & _)|(s & d & -> & Hs & Hd)]; [assumption|].
  destruct (sanitize_parameters_cleans_in_place heap s d r heap' Hs Hd H)
    as (_ & L & Hnew & Hsub & U & _).
  assert (Hsubset : forall x dx dx',
             heap !! x = Some dx -> (forall kv, In kv dx' -> In kv dx) ->
             (forall k r0, In (k, VDict r0) dx' -> r0 < length heap')
             /\ (forall k items r0,
                    In (k, VList items) dx' -> In (VDict r0) items ->
                    r0 < length heap')).
  { intros x dx dx' Hx Hin. destruct (Hc x dx Hx) as [C1 C2]. split.
    - intros k r0 Hk. apply Hin in Hk. specialize (C1 k r0 Hk). lia.
    - intros k items r0 Hk Hi. apply Hin in Hk.
      specialize (C2 k items r0 Hk Hi). lia. }
  intros x dx' Hx'.
  destruct (decide (x < length heap)) as [Hlt|Hge].
  - destruct (lookup_lt_is_Some_2 heap x Hlt) as [dx Hx].
    destruct (U x dx Hx) as [E|E]; rewrite Hx' in E; injection E as ->.
    + apply (Hsubset x dx dx Hx). auto.
    + apply (Hsubset x dx (clean_fields dx) Hx). intros kv.
      apply in_clean_fields.
  - assert (x = length heap).
    { apply lookup_lt_Some in Hx'. lia. }
    subst x. rewrite Hnew in Hx'. injection Hx' as <-.
    apply (Hsubset s d (clean_fields d) Hs). intros kv.
    apply in_clean_fields.
Qed.


(** *** [get_function_declarations] *)




(** *** When the run finishes

    The one exception of the model is the [RuntimeError] of a
    dictionary that changes size while the loop over ['properties']
    iterates it.  It needs a ['properties'] dictionary that is itself
    visited as a schema and loses a key there. *)


















(** *** The claim about sharing *)





(** *** The schema of the grep tool *)

(** The parameter schema of [GrepTool], three of its properties: the
    top-level dictionary at address 0, its ['properties'] dictionary at
    address 1 and one dictionary per property at addresses 2 to 4. *)
Definition grep_schema : Heap :=
  [ [("type", VStr "object"); ("properties", VDict 1);
     ("required", VList [VStr "pattern"])];
    [("pattern", VDict 2); ("path", VDict 3); ("context_lines", VDict 4)];
    [("type", VStr "string"); ("description", VStr "Search pattern")];
    [("type", VStr "string"); ("description", VStr "Path to search in");
     ("default", VStr ".")];
    [("type", VStr "integer"); ("description", VStr "Number of context lines");
     ("default", VInt 0); ("minimum", VInt 0); ("maximum", VInt 10)] ].

(** The heap after one call: the dictionaries of the properties [path]
    and [context_lines], which belong to the caller, have lost their
    [default], [minimum] and [maximum]; the copy is at address 5. *)
Definition grep_schema_after : Heap :=
  [ [("type", VStr "object"); ("properties", VDict 1);
     ("required", VList [VStr "pattern"])];
    [("pattern", VDict 2); ("path", VDict 3); ("context_lines", VDict 4)];
    [("type", VStr "string"); ("description", VStr "Search pattern")];
    [("type", VStr "string"); ("description", VStr "Path to search in")];
    [("type", VStr "integer"); ("description", VStr "Number of context lines")];
    [("type", VStr "object"); ("properties", VDict 1);
     ("required", VList [VStr "pattern"])] ].

Lemma grep_schema_sanitized :
  sanitize_parameters (Some 0) grep_schema
  = Finished (Some 5, grep_schema_after).
Proof. vm_compute. reflexivity. Qed.

Definition grep_tool : ToolTypes.Tool :=
  {| ToolTypes.tool_name := "grep";
     ToolTypes.description := "search file contents";
     ToolTypes.parameter_schema := Some 0;
     ToolTypes.should_confirm_execute := fun _ _ => Returns None;
     ToolTypes.execute := fun _ _ =>
       ([], Returns {| ToolTypes.summary := None;
                       ToolTypes.llm_content := "";
                       ToolTypes.return_display := None;
                       ToolTypes.error := None |}) |}.

Definition grep_registry : Registry.ToolRegistry :=
  Registry.register_tool grep_tool {[Registry.SEARCH]} None 90 None
    {| Registry.tools := [];
       Registry._capability_index := ∅;
       Registry._tag_index := ∅ |}.

Lemma grep_declarations :
  Registry.get_function_declarations grep_registry grep_schema
  = Finished
      ([{| Registry.decl_name := "grep";
           Registry.decl_description := "search file contents";
           Registry.decl_parameters := Some 5 |}],
       grep_schema_after).
Proof. vm_compute. reflexivity. Qed.

Lemma grep_schema_closed : closed_heap grep_schema.
Proof.
  intros x dx Hx.
  do 5 (destruct x as [|x]; [injection Hx as <-; split;
    [intros k r Hin; simpl in Hin;
     repeat (destruct Hin as [Hin|Hin];
             [try discriminate; injection Hin as <- <-; simpl; lia|]);
     contradiction
    |intros k items r Hin Hi; simpl in Hin;
     repeat (destruct Hin as [Hin|Hin];
             [try discriminate; injection Hin as <- <-; simpl in Hi;
              destruct Hi as [Hi|[]]; discriminate|]);
     contradiction]|]).
  discriminate.
Qed.






End SanitizerFacts.

(** * Registration and the queries of the tool registry *)

Module RegistryQueryFacts.
Import Py ToolTypes Registry.

(** The registries the code can build: the one [__init__] starts from
    and those obtained from it by [register_tool]. *)
Inductive Built : ToolRegistry -> Prop :=
| Built_new : Built new_registry
| Built_register tool capabilities tags priority metadata self :
    Built self ->
    Built (register_tool tool capabilities tags priority metadata self).

(** The names listed under a key of an index. *)
Definition listed {K} `{Countable K}
    (idx : gmap K (gset string)) (key : K) : gset string :=
  default ∅ (idx !! key).

(** Every name of an index is a key of [tools]. *)
Definition index_sound (self : ToolRegistry) : Prop :=
  (forall c name, name ∈ listed (_capability_index self) c ->
                  is_Some (get (tools self) name))
  /\ (forall t name, name ∈ listed (_tag_index self) t ->
                     is_Some (get (tools self) name)).

(** Every tool is listed under each of its capabilities and tags, and
    is stored under its own name. *)
Definition index_complete (self : ToolRegistry) : Prop :=
  forall name info,
    get (tools self) name = Some info ->
    tool_name (info_tool info) = name
    /\ (forall c, c ∈ capabilities info ->
                  name ∈ listed (_capability_index self) c)
    /\ (forall t, t ∈ tags info -> name ∈ listed (_tag_index self) t).

Lemma listed_fold_index_add {K} `{Countable K}
    (name : string) (keys : list K) (idx : gmap K (gset string)) (k : K) :
  listed (fold_left (index_add name) keys idx) k
  = if decide (k ∈ keys) then {[name]} ∪ listed idx k else listed idx k.
Proof.
  revert idx. induction keys as [|a keys IH]; intros idx; simpl.
  - destruct (decide (k ∈ [])) as [Hin|_]; [|reflexivity].
    now apply elem_of_nil in Hin.
  - rewrite IH. unfold listed, index_add.
    destruct (decide (k = a)) as [->|Hne].
    + rewrite lookup_insert_eq. simpl.
      destruct (decide (a ∈ a :: keys)) as [_|Hn];
        [|destruct Hn; apply list_elem_of_here].
      destruct (decide (a ∈ keys)); [|reflexivity].
      apply leibniz_equiv. set_solver.
    + rewrite lookup_insert_ne by congruence.
      destruct (decide (k ∈ keys)) as [Hin|Hnin],
               (decide (k ∈ a :: keys)) as [Hin'|Hnin']; try reflexivity.
      * destruct Hnin'. now apply list_elem_of_further.
      * apply elem_of_cons in Hin' as [?|?]; [congruence|contradiction].
Qed.

Lemma listed_capability_register tool caps tgs prio meta self c :
  listed (_capability_index (register_tool tool caps tgs prio meta self)) c
  = if decide (c ∈ caps)
    then {[tool_name tool]} ∪ listed (_capability_index self) c
    else listed (_capability_index self) c.
Proof.
  unfold register_tool. cbn [_capability_index].
  rewrite listed_fold_index_add.
  destruct (decide (c ∈ elements caps)) as [Hin|Hnin],
           (decide (c ∈ caps)) as [Hin'|Hnin']; try reflexivity.
  - destruct Hnin'. now apply elem_of_elements.
  - destruct Hnin. now apply elem_of_elements.
Qed.

Lemma listed_tag_register tool caps tgs prio meta self t :
  listed (_tag_index (register_tool tool caps tgs prio meta self)) t
  = if decide (t ∈ default ∅ tgs)
    then {[tool_name tool]} ∪ listed (_tag_index self) t
    else listed (_tag_index self) t.
Proof.
  unfold register_tool. cbn [_tag_index].
  rewrite listed_fold_index_add.
  destruct (decide (t ∈ elements (default ∅ tgs))) as [Hin|Hnin],
           (decide (t ∈ default ∅ tgs)) as [Hin'|Hnin']; try reflexivity.
  - destruct Hnin'. now apply elem_of_elements.
  - destruct Hnin. now apply elem_of_elements.
Qed.

Lemma get_register tool caps tgs prio meta self name :
  get (tools (register_tool tool caps tgs prio meta self)) name
  = if String.eqb (tool_name tool) name
    then Some {| info_tool := tool; capabilities := caps;
                 tags := default ∅ tgs; priority := prio;
                 metadata := default [] meta |}
    else get (tools self) name.
Proof.
  unfold register_tool. cbn [tools].
  destruct (String.eqb (tool_name tool) name) eqn:E.
  - apply String.eqb_eq in E. subst name. apply get_set_eq.
  - apply String.eqb_neq in E. now apply get_set_ne.
Qed.

(** X1.  Registration and lookup: after [register_tool] the tool is
    found under its name (a tool registered before under this name is
    replaced), every other name is looked up as before, and the name is
    listed under each capability and each tag given. *)
Theorem register_tool_then_get_tool
    (tool : Tool) (caps : gset ToolCapability) (tgs : option (gset string))
    (prio : Z) (meta : option (dict Json)) (self : ToolRegistry) :
  let self' := register_tool tool caps tgs prio meta self in
  get_tool (tool_name tool) self' = Some tool
  /\ (forall name, name <> tool_name tool ->
                   get_tool name self' = get_tool name self
                   /\ get_tool_info name self' = get_tool_info name self)
  /\ (exists info,
         get_tool_info (tool_name tool) self' = Some info
         /\ info_tool info = tool /\ capabilities info = caps
         /\ tags info = default ∅ tgs /\ priority info = prio
         /\ metadata info = default [] meta)
  /\ (forall c, c ∈ caps ->
                tool_name tool ∈ listed (_capability_index self') c)
  /\ (forall t, t ∈ default ∅ tgs ->
                tool_name tool ∈ listed (_tag_index self') t).
Proof.
  cbv zeta. unfold get_tool, get_tool_info.
  split; [|split; [|split; [|split]]].
  - now rewrite get_register, String.eqb_refl.
  - intros name Hne. rewrite get_register.
    destruct (String.eqb (tool_name tool) name) eqn:E; [|auto].
    apply String.eqb_eq in E. congruence.
  - rewrite get_register, String.eqb_refl. eexists. split; [reflexivity|].
    simpl. auto.
  - intros c Hc. rewrite listed_capability_register.
    destruct (decide (c ∈ caps)); [set_solver|contradiction].
  - intros t Ht. rewrite listed_tag_register.
    destruct (decide (t ∈ default ∅ tgs)); [set_solver|contradiction].
Qed.

Lemma Built_sound self : Built self -> index_sound self.
Proof.
  induction 1 as [|tool caps tgs prio meta self HB [IHc IHt]].
  - split; intros k name Hin; unfold listed in Hin; simpl in Hin;
      rewrite lookup_empty in Hin; simpl in Hin; set_solver.
  - split.
    + intros c name. rewrite listed_capability_register, get_register.
      destruct (String.eqb (tool_name tool) name) eqn:E; [eauto|].
      apply String.eqb_neq in E.
      destruct (decide (c ∈ caps)); intros Hin; [|now apply (IHc c)].
      apply elem_of_union in Hin as [Hin|Hin]; [|now apply (IHc c)].
      apply elem_of_singleton in Hin. congruence.
    + intros t name. rewrite listed_tag_register, get_register.
      destruct (String.eqb (tool_name tool) name) eqn:E; [eauto|].
      apply String.eqb_neq in E.
      destruct (decide (t ∈ default ∅ tgs)); intros Hin;
        [|now apply (IHt t)].
      apply elem_of_union in Hin as [Hin|Hin]; [|now apply (IHt t)].
      apply elem_of_singleton in Hin. congruence.
Qed.

Lemma Built_complete self : Built self -> index_complete self.
Proof.
  induction 1 as [|tool caps tgs prio meta self HB IH].
  - intros name info Hg. discriminate.
  - intros name info. rewrite get_register.
    destruct (String.eqb (tool_name tool) name) eqn:E.
    + apply String.eqb_eq in E. intros [= <-].
      cbn [info_tool capabilities tags].
      split; [exact E|]. subst name. split.
      * intros c Hc. rewrite listed_capability_register.
        destruct (decide (c ∈ caps)); [set_solver|contradiction].
      * intros t Ht. rewrite listed_tag_register.
        destruct (decide (t ∈ default ∅ tgs)); [set_solver|contradiction].
    + intros Hg. destruct (IH name info Hg) as (Hn & Hc & Ht).
      split; [exact Hn|]. split.
      * intros c Hin. rewrite listed_capability_register.
        destruct (decide (c ∈ caps)); [|now apply Hc].
        apply elem_of_union_r. now apply Hc.
      * intros t Hin. rewrite listed_tag_register.
        destruct (decide (t ∈ default ∅ tgs)); [|now apply Ht].
        apply elem_of_union_r. now apply Ht.
Qed.

(** *** Sorting by priority *)

(** [desc a b]: [b] may follow [a] in a list sorted by priority,
    highest first. *)
Definition desc (a b : ToolInfo) : Prop := (priority b <= priority a)%Z.

Definition has_priority (p : Z) (info : ToolInfo) : bool :=
  (priority info =? p)%Z.

Lemma filter_none {A} (f : A -> bool) (l : list A) :
  (forall z, In z l -> f z = false) -> List.filter f l = [].
Proof.
  induction l as [|a l IH]; simpl; intros H; [reflexivity|].
  rewrite (H a) by now left. apply IH. intros z Hz. apply H. now right.
Qed.

Lemma insert_by_priority_perm x l : insert_by_priority x l ≡ₚ x :: l.
Proof.
  induction l as [|y r IH]; simpl; [reflexivity|].
  destruct (priority y <? priority x)%Z; [reflexivity|].
  rewrite IH. apply Permutation_swap.
Qed.

Lemma insert_by_priority_sorted x l :
  StronglySorted desc l -> StronglySorted desc (insert_by_priority x l).
Proof.
  induction l as [|y r IH]; simpl; intros Hs.
  - apply SSorted_cons; [constructor|constructor].
  - apply StronglySorted_inv in Hs as [Hr Hy].
    destruct (priority y <? priority x)%Z eqn:E.
    + apply Z.ltb_lt in E. apply SSorted_cons.
      * apply SSorted_cons; assumption.
      * apply List.Forall_cons; [unfold desc; lia|].
        eapply Forall_impl; [exact Hy|]. unfold desc. intros z Hz. lia.
    + apply Z.ltb_ge in E. apply SSorted_cons; [now apply IH|].
      rewrite insert_by_priority_perm.
      apply List.Forall_cons; [exact E|exact Hy].
Qed.

Lemma insert_by_priority_stable p x l :
  StronglySorted desc l ->
  List.filter (has_priority p) (insert_by_priority x l)
  = List.filter (has_priority p) l
    ++ (if has_priority p x then [x] else []).
Proof.
  induction l as [|y r IH]; simpl; intros Hs.
  - destruct (has_priority p x); reflexivity.
  - apply StronglySorted_inv in Hs as [Hr Hy].
    destruct (priority y <? priority x)%Z eqn:E.
    + apply Z.ltb_lt in E. simpl.
      destruct (has_priority p x) eqn:Ex;
        [|now rewrite app_nil_r].
      apply Z.eqb_eq in Ex.
      assert (Hnone : List.filter (has_priority p) (y :: r) = []).
      { apply filter_none. intros z [<-|Hz]; apply Z.eqb_neq; [lia|].
        rewrite List.Forall_forall in Hy. specialize (Hy z Hz).
        unfold desc in Hy. lia. }
      simpl in Hnone. rewrite Hnone. reflexivity.
    + simpl. rewrite (IH Hr).
      destruct (has_priority p y); reflexivity.
Qed.

Lemma sort_fold_perm l acc :
  fold_left (fun acc x => insert_by_priority x acc) l acc ≡ₚ acc ++ l.
Proof.
  revert acc. induction l as [|x l IH]; intros acc; simpl.
  - now rewrite app_nil_r.
  - rewrite IH, insert_by_priority_perm.
    rewrite (Permutation_middle acc l x). reflexivity.
Qed.

Lemma sort_fold_sorted l acc :
  StronglySorted desc acc ->
  StronglySorted desc
    (fold_left (fun acc x => insert_by_priority x acc) l acc).
Proof.
  revert acc. induction l as [|x l IH]; intros acc Hs; simpl; [exact Hs|].
  apply IH. now apply insert_by_priority_sorted.
Qed.

Lemma sort_fold_stable p l acc :
  StronglySorted desc acc ->
  List.filter (has_priority p)
    (fold_left (fun acc x => insert_by_priority x acc) l acc)
  = List.filter (has_priority p) acc ++ List.filter (has_priority p) l.
Proof.
  revert acc. induction l as [|x l IH]; intros acc Hs; simpl.
  - now rewrite app_nil_r.
  - rewrite IH by now apply insert_by_priority_sorted.
    rewrite insert_by_priority_stable by exact Hs.
    rewrite <- app_assoc. destruct (has_priority p x); reflexivity.
Qed.

(** [sorted(..., key=priority, reverse=True)] as modelled: the same
    elements, priorities never increasing, and the elements of one
    priority in the order they had. *)
Lemma sorted_by_priority_spec l :
  sorted_by_priority l ≡ₚ l
  /\ StronglySorted desc (sorted_by_priority l)
  /\ forall p, List.filter (has_priority p) (sorted_by_priority l)
               = List.filter (has_priority p) l.
Proof.
  unfold sorted_by_priority. split; [|split].
  - now rewrite sort_fold_perm.
  - apply sort_fold_sorted. constructor.
  - intros p. now rewrite sort_fold_stable by constructor.
Qed.

(** *** The queries by index *)

(** The test [tool_info.priority >= min_priority] of the capability
    query; the other queries keep every tool. *)
Definition keep (min_priority : option Z) (info : ToolInfo) : bool :=
  match min_priority with
  | Some m => (m <=? priority info)%Z
  | None => true
  end.

Definition selected
    (self : ToolRegistry) (min_priority : option Z) (names : list string)
  : list ToolInfo :=
  flat_map
    (fun name =>
       match get (tools self) name with
       | Some info => if keep min_priority info then [info] else []
       | None => []
       end)
    names.

Lemma matching_loop_returns self m names acc :
  (forall name, In name names -> is_Some (get (tools self) name)) ->
  matching_loop self m names acc = Returns (acc ++ selected self m names).
Proof.
  revert acc. induction names as [|name rest IH]; intros acc Hk; simpl.
  - now rewrite app_nil_r.
  - destruct (Hk name (or_introl eq_refl)) as [info Hg]. rewrite Hg.
    rewrite IH by (intros n Hn; apply Hk; now right).
    unfold keep. destruct m as [m|].
    + destruct (m <=? priority info)%Z; [|reflexivity].
      now rewrite <- app_assoc.
    + now rewrite <- app_assoc.
Qed.

(** [self.tools[name]] raises as soon as a name of the set is no key. *)
Lemma matching_loop_raises self m names acc name :
  In name names -> get (tools self) name = None ->
  matching_loop self m names acc = Raises "KeyError".
Proof.
  revert acc. induction names as [|n rest IH]; intros acc Hin Hg; simpl.
  - destruct Hin.
  - destruct (get (tools self) n) as [info|] eqn:E; [|reflexivity].
    destruct Hin as [->|Hin]; [congruence|]. now apply IH.
Qed.

Lemma in_selected self m names info :
  In info (selected self m names)
  <-> exists name, In name names /\ get (tools self) name = Some info
                   /\ keep m info = true.
Proof.
  unfold selected. rewrite in_flat_map. split.
  - intros (name & Hn & Hin). exists name. split; [exact Hn|].
    destruct (get (tools self) name) as [i|]; [|destruct Hin].
    destruct (keep m i) eqn:E; [|destruct Hin].
    destruct Hin as [<-|[]]. auto.
  - intros (name & Hn & Hg & Hk). exists name. split; [exact Hn|].
    rewrite Hg, Hk. now left.
Qed.

Lemma length_selected self m names :
  length (selected self m names) <= length names.
Proof.
  induction names as [|n rest IH]; simpl; [lia|].
  rewrite length_app.
  destruct (get (tools self) n) as [i|]; simpl; [|lia].
  destruct (keep m i); simpl; lia.
Qed.

Lemma elem_of_fold_intersection (rest : list (gset string)) s x :
  x ∈ fold_left (fun acc y => acc ∩ y) rest s
  <-> x ∈ s /\ forall y, In y rest -> x ∈ y.
Proof.
  revert s. induction rest as [|a rest IH]; intros s; simpl.
  - split; [intros H; split; [exact H|intros y []]|tauto].
  - rewrite IH, elem_of_intersection. split.
    + intros [[Hs Ha] Hr]. split; [exact Hs|].
      intros y [<-|Hy]; auto.
    + intros [Hs Hr]. split; [split; [exact Hs|]|]; auto.
Qed.

Lemma elem_of_fold_union (rest : list (gset string)) s x :
  x ∈ fold_left (fun acc y => acc ∪ y) rest s
  <-> x ∈ s \/ exists y, In y rest /\ x ∈ y.
Proof.
  revert s. induction rest as [|a rest IH]; intros s; simpl.
  - split; [auto|]. intros [H|(y & [] & _)]. exact H.
  - rewrite IH, elem_of_union. split.
    + intros [[Hs|Ha]|(y & Hy & Hx)]; eauto 6.
    + intros [Hs|(y & [<-|Hy] & Hx)]; eauto 6.
Qed.

Lemma elem_of_set_intersection sets x :
  sets <> [] ->
  x ∈ set_intersection sets <-> forall y, In y sets -> x ∈ y.
Proof.
  destruct sets as [|s rest]; [congruence|]. intros _.
  unfold set_intersection. rewrite elem_of_fold_intersection. split.
  - intros [Hs Hr] y [<-|Hy]; auto.
  - intros H. split; [|intros y Hy]; apply H; simpl; auto.
Qed.

Lemma elem_of_set_union sets x :
  x ∈ set_union sets <-> exists y, In y sets /\ x ∈ y.
Proof.
  destruct sets as [|s rest]; simpl.
  - split; [set_solver|]. intros (y & [] & _).
  - rewrite elem_of_fold_union. split.
    + intros [Hs|(y & Hy & Hx)]; eauto.
    + intros (y & [<-|Hy] & Hx); eauto.
Qed.

Section Queries.

Variable iterate : gset string -> list string.

(** Iterating over a set yields each of its elements once. *)
Hypothesis iterate_spec : forall s, iterate s ≡ₚ elements s.

Lemma in_iterate s x : In x (iterate s) <-> x ∈ s.
Proof.
  rewrite <- list_elem_of_In, (iterate_spec s). apply elem_of_elements.
Qed.

Lemma tools_of_names_spec self m names :
  (forall name, name ∈ names -> is_Some (get (tools self) name)) ->
  exists infos,
    tools_of_names iterate self m names = Returns (map info_tool infos)
    /\ StronglySorted desc infos
    /\ (forall info,
          In info infos
          <-> exists name, name ∈ names
                           /\ get (tools self) name = Some info
                           /\ keep m info = true)
    /\ length infos <= size names.
Proof.
  intros Hk. exists (sorted_by_priority (selected self m (iterate names))).
  destruct (sorted_by_priority_spec (selected self m (iterate names)))
    as (Hperm & Hsorted & _).
  split; [|split; [exact Hsorted|split]].
  - unfold tools_of_names. rewrite matching_loop_returns; [reflexivity|].
    intros name Hin. apply Hk. now apply in_iterate.
  - intros info. rewrite <- !list_elem_of_In, Hperm, list_elem_of_In.
    rewrite in_selected. split; intros (name & Hn & H); exists name;
      (split; [now apply in_iterate|exact H]).
  - rewrite Hperm. etransitivity; [apply length_selected|].
    rewrite (iterate_spec names). reflexivity.
Qed.

(** X2.  For a registry built by [register_tool],
    [get_tools_by_capability] never fails on [self.tools[name]]: it
    returns the tools listed under the capability whose priority is at
    least [min_priority], highest priority first; and every registered
    tool that has the capability and the priority is among them. *)
Theorem get_tools_by_capability_returns_sorted
    (capability : ToolCapability) (min_priority : Z) (self : ToolRegistry) :
  Built self ->
  exists infos,
    get_tools_by_capability iterate capability min_priority self
    = Returns (map info_tool infos)
    /\ StronglySorted desc infos
    /\ (forall info,
          In info infos
          <-> exists name,
                name ∈ listed (_capability_index self) capability
                /\ get_tool_info name self = Some info
                /\ (min_priority <= priority info)%Z)
    /\ (forall name info,
          get_tool_info name self = Some info ->
          capability ∈ capabilities info ->
          (min_priority <= priority info)%Z -> In info infos).
Proof.
  intros HB. destruct (Built_sound self HB) as [Hc _].
  destruct (tools_of_names_spec self (Some min_priority)
              (listed (_capability_index self) capability) (Hc capability))
    as (infos & Hr & Hs & Hin & _).
  exists infos. split; [exact Hr|]. split; [exact Hs|].
  assert (Hiff : forall info,
             In info infos
             <-> exists name,
                   name ∈ listed (_capability_index self) capability
                   /\ get_tool_info name self = Some info
                   /\ (min_priority <= priority info)%Z).
  { intros info. rewrite Hin. unfold keep, get_tool_info.
    split; intros (name & Hn & Hg & Hp); exists name;
      (split; [exact Hn|split; [exact Hg|]]).
    - now apply Z.leb_le.
    - now apply Z.leb_le. }
  split; [exact Hiff|].
  intros name info Hg Hcap Hp. apply Hiff. exists name.
  split; [|auto]. now apply (Built_complete self HB name info Hg).
Qed.

(** X3.  [get_tools_by_tag] on a registry built by [register_tool]
    returns, highest priority first, the tools listed under the tag;
    every registered tool carrying the tag is among them. *)
Theorem get_tools_by_tag_returns_sorted (tag : string) (self : ToolRegistry) :
  Built self ->
  exists infos,
    get_tools_by_tag iterate tag self = Returns (map info_tool infos)
    /\ StronglySorted desc infos
    /\ (forall info,
          In info infos
          <-> exists name,
                name ∈ listed (_tag_index self) tag
                /\ get_tool_info name self = Some info)
    /\ (forall name info,
          get_tool_info name self = Some info -> tag ∈ tags info ->
          In info infos).
Proof.
  intros HB. destruct (Built_sound self HB) as [_ Ht].
  destruct (tools_of_names_spec self None
              (listed (_tag_index self) tag) (Ht tag))
    as (infos & Hr & Hs & Hin & _).
  exists infos. split; [exact Hr|]. split; [exact Hs|].
  assert (Hiff : forall info,
             In info infos
             <-> exists name,
                   name ∈ listed (_tag_index self) tag
                   /\ get_tool_info name self = Some info).
  { intros info. rewrite Hin. unfold keep, get_tool_info.
    split; intros (name & Hn & Hg); exists name.
    - destruct Hg. auto.
    - auto. }
  split; [exact Hiff|].
  intros name info Hg Htag. apply Hiff. exists name.
  split; [|auto]. now apply (Built_complete self HB name info Hg).
Qed.

(** X4.  [get_tools_by_capabilities]: an empty list of capabilities
    gives the empty list whatever the registry; otherwise, on a
    registry built by [register_tool], the result holds, highest
    priority first, the tools listed under every capability of the list
    when [match_all] is true, and under at least one of them when it is
    false. *)
Theorem get_tools_by_capabilities_all_or_any
    (capabilities : list ToolCapability) (match_all : bool)
    (self : ToolRegistry) :
  Built self ->
  get_tools_by_capabilities iterate [] match_all self = Returns []
  /\ (capabilities <> [] ->
      exists infos,
        get_tools_by_capabilities iterate capabilities match_all self
        = Returns (map info_tool infos)
        /\ StronglySorted desc infos
        /\ forall info,
            In info infos
            <-> exists name,
                  get_tool_info name self = Some info
                  /\ if match_all
                     then forall c, In c capabilities ->
                            name ∈ listed (_capability_index self) c
                     else exists c, In c capabilities
                            /\ name ∈ listed (_capability_index self) c).
Proof.
  intros HB. split; [reflexivity|]. intros Hne.
  destruct (Built_sound self HB) as [Hc _].
  set (sets := map (fun cap => default ∅ (_capability_index self !! cap))
                   capabilities).
  assert (Hsets : sets <> []) by (destruct capabilities; [congruence|easy]).
  assert (Hall : forall name,
             name ∈ set_intersection sets
             <-> forall c, In c capabilities ->
                           name ∈ listed (_capability_index self) c).
  { intros name. rewrite (elem_of_set_intersection sets name Hsets).
    unfold sets. split.
    - intros H c Hin. apply H. apply in_map_iff. now exists c.
    - intros H y Hy. apply in_map_iff in Hy as (c & <- & Hin).
      now apply H. }
  assert (Hany : forall name,
             name ∈ set_union sets
             <-> exists c, In c capabilities
                           /\ name ∈ listed (_capability_index self) c).
  { intros name. rewrite elem_of_set_union. unfold sets. split.
    - intros (y & Hy & Hx). apply in_map_iff in Hy as (c & <- & Hin).
      now exists c.
    - intros (c & Hin & Hx). eexists. split; [|exact Hx].
      apply in_map_iff. now exists c. }
  set (names := if match_all then set_intersection sets else set_union sets).
  assert (Hk : forall name, name ∈ names -> is_Some (get (tools self) name)).
  { intros name. unfold names. destruct match_all.
    - rewrite Hall. intros H. destruct capabilities as [|c cs]; [congruence|].
      apply (Hc c). apply H. now left.
    - rewrite Hany. intros (c & _ & Hx). now apply (Hc c). }
  destruct (tools_of_names_spec self None names Hk)
    as (infos & Hr & Hs & Hin & _).
  exists infos. split.
  { destruct capabilities as [|c cs]; [congruence|]. exact Hr. }
  split; [exact Hs|].
  intros info. rewrite Hin. unfold names, keep, get_tool_info.
  destruct match_all.
  - split.
    + intros (name & Hn & Hg & _). exists name. split; [exact Hg|].
      now apply Hall.
    + intros (name & Hg & Hn). exists name. split; [now apply Hall|auto].
  - split.
    + intros (name & Hn & Hg & _). exists name. split; [exact Hg|].
      now apply Hany.
    + intros (name & Hg & Hn). exists name. split; [now apply Hany|auto].
Qed.

(** X5.  [register_tool] only adds to the two indices.  A tool
    registered again under its name without a capability it had stays
    listed under that capability, and [get_tools_by_capability] still
    returns it although the capability is not among those of its
    [ToolInfo]. *)
Theorem register_tool_keeps_old_index_entries
    (tool : Tool) (caps : gset ToolCapability) (tgs : option (gset string))
    (prio : Z) (meta : option (dict Json)) (self : ToolRegistry)
    (capability : ToolCapability) (min_priority : Z) :
  Built self ->
  tool_name tool ∈ listed (_capability_index self) capability ->
  capability ∉ caps ->
  (min_priority <= prio)%Z ->
  let self' := register_tool tool caps tgs prio meta self in
  (forall c name, name ∈ listed (_capability_index self) c ->
                  name ∈ listed (_capability_index self') c)
  /\ (forall t name, name ∈ listed (_tag_index self) t ->
                     name ∈ listed (_tag_index self') t)
  /\ (exists info,
         get_tool_info (tool_name tool) self' = Some info
         /\ info_tool info = tool
         /\ capability ∉ capabilities info)
  /\ exists tools,
       get_tools_by_capability iterate capability min_priority self'
       = Returns tools
       /\ In tool tools.
Proof.
  intros HB Hold Hnot Hp self'.
  assert (Hmono : forall c name,
             name ∈ listed (_capability_index self) c ->
             name ∈ listed (_capability_index self') c).
  { intros c name Hin. unfold self'. rewrite listed_capability_register.
    destruct (decide (c ∈ caps)); [now apply elem_of_union_r|exact Hin]. }
  split; [exact Hmono|]. split.
  { intros t name Hin. unfold self'. rewrite listed_tag_register.
    destruct (decide (t ∈ default ∅ tgs));
      [now apply elem_of_union_r|exact Hin]. }
  assert (Hinfo : get_tool_info (tool_name tool) self'
                  = Some {| info_tool := tool; capabilities := caps;
                            tags := default ∅ tgs; priority := prio;
                            metadata := default [] meta |}).
  { unfold get_tool_info, self'. now rewrite get_register, String.eqb_refl. }
  split.
  { eexists. split; [exact Hinfo|]. simpl. auto. }
  assert (HB' : Built self') by now constructor.
  destruct (Built_sound self' HB') as [Hc _].
  destruct (tools_of_names_spec self' (Some min_priority)
              (listed (_capability_index self') capability) (Hc capability))
    as (infos & Hr & _ & Hin & _).
  exists (map info_tool infos). split; [exact Hr|].
  apply in_map_iff. eexists. split; [|apply Hin].
  2:{ exists (tool_name tool). split; [now apply Hmono|].
      split; [exact Hinfo|]. simpl. now apply Z.leb_le. }
  reflexivity.
Qed.

End Queries.

(** *** The function declarations *)

Lemma declarations_loop_names sorted_tools declarations heap ds heap' :
  declarations_loop sorted_tools declarations heap
  = Sanitizer.Finished (ds, heap') ->
  map decl_name ds
  = map decl_name declarations
    ++ map (fun i => tool_name (info_tool i)) sorted_tools
  /\ map decl_description ds
     = map decl_description declarations
       ++ map (fun i => description (info_tool i)) sorted_tools.
Proof.
  revert declarations heap.
  induction sorted_tools as [|info rest IH]; intros declarations heap; simpl.
  - intros [= <- <-]. now rewrite !app_nil_r.
  - intros H. apply SanitizerFacts.bind_Finished in H as ([r h1] & _ & H).
    apply IH in H as [Hn Hd]. rewrite Hn, Hd, !map_app. simpl.
    now rewrite <- !app_assoc.
Qed.

(** X6.  When [get_function_declarations] returns, it lists one
    declaration per registered tool, with the name and the description
    of the tool, priorities never increasing, tools of equal priority in
    the order of their registration. *)
Theorem get_function_declarations_by_priority
    (self : ToolRegistry) (heap : Sanitizer.Heap)
    (declarations : list Declaration) (heap' : Sanitizer.Heap) :
  get_function_declarations self heap
  = Sanitizer.Finished (declarations, heap') ->
  exists infos,
    infos ≡ₚ map snd (tools self)
    /\ StronglySorted desc infos
    /\ (forall p, List.filter (has_priority p) infos
                  = List.filter (has_priority p) (map snd (tools self)))
    /\ map decl_name declarations
       = map (fun i => tool_name (info_tool i)) infos
    /\ map decl_description declarations
       = map (fun i => description (info_tool i)) infos.
Proof.
  unfold get_function_declarations. intros H.
  exists (sorted_by_priority (map snd (tools self))).
  destruct (sorted_by_priority_spec (map snd (tools self)))
    as (Hp & Hs & Hst).
  apply declarations_loop_names in H as [Hn Hd].
  split; [exact Hp|]. split; [exact Hs|]. split; [exact Hst|].
  split; [exact Hn|exact Hd].
Qed.

(** *** The MCP registry *)

Lemma str_in_In x xs : str_in x xs = true <-> In x xs.
Proof.
  unfold str_in. rewrite existsb_exists. split.
  - intros (y & Hy & E). apply String.eqb_eq in E. now subst.
  - intros H. exists x. split; [exact H|apply String.eqb_refl].
Qed.

(** X7.  [_should_include_tool]: without a configuration every tool
    is included; with one, a tool is included exactly when it is not in
    the exclude list and the include list is absent, empty or contains
    it.  The exclude list wins over the include list. *)
Theorem should_include_tool_filters
    (tool_name : string) (server_config : MCPServerConfig) :
  _should_include_tool tool_name None = true
  /\ (_should_include_tool tool_name (Some server_config) = true
      <-> ~ In tool_name (default [] (exclude_tools server_config))
          /\ (default [] (include_tools server_config) = []
              \/ In tool_name (default [] (include_tools server_config))))
  /\ (In tool_name (default [] (exclude_tools server_config)) ->
      _should_include_tool tool_name (Some server_config) = false).
Proof.
  split; [reflexivity|].
  assert (Hiff :
    _should_include_tool tool_name (Some server_config) = true
    <-> ~ In tool_name (default [] (exclude_tools server_config))
        /\ (default [] (include_tools server_config) = []
            \/ In tool_name (default [] (include_tools server_config)))).
  { unfold _should_include_tool.
    set (ex := exclude_tools server_config).
    set (inc := include_tools server_config).
    assert (Hex : truthy_list ex && str_in tool_name (default [] ex)
                  = str_in tool_name (default [] ex))
      by (destruct ex as [[|e es]|]; reflexivity).
    rewrite Hex.
    assert (Hinc :
      (if truthy_list inc then str_in tool_name (default [] inc) else true)
      = true
      <-> default [] inc = [] \/ In tool_name (default [] inc)).
    { destruct inc as [[|i ins]|]; cbn [truthy_list default].
      - split; auto.
      - rewrite str_in_In. split; [auto|].
        intros [H|H]; [discriminate|exact H].
      - split; auto. }
    destruct (str_in tool_name (default [] ex)) eqn:E.
    - apply str_in_In in E.
      split; [discriminate|intros [H _]; contradiction].
    - assert (~ In tool_name (default [] ex))
        by (rewrite <- str_in_In; congruence).
      rewrite Hinc. tauto. }
  split; [exact Hiff|].
  intros Hin. apply not_true_iff_false. intros E.
  apply Hiff in E as [Hn _]. contradiction.
Qed.

Lemma fold_del_filter {V} (names : list string) (d : dict V) :
  fold_left del names d
  = List.filter (fun kv => negb (str_in (fst kv) names)) d.
Proof.
  revert d. induction names as [|n rest IH]; intros d; simpl.
  - induction d as [|kv d IHd]; simpl; [reflexivity|]. now rewrite <- IHd.
  - rewrite IH. unfold del. clear IH.
    induction d as [|kv d IHd]; simpl; [reflexivity|].
    rewrite (String.eqb_sym (fst kv) n).
    destruct (String.eqb n (fst kv)); simpl.
    + exact IHd.
    + destruct (str_in (fst kv) rest); simpl; [exact IHd|].
      now rewrite IHd.
Qed.

Lemma filter_ext_in_bool {A} (f g : A -> bool) (l : list A) :
  (forall x, In x l -> f x = g x) -> List.filter f l = List.filter g l.
Proof.
  induction l as [|a l IH]; simpl; intros H; [reflexivity|].
  rewrite (H a) by now left.
  rewrite IH by (intros x Hx; apply H; now right). reflexivity.
Qed.

Lemma NoDup_keys_eq {V} (d : dict V) kv kv' :
  NoDup (map fst d) -> In kv d -> In kv' d -> fst kv = fst kv' -> kv = kv'.
Proof.
  induction d as [|a d IH]; simpl; intros Hnd Hin Hin' E; [destruct Hin|].
  apply NoDup_cons in Hnd as [Hna Hnd].
  destruct Hin as [->|Hin], Hin' as [->|Hin']; auto.
  - destruct Hna. rewrite E. apply list_elem_of_In. now apply in_map.
  - destruct Hna. rewrite <- E. apply list_elem_of_In. now apply in_map.
Qed.

Lemma remove_server_tools_registered name self tool_registry :
  NoDup (map fst (registered_tools self)) ->
  registered_tools (fst (remove_server_tools name self tool_registry))
  = List.filter (fun kv => negb (String.eqb (server_name (snd kv)) name))
                (registered_tools self).
Proof.
  intros Hnd. unfold remove_server_tools.
  rewrite RegistryFacts.unregister_loop_registered. cbn [fst].
  rewrite fold_del_filter. apply filter_ext_in_bool.
  intros kv Hin. f_equal.
  destruct (String.eqb (server_name (snd kv)) name) eqn:E.
  - apply str_in_In. apply in_map_iff. exists kv. split; [reflexivity|].
    apply list_elem_of_In, list_elem_of_filter. split; [exact E|].
    now apply list_elem_of_In.
  - apply not_true_iff_false. intros Hs. apply str_in_In in Hs.
    apply in_map_iff in Hs as (kv' & Hk & Hin').
    apply list_elem_of_In, list_elem_of_filter in Hin' as [E' Hin'].
    apply list_elem_of_In in Hin'.
    assert (kv' = kv) by (eapply NoDup_keys_eq; eauto). subst kv'.
    congruence.
Qed.

(** X8.  Removing a server from the MCP registry (the keys of
    [registered_tools] being distinct, as those of a dictionary are):
    the adapters of that server are forgotten, those of every other
    server are kept in their order, and a lookup by name still finds
    exactly the adapters of the other servers. *)
Theorem remove_server_forgets_only_its_tools
    (name : string) (self : MCPRegistry) (tool_registry : ToolRegistry) :
  NoDup (map fst (registered_tools self)) ->
  let self' := fst (remove_server_tools name self tool_registry) in
  get_server_tools name self' = []
  /\ (forall other, other <> name ->
                    get_server_tools other self' = get_server_tools other self)
  /\ (forall tool adapter,
        get_tool_by_name tool self' = Some adapter
        <-> get_tool_by_name tool self = Some adapter
            /\ server_name adapter <> name).
Proof.
  intros Hnd self'.
  assert (Hreg : registered_tools self'
                 = List.filter
                     (fun kv => negb (String.eqb (server_name (snd kv)) name))
                     (registered_tools self))
    by now apply remove_server_tools_registered.
  unfold get_server_tools, get_tool_by_name. rewrite Hreg. clear Hreg self'.
  split; [|split].
  - clear Hnd.
    induction (registered_tools self) as [|kv d IH]; simpl; [reflexivity|].
    destruct (String.eqb (server_name (snd kv)) name) eqn:E; simpl;
      [exact IH|]. rewrite E. exact IH.
  - intros other Hne. clear Hnd.
    induction (registered_tools self) as [|kv d IH]; simpl; [reflexivity|].
    destruct (String.eqb (server_name (snd kv)) name) eqn:E; simpl.
    + apply String.eqb_eq in E.
      destruct (String.eqb (server_name (snd kv)) other) eqn:E'.
      * apply String.eqb_eq in E'. congruence.
      * exact IH.
    + destruct (String.eqb (server_name (snd kv)) other); simpl;
        now rewrite IH.
  - intros tool adapter.
    induction (registered_tools self) as [|[k a] d IH]; simpl.
    + split; [discriminate|intros [? _]; discriminate].
    + apply NoDup_cons in Hnd as [Hk Hnd]. specialize (IH Hnd).
      destruct (String.eqb (server_name a) name) eqn:E; simpl.
      * destruct (String.eqb k tool) eqn:Ek.
        -- apply String.eqb_eq in Ek. subst k. split.
           ++ intros Hg. apply IH in Hg as [Hg _]. destruct Hk.
              apply list_elem_of_In. apply SanitizerFacts.get_In in Hg.
              now apply (in_map fst) in Hg.
           ++ intros [[= ->] Hne]. apply String.eqb_eq in E. contradiction.
        -- exact IH.
      * destruct (String.eqb k tool) eqn:Ek; [|exact IH].
        apply String.eqb_neq in E. split.
        -- intros [= ->]. auto.
        -- intros [H _]. exact H.
Qed.

(** X9.  A discovered tool that is registered is found again: by
    name in the MCP registry and among the tools of its server, by name
    in the tool registry, under the capability [EXTERNAL] and under the
    tags ["mcp"], ["external"] and the name of its server, with
    priority 60. *)
Theorem register_discovered_tool_is_found
    (adapter : MCPToolAdapter) (capability_hints : gset ToolCapability)
    (self : MCPRegistry) (tool_registry : ToolRegistry) :
  let name := tool_name (adapter_tool adapter) in
  let st := register_discovered_tool adapter capability_hints
              (self, tool_registry) in
  get_tool_by_name name (fst st) = Some adapter
  /\ In adapter (get_server_tools (server_name adapter) (fst st))
  /\ get_tool name (snd st) = Some (adapter_tool adapter)
  /\ name ∈ listed (_capability_index (snd st)) EXTERNAL
  /\ (forall t, In t ["mcp"; "external"; server_name adapter] ->
                name ∈ listed (_tag_index (snd st)) t)
  /\ (exists info, get_tool_info name (snd st) = Some info
                   /\ priority info = 60%Z)
  /\ (forall other, other <> name ->
                    get_tool_by_name other (fst st)
                    = get_tool_by_name other self).
Proof.
  cbv zeta. unfold register_discovered_tool. cbn [fst snd].
  unfold get_tool_by_name, get_tool, get_tool_info, get_server_tools.
  cbn [registered_tools].
  split; [apply get_set_eq|]. split.
  { apply in_map_iff. exists (tool_name (adapter_tool adapter), adapter).
    split; [reflexivity|]. apply filter_In. split.
    - apply SanitizerFacts.get_In. apply get_set_eq.
    - apply String.eqb_refl. }
  split; [now rewrite get_register, String.eqb_refl|]. split.
  { rewrite listed_capability_register.
    destruct (decide (EXTERNAL ∈ ({[EXTERNAL]} ∪ capability_hints
                                  : gset ToolCapability)));
      set_solver. }
  split.
  { intros t Ht. rewrite listed_tag_register. cbn [default].
    match goal with |- context [decide ?P] => destruct (decide P) as [|Hn] end;
      [set_solver|].
    destruct Hn. simpl in Ht. set_solver. }
  split.
  { rewrite get_register, String.eqb_refl. eexists. split; reflexivity. }
  intros other Hne. apply get_set_ne. congruence.
Qed.

(** *** A registry with three tools *)

Definition three_tools : ToolRegistry :=
  register_tool SchedulerFacts.echo_tool {[EXTERNAL; READ]}
    (Some {["mcp"]}) 60 None
    (register_tool SchedulerFacts.delete_file_tool {[WRITE]} None 50 None
       (register_tool SchedulerFacts.now_tool {[READ]}
          (Some {["clock"]}) 50 None new_registry)).

Lemma three_tools_Built : Built three_tools.
Proof. unfold three_tools. repeat apply Built_register. apply Built_new. Defined.

Lemma elements_spec (s : gset string) : elements s ≡ₚ elements s.
Proof. reflexivity. Defined.

Lemma get_tools_by_capability_returns_sorted_witness :
  Built three_tools
  /\ exists infos,
      get_tools_by_capability elements READ 0 three_tools
      = Returns (map info_tool infos)
      /\ StronglySorted desc infos.
Proof.
  split; [exact three_tools_Built|].
  destruct (get_tools_by_capability_returns_sorted elements elements_spec
              READ 0 three_tools three_tools_Built)
    as (infos & H1 & H2 & _).
  exists infos. split; [exact H1|exact H2].
Defined.

Lemma get_tools_by_tag_returns_sorted_witness :
  Built three_tools
  /\ exists infos,
      get_tools_by_tag elements "mcp" three_tools
      = Returns (map info_tool infos)
      /\ StronglySorted desc infos.
Proof.
  split; [exact three_tools_Built|].
  destruct (get_tools_by_tag_returns_sorted elements elements_spec
              "mcp" three_tools three_tools_Built)
    as (infos & H1 & H2 & _).
  exists infos. split; [exact H1|exact H2].
Defined.

Lemma get_tools_by_capabilities_all_or_any_witness :
  Built three_tools
  /\ [READ; EXTERNAL] <> []
  /\ get_tools_by_capabilities elements [] true three_tools = Returns []
  /\ exists infos,
      get_tools_by_capabilities elements [READ; EXTERNAL] true three_tools
      = Returns (map info_tool infos)
      /\ StronglySorted desc infos.
Proof.
  assert (Hne : [READ; EXTERNAL] <> []) by discriminate.
  split; [exact three_tools_Built|]. split; [exact Hne|].
  destruct (get_tools_by_capabilities_all_or_any elements elements_spec
              [READ; EXTERNAL] true three_tools three_tools_Built)
    as (H0 & H).
  split; [exact H0|].
  destruct (H Hne) as (infos & H1 & H2 & _).
  exists infos. split; [exact H1|exact H2].
Defined.

(** The tool [now], registered again with the capability [WRITE] only. *)
Lemma register_tool_keeps_old_index_entries_witness :
  Built three_tools
  /\ (tool_name SchedulerFacts.now_tool
        ∈ listed (_capability_index three_tools) READ)
  /\ (READ ∉ ({[WRITE]} : gset ToolCapability))
  /\ (0 <= 50)%Z
  /\ exists tools,
      get_tools_by_capability elements READ 0
        (register_tool SchedulerFacts.now_tool {[WRITE]} None 50 None
           three_tools)
      = Returns tools
      /\ In SchedulerFacts.now_tool tools.
Proof.
  assert (H1 : tool_name SchedulerFacts.now_tool
                 ∈ listed (_capability_index three_tools) READ).
  { unfold three_tools. rewrite !listed_capability_register.
    repeat match goal with
           | |- context [decide ?P] => destruct (decide P)
           end; set_solver. }
  assert (H2 : READ ∉ ({[WRITE]} : gset ToolCapability)) by set_solver.
  assert (H3 : (0 <= 50)%Z) by lia.
  split; [exact three_tools_Built|]. split; [exact H1|].
  split; [exact H2|]. split; [exact H3|].
  exact (proj2 (proj2 (proj2
           (register_tool_keeps_old_index_entries elements elements_spec
              SchedulerFacts.now_tool {[WRITE]} None 50 None three_tools
              READ 0 three_tools_Built H1 H2 H3)))).
Defined.

Lemma get_function_declarations_by_priority_witness :
  get_function_declarations SanitizerFacts.grep_registry
    SanitizerFacts.grep_schema
  = Sanitizer.Finished
      ([{| decl_name := "grep";
           decl_description := "search file contents";
           decl_parameters := Some 5 |}],
       SanitizerFacts.grep_schema_after)
  /\ exists infos,
      infos ≡ₚ map snd (tools SanitizerFacts.grep_registry)
      /\ map decl_name
           [{| decl_name := "grep";
               decl_description := "search file contents";
               decl_parameters := Some 5 |}]
         = map (fun i => tool_name (info_tool i)) infos.
Proof.
  split; [exact SanitizerFacts.grep_declarations|].
  destruct (get_function_declarations_by_priority _ _ _ _
              SanitizerFacts.grep_declarations)
    as (infos & H1 & _ & _ & H4 & _).
  exists infos. split; [exact H1|exact H4].
Defined.

Definition one_server : MCPRegistry :=
  {| registered_tools := [("srv__echo", RegistryFacts.echo_adapter)] |}.

Lemma remove_server_forgets_only_its_tools_witness :
  NoDup (map fst (registered_tools one_server))
  /\ get_server_tools "srv"
       (fst (remove_server_tools "srv" one_server three_tools)) = [].
Proof.
  assert (H : NoDup (map fst (registered_tools one_server)))
    by apply NoDup_singleton.
  split; [exact H|].
  exact (proj1 (remove_server_forgets_only_its_tools "srv" one_server
                  three_tools H)).
Defined.

End RegistryQueryFacts.

(** * Runs of the scheduler: what every operation preserves *)

Module SchedulerRunFacts.
Import Py ToolTypes Scheduler SchedulerFacts.

(** The arguments with which the scheduler calls [_set_status]: a
    response passed with a terminal status carries the id of the call. *)
Inductive set_status_call : string -> string -> Details -> Prop :=
| call_executing id : set_status_call id "executing" DNone
| call_scheduled id : set_status_call id "scheduled" DNone
| call_awaiting id cd :
    set_status_call id "awaiting_approval" (DConfirmation cd)
| call_error id r :
    response_call_id r = id -> set_status_call id "error" (DResponse r)
| call_success id r :
    response_call_id r = id -> set_status_call id "success" (DResponse r)
| call_cancelled id :
    set_status_call id "cancelled" (DResponse (cancel_response id)).

(** [quiet s s']: from [s] to [s'] neither the calls nor the callbacks
    changed, and only output updates were reported. *)
Record quiet (s s' : ToolScheduler) : Prop := {
  quiet_calls : tool_calls s' = tool_calls s;
  quiet_retired : retired s' = retired s;
  quiet_complete : on_all_tools_complete s' = on_all_tools_complete s;
  quiet_update : on_tool_calls_update s' = on_tool_calls_update s;
  quiet_events :
    exists outs, events s' = events s ++ outs /\ Forall is_output outs
}.

(** The calls that [schedule] creates. *)
Definition new_call (c : ToolCall) : Prop :=
  (exists req t st, c = ValidatingToolCall req (Some t) (Some st))
  \/ (exists req e,
         c = ErroredToolCall req (DResponse (error_response req e e)) 0).

Lemma quiet_refl s : quiet s s.
Proof.
  split; try reflexivity. exists []. split; [now rewrite app_nil_r|constructor].
Qed.

Lemma quiet_trans s1 s2 s3 : quiet s1 s2 -> quiet s2 s3 -> quiet s1 s3.
Proof.
  intros [A1 A2 A3 A4 (o1 & E1 & F1)] [B1 B2 B3 B4 (o2 & E2 & F2)].
  split; try congruence.
  exists (o1 ++ o2). split.
  - rewrite E2, E1. now rewrite app_assoc.
  - apply Forall_app. split; assumption.
Qed.

Lemma quiet_tick s : quiet s (tick s).
Proof.
  split; try reflexivity. exists []. split; [now rewrite app_nil_r|constructor].
Qed.

Lemma quiet_signal b s : quiet s (with_signal_aborted b s).
Proof.
  split; try reflexivity. exists []. split; [now rewrite app_nil_r|constructor].
Qed.

Lemma quiet_update_output id chunk s : quiet s (update_output id chunk s).
Proof.
  unfold update_output. destruct (output_update_handler s);
    [|apply quiet_refl].
  split; try reflexivity. exists [OutputUpdate id chunk].
  split; [reflexivity|]. repeat constructor.
Qed.

Lemma quiet_outputs id chunks s :
  quiet s (fold_left (fun acc chunk => update_output id chunk acc) chunks s).
Proof.
  revert s. induction chunks as [|c rest IH]; intros s; simpl.
  - apply quiet_refl.
  - eapply quiet_trans; [apply quiet_update_output|apply IH].
Qed.

Section WithEnvironment.

Variable convert_to_function_response : string -> string -> ToolResult -> Json.
Variable time_time : nat -> Z.
Variable abort_during : string -> bool.

Abbreviation schedule := (schedule convert_to_function_response time_time abort_during).
Abbreviation _set_status := (_set_status time_time).
Abbreviation execute_scheduled :=
  (execute_scheduled convert_to_function_response time_time abort_during).
Abbreviation execution_loop :=
  (execution_loop convert_to_function_response time_time abort_during).
Abbreviation _attempt_execution_of_scheduled_calls :=
  (_attempt_execution_of_scheduled_calls
     convert_to_function_response time_time abort_during).
Abbreviation handle_confirmation_response :=
  (handle_confirmation_response
     convert_to_function_response time_time abort_during).
Abbreviation step := (step convert_to_function_response time_time abort_during).
Abbreviation run := (run convert_to_function_response time_time abort_during).
Abbreviation outcomes :=
  (outcomes convert_to_function_response time_time abort_during).

(** [moves added s s']: the scheduler got from [s] to [s'] by calls of
    [_set_status], by notifications, by output updates and changes of
    the signal or the clock, by updates of the arguments of a call
    awaiting approval, and by appending new calls, whose ids are
    [added], in this order. *)
Inductive moves : list string -> ToolScheduler -> ToolScheduler -> Prop :=
| moves_done s : moves [] s s
| moves_set_status id st d s added s' :
    set_status_call id st d ->
    moves added (_set_status id st d s) s' -> moves added s s'
| moves_quiet s s1 added s' :
    quiet s s1 -> moves added s1 s' -> moves added s s'
| moves_notify s added s' :
    moves added (_notify_tool_calls_update s) s' -> moves added s s'
| moves_update_args i tc payload s added s' :
    tool_calls s !! i = Some tc -> status tc = "awaiting_approval" ->
    moves added (update_args i tc payload s) s' -> moves added s s'
| moves_extend new s added s' :
    Forall new_call new ->
    moves added (with_tool_calls (tool_calls s ++ new) s) s' ->
    moves (map call_id_of new ++ added) s s'.

Lemma moves_trans a1 a2 s1 s2 s3 :
  moves a1 s1 s2 -> moves a2 s2 s3 -> moves (a1 ++ a2) s1 s3.
Proof.
  induction 1 as [s|id st d s added s' Hc _ IH|s s1 added s' Hq _ IH
                  |s added s' _ IH|i tc p s added s' Hl Hs _ IH
                  |new s added s' Hn _ IH]; intros H2.
  - exact H2.
  - eapply moves_set_status; [exact Hc|now apply IH].
  - eapply moves_quiet; [exact Hq|now apply IH].
  - apply moves_notify. now apply IH.
  - eapply moves_update_args; [exact Hl|exact Hs|now apply IH].
  - rewrite <- app_assoc. apply moves_extend; [exact Hn|now apply IH].
Qed.

Lemma moves_then a s1 s2 s3 :
  moves [] s1 s2 -> moves a s2 s3 -> moves a s1 s3.
Proof. intros H1 H2. exact (moves_trans [] a s1 s2 s3 H1 H2). Qed.

Lemma moves_after a s1 s2 s3 :
  moves a s1 s2 -> moves [] s2 s3 -> moves a s1 s3.
Proof.
  intros H1 H2. rewrite <- (app_nil_r a). exact (moves_trans _ _ _ _ _ H1 H2).
Qed.

Lemma moves_one id st d s :
  set_status_call id st d -> moves [] s (_set_status id st d s).
Proof. intros H. eapply moves_set_status; [exact H|constructor]. Qed.

Lemma execute_scheduled_moves tc s : moves [] s (snd (execute_scheduled tc s)).
Proof.
  unfold Scheduler.execute_scheduled.
  eapply moves_set_status; [apply call_executing|].
  set (s1 := _set_status (call_id (request tc)) "executing" DNone s).
  destruct (tool tc) as [t|].
  - destruct (execute t (args (request tc))
                (signal_aborted s1 || abort_during (call_id (request tc))))
      as [chunks outcome].
    eapply moves_quiet.
    { eapply quiet_trans; [apply quiet_signal|apply quiet_outputs]. }
    destruct outcome as [result|e|e].
    + destruct (truthy_str (error result));
        apply moves_one; constructor; reflexivity.
    + apply moves_one. constructor. reflexivity.
    + constructor.
  - apply moves_one. constructor. reflexivity.
Qed.

(** The list the execution loop walks: the current one, or a retired
    one, all of whose calls are terminal. *)
Definition phase (g : nat) (s : ToolScheduler) : Prop :=
  length (retired s) = g
  \/ (g < length (retired s)
      /\ Forall (fun c => is_terminal c = true)
                (default [] (retired s !! g))).

Lemma execute_scheduled_phase s i tc :
  tool_calls s !! i = Some tc -> status tc = "scheduled" ->
  phase (length (retired s)) (snd (execute_scheduled tc s)).
Proof.
  intros Hl Hs.
  pose proof (status_scheduled_not_terminal _ Hs) as Hnt.
  destruct (execute_scheduled_effect convert_to_function_response time_time
              abort_during s i tc Hl Hnt)
    as (j & tcj & nc1 & evsA & outs & _ & _ & _ & _ & _
        & [(e & _ & _ & _ & _ & Hr)|(_ & nc2 & evsB & _ & _ & _ & _ & _ & Hsw)]).
  - left. now rewrite Hr.
  - inversion Hsw as [_ _ Hr|Hc _ Hr].
    + left. now rewrite Hr.
    + right. rewrite Hr. split.
      * rewrite length_app. simpl. lia.
      * rewrite lookup_app_r by lia. rewrite Nat.sub_diag. simpl.
        now apply sweep_condition_terminal.
Qed.

Lemma execution_loop_moves n g i s :
  phase g s -> moves [] s (snd (execution_loop n g i s)).
Proof.
  revert i s. induction n as [|n IH]; intros i s Hp; simpl; [constructor|].
  destruct (list_object g s !! i) as [tc|] eqn:Hl; [|constructor].
  destruct (String.eqb (status tc) "scheduled") eqn:E; [|now apply IH].
  apply String.eqb_eq in E. unfold list_object in Hl.
  destruct Hp as [Hg|[Hg Ht]].
  - rewrite <- Hg, Nat.eqb_refl in Hl.
    pose proof (execute_scheduled_moves tc s) as Hm.
    pose proof (execute_scheduled_phase s i tc Hl E) as Hp.
    destruct (execute_scheduled tc s) as [[[]|e|e] s']; simpl in *;
      try exact Hm.
    eapply moves_then; [exact Hm|]. apply IH. now rewrite <- Hg.
  - destruct (Nat.eqb g (length (retired s))) eqn:Eg.
    { apply Nat.eqb_eq in Eg. lia. }
    exfalso. rewrite List.Forall_forall in Ht.
    assert (Hin : In tc (default [] (retired s !! g)))
      by (apply list_elem_of_In; eapply list_elem_of_lookup_2; eauto).
    specialize (Ht tc Hin). unfold is_terminal in Ht.
    rewrite E in Ht. discriminate.
Qed.

Lemma attempt_execution_moves s :
  moves [] s (snd (_attempt_execution_of_scheduled_calls s)).
Proof. apply execution_loop_moves. now left. Qed.

Lemma validate_call_moves tc s :
  moves [] s (snd (validate_call time_time tc s)).
Proof.
  unfold validate_call.
  destruct (negb (String.eqb (status tc) "validating")); [constructor|].
  match goal with
  | |- context [match ?o with Returns _ => _ | Raises _ => _
                            | RaisesBase _ => _ end] =>
      destruct o as [[cd|]|e|e]
  end; try (apply moves_one; constructor; reflexivity).
  constructor.
Qed.

Lemma validation_loop_moves new s :
  moves [] s (snd (validation_loop time_time new s)).
Proof.
  revert s. induction new as [|c rest IH]; intros s; simpl; [constructor|].
  pose proof (validate_call_moves c s) as Hm.
  destruct (validate_call time_time c s) as [[[]|e|e] s']; simpl in *;
    try exact Hm.
  eapply moves_then; [exact Hm|apply IH].
Qed.

Lemma create_calls_new registry requests s new s1 :
  create_calls time_time registry requests s = (new, s1) ->
  quiet s s1 /\ Forall new_call new
  /\ map call_id_of new = batch_ids requests.
Proof.
  revert s new s1. induction requests as [|req rest IH]; intros s new s1; simpl.
  - intros [= <- <-]. split; [apply quiet_refl|]. split; [constructor|reflexivity].
  - destruct (Registry.get_tool (name req) registry) as [t|].
    + destruct (create_calls time_time registry rest (tick s))
        as [calls s2] eqn:E.
      intros [= <- <-]. destruct (IH _ _ _ E) as (Hq & Hn & Hi).
      split; [eapply quiet_trans; [apply quiet_tick|exact Hq]|].
      split.
      * apply List.Forall_cons; [|exact Hn]. left. eauto.
      * simpl. now rewrite Hi.
    + destruct (create_calls time_time registry rest s) as [calls s2] eqn:E.
      intros [= <- <-]. destruct (IH _ _ _ E) as (Hq & Hn & Hi).
      split; [exact Hq|]. split.
      * apply List.Forall_cons; [|exact Hn]. right. eauto.
      * simpl. now rewrite Hi.
Qed.

(** The ids of the requests an operation adds to the scheduler. *)
Definition accepted (op : Operation) (s : ToolScheduler) : list string :=
  match op with
  | Schedule requests =>
      if _is_running s then [] else batch_ids requests
  | _ => []
  end.

Fixpoint accepted_run (ops : list Operation) (s : ToolScheduler)
  : list string :=
  match ops with
  | [] => []
  | op :: rest => accepted op s ++ accepted_run rest (step op s)
  end.

Lemma schedule_moves requests s :
  moves (accepted (Schedule requests) s) s (snd (schedule requests s)).
Proof.
  unfold Scheduler.schedule, accepted.
  destruct (_is_running s); [constructor|].
  match goal with
  | |- context [create_calls time_time ?r requests s] =>
      destruct (create_calls time_time r requests s) as [new s1] eqn:E
  end.
  destruct (create_calls_new _ _ _ _ _ E) as (Hq & Hn & Hi).
  eapply moves_quiet; [exact Hq|].
  rewrite <- Hi, <- (app_nil_r (map call_id_of new)).
  apply moves_extend; [exact Hn|]. apply moves_notify.
  match goal with
  | |- context [validation_loop time_time new ?x] =>
      pose proof (validation_loop_moves new x) as Hm;
      destruct (validation_loop time_time new x) as [[[]|e|e] s2]
  end; simpl in *; try exact Hm.
  eapply moves_then; [exact Hm|apply attempt_execution_moves].
Qed.

Lemma handle_confirmation_response_moves id outcome payload s :
  moves [] s (snd (handle_confirmation_response id outcome payload s)).
Proof.
  unfold Scheduler.handle_confirmation_response.
  destruct (find_awaiting id 0 (tool_calls s)) as [[i tc]|] eqn:Hf;
    [|constructor].
  apply find_awaiting_Some in Hf as (k & -> & Hl & Hid & Hs). simpl.
  destruct (String.eqb outcome "cancel" || signal_aborted s).
  { eapply moves_set_status; [constructor|apply attempt_execution_moves]. }
  destruct (String.eqb outcome "modify_with_editor" && truthy_payload payload).
  { eapply moves_update_args; [exact Hl|exact Hs|].
    eapply moves_set_status; [constructor|apply attempt_execution_moves]. }
  match goal with |- context [if ?b then _ else _] => destruct b end.
  - eapply moves_set_status; [constructor|apply attempt_execution_moves].
  - apply attempt_execution_moves.
Qed.

Lemma step_moves op s : moves (accepted op s) s (step op s).
Proof.
  destruct op as [requests|id outcome payload| |]; unfold Scheduler.step;
    simpl.
  - apply schedule_moves.
  - apply handle_confirmation_response_moves.
  - eapply moves_quiet; [apply quiet_signal|constructor].
  - eapply moves_quiet; [apply quiet_signal|constructor].
Qed.

Lemma run_moves ops s : moves (accepted_run ops s) s (run ops s).
Proof.
  revert s. induction ops as [|op rest IH]; intros s; simpl; [constructor|].
  eapply moves_trans; [apply step_moves|apply IH].
Qed.

(** *** One [_set_status], step by step *)

Lemma set_status_cases id st d s :
  (exists i tc nc s1,
      target id (tool_calls s) = Some (i, tc)
      /\ new_call_for time_time st tc d s = Some (nc, s1)
      /\ _set_status id st d s
         = _check_and_notify_completion
             (_notify_tool_calls_update (assign i tc nc s1)))
  \/ _set_status id st d s
     = _check_and_notify_completion (_notify_tool_calls_update s).
Proof.
  unfold Scheduler._set_status.
  rewrite (set_status_loop_target time_time id st d 0 (tool_calls s) s).
  destruct (target id (tool_calls s)) as [[j tc]|] eqn:Ht; [|now right].
  destruct (new_call_for time_time st tc d s) as [[nc s1]|] eqn:Hn;
    [|now right].
  left. exists j, tc, nc, s1. auto.
Qed.

Lemma ids_insert (calls : list ToolCall) i tc nc :
  calls !! i = Some tc -> call_id_of nc = call_id_of tc ->
  map call_id_of (<[i := nc]> calls) = map call_id_of calls.
Proof.
  intros Hl Hid. change (call_id_of <$> <[i := nc]> calls = call_id_of <$> calls).
  rewrite list_fmap_insert, Hid. apply list_insert_id.
  now rewrite list_lookup_fmap, Hl.
Qed.

(** *** The ledger of call ids *)

(** The ids handed to [on_all_tools_complete] so far, in order. *)
Definition reported (evs : list Event) : list string :=
  concat (map (map call_id_of) (completed_batches evs)).

(** The ids reported so far followed by those still in [tool_calls]. *)
Definition ledger (s : ToolScheduler) : list string :=
  reported (events s) ++ map call_id_of (tool_calls s).

Lemma reported_app evs1 evs2 :
  reported (evs1 ++ evs2) = reported evs1 ++ reported evs2.
Proof.
  unfold reported, completed_batches.
  now rewrite flat_map_app, map_app, concat_app.
Qed.

Lemma reported_outputs outs : Forall is_output outs -> reported outs = [].
Proof.
  induction 1 as [|e outs He _ IH]; [reflexivity|].
  change (e :: outs) with ([e] ++ outs). rewrite reported_app, IH.
  destruct e; try destruct He; reflexivity.
Qed.

Lemma notify_ledger s :
  ledger (_notify_tool_calls_update s) = ledger s
  /\ on_all_tools_complete (_notify_tool_calls_update s)
     = on_all_tools_complete s.
Proof.
  unfold _notify_tool_calls_update, ledger.
  destruct (on_tool_calls_update s); [|auto].
  simpl. rewrite reported_app. simpl. now rewrite app_nil_r.
Qed.

Lemma sweep_ledger s :
  on_all_tools_complete s = true ->
  ledger (_check_and_notify_completion s) = ledger s
  /\ on_all_tools_complete (_check_and_notify_completion s) = true.
Proof.
  intros Hc. destruct (sweep_condition (tool_calls s)) eqn:E.
  - rewrite (sweep_fired s E), Hc.
    destruct (notify_ledger (emit (AllToolsComplete (tool_calls s))
                               (rebind_tool_calls s))) as [-> ->].
    split; [|exact Hc]. unfold ledger. simpl.
    rewrite reported_app. unfold reported at 2. simpl.
    now rewrite !app_nil_r.
  - now rewrite (sweep_not_fired s E).
Qed.

Lemma assign_ledger id st d s i tc nc s1 :
  target id (tool_calls s) = Some (i, tc) ->
  new_call_for time_time st tc d s = Some (nc, s1) ->
  ledger (assign i tc nc s1) = ledger s
  /\ on_all_tools_complete (assign i tc nc s1) = on_all_tools_complete s.
Proof.
  intros Ht Hn. apply target_Some in Ht as (Hl & _ & _).
  apply new_call_for_Some in Hn
    as (_ & _ & Hreq & Hcalls & _ & Hev & _ & _ & Hcb).
  unfold ledger, assign. simpl. rewrite Hev, Hcalls, reported_app. simpl.
  rewrite app_nil_r. split; [|exact Hcb]. f_equal.
  apply (ids_insert _ i tc nc Hl). unfold call_id_of. now rewrite Hreq.
Qed.

Lemma set_status_ledger id st d s :
  on_all_tools_complete s = true ->
  ledger (_set_status id st d s) = ledger s
  /\ on_all_tools_complete (_set_status id st d s) = true.
Proof.
  intros Hc.
  destruct (set_status_cases id st d s)
    as [(i & tc & nc & s1 & Ht & Hn & ->)| ->].
  - destruct (assign_ledger id st d s i tc nc s1 Ht Hn) as [H1 H2].
    destruct (notify_ledger (assign i tc nc s1)) as [H3 H4].
    destruct (sweep_ledger (_notify_tool_calls_update (assign i tc nc s1)))
      as [H5 H6]; [congruence|].
    split; [congruence|exact H6].
  - destruct (notify_ledger s) as [H3 H4].
    destruct (sweep_ledger (_notify_tool_calls_update s)) as [H5 H6];
      [congruence|].
    split; [congruence|exact H6].
Qed.

Lemma moves_ledger added s s' :
  moves added s s' ->
  on_all_tools_complete s = true ->
  ledger s' = ledger s ++ added /\ on_all_tools_complete s' = true.
Proof.
  induction 1 as [s|id st d s added s' Hc _ IH|s s1 added s' Hq _ IH
                  |s added s' _ IH|i tc p s added s' Hl Hs _ IH
                  |new s added s' Hn _ IH]; intros Hcb.
  - now rewrite app_nil_r.
  - destruct (set_status_ledger id st d s Hcb) as [H1 H2].
    destruct (IH H2) as [H3 H4]. split; [congruence|exact H4].
  - destruct Hq as [Q1 Q2 Q3 Q4 (outs & Q5 & Q6)].
    destruct IH as [H3 H4]; [congruence|]. split; [|exact H4].
    rewrite H3. unfold ledger. rewrite Q5, Q1, reported_app.
    now rewrite (reported_outputs outs Q6), app_nil_r.
  - destruct (notify_ledger s) as [H1 H2].
    destruct IH as [H3 H4]; [congruence|]. split; [congruence|exact H4].
  - destruct IH as [H3 H4]; [exact Hcb|]. split; [|exact H4].
    rewrite H3. unfold ledger, update_args. simpl. do 2 f_equal.
    apply (ids_insert _ i tc _ Hl). unfold call_id_of.
    now rewrite with_request_request.
  - destruct IH as [H3 H4]; [exact Hcb|]. split; [|exact H4].
    rewrite H3. unfold ledger. simpl. rewrite map_app.
    now rewrite <- !app_assoc.
Qed.

(** X10.  No call is lost or reported twice.  When the completion
    callback is given, after any sequence of operations the ids handed
    to [on_all_tools_complete] so far, followed by the ids of the calls
    still in [tool_calls], are the ids that were there before followed
    by the ids of the requests accepted since, in the order of their
    scheduling. *)
Theorem no_call_is_lost_or_reported_twice
    (ops : list Operation) (s : ToolScheduler) :
  on_all_tools_complete s = true ->
  reported (events (run ops s)) ++ map call_id_of (tool_calls (run ops s))
  = (reported (events s) ++ map call_id_of (tool_calls s))
      ++ accepted_run ops s.
Proof.
  intros Hcb.
  exact (proj1 (moves_ledger _ _ _ (run_moves ops s) Hcb)).
Qed.

(** *** Responses carry the id of their request *)

(** A terminal call has a response, and the response names the call. *)
Definition answers (c : ToolCall) : Prop :=
  is_terminal c = true ->
  exists r, response c = DResponse r
            /\ response_call_id r = call_id (request c).

Definition answered_event (e : Event) : Prop :=
  match e with
  | ToolCallsUpdate l | AllToolsComplete l => Forall answers l
  | Assigned _ _ new => answers new
  | OutputUpdate _ _ => True
  end.

Definition answered (s : ToolScheduler) : Prop :=
  Forall answers (tool_calls s) /\ Forall answered_event (events s).

Lemma open_call_answers c : is_terminal c = false -> answers c.
Proof. intros H Ht. congruence. Qed.

Lemma new_call_for_answers id st d tc s nc s1 :
  set_status_call id st d -> call_id (request tc) = id ->
  new_call_for time_time st tc d s = Some (nc, s1) ->
  answers nc.
Proof.
  intros Hc Hid Hn. unfold new_call_for in Hn.
  destruct Hc as [id|id|id cd|id r Hr|id r Hr|id]; simpl in Hn;
    try (injection Hn as <- _; apply open_call_answers; reflexivity);
    destruct (duration_ms_since time_time (start_time tc) s) as [dur s2];
    injection Hn as <- _; intros _; eexists; (split; [reflexivity|]);
    simpl; congruence.
Qed.

Lemma after_loop_event_answered calls e :
  Forall answers calls -> after_loop_event calls e -> answered_event e.
Proof.
  intros Hc. destruct e as [l|l| |]; simpl; try tauto.
  - intros [->| ->]; [exact Hc|constructor].
  - intros [-> _]. exact Hc.
Qed.

Lemma notify_answered s : answered s -> answered (_notify_tool_calls_update s).
Proof.
  intros [Hc He]. destruct (notify_effect s) as (evs & E & F & C & _).
  split; [now rewrite C|]. rewrite E. apply Forall_app. split; [exact He|].
  eapply Forall_impl; [exact F|]. intros e. now apply after_loop_event_answered.
Qed.

Lemma sweep_answered s :
  answered s -> answered (_check_and_notify_completion s).
Proof.
  intros [Hc He]. destruct (sweep_effect_of s) as (evs & E & F & Hsw & _).
  split.
  - inversion Hsw as [_ -> _|_ -> _]; [exact Hc|constructor].
  - rewrite E. apply Forall_app. split; [exact He|].
    eapply Forall_impl; [exact F|]. intros e.
    now apply after_loop_event_answered.
Qed.

Lemma set_status_answered id st d s :
  set_status_call id st d -> answered s -> answered (_set_status id st d s).
Proof.
  intros Hcall [Hc He].
  destruct (set_status_cases id st d s)
    as [(i & tc & nc & s1 & Ht & Hn & ->)| ->].
  - apply sweep_answered, notify_answered.
    apply target_Some in Ht as (Hl & Hid & _).
    pose proof (new_call_for_answers id st d tc s nc s1 Hcall Hid Hn) as Ha.
    apply new_call_for_Some in Hn as (_ & _ & _ & Hcalls & _ & Hev & _).
    split; unfold assign; simpl.
    + rewrite Hcalls. now apply Forall_insert.
    + rewrite Hev. apply Forall_app. split; [exact He|].
      apply List.Forall_cons; [exact Ha|constructor].
  - now apply sweep_answered, notify_answered.
Qed.

Lemma new_call_answers c : new_call c -> answers c.
Proof.
  intros [(req & t & st & ->)|(req & e & ->)].
  - apply open_call_answers. reflexivity.
  - intros _. eexists. split; reflexivity.
Qed.

Lemma moves_answered added s s' : moves added s s' -> answered s -> answered s'.
Proof.
  induction 1 as [s|id st d s added s' Hc _ IH|s s1 added s' Hq _ IH
                  |s added s' _ IH|i tc p s added s' Hl Hs _ IH
                  |new s added s' Hn _ IH]; intros Ha.
  - exact Ha.
  - apply IH. now apply set_status_answered.
  - apply IH. destruct Ha as [Hc He].
    destruct Hq as [Q1 _ _ _ (outs & Q5 & Q6)].
    split; [now rewrite Q1|]. rewrite Q5. apply Forall_app.
    split; [exact He|]. eapply Forall_impl; [exact Q6|].
    intros e. destruct e; simpl; tauto.
  - apply IH. now apply notify_answered.
  - apply IH. destruct Ha as [Hc He]. split; [|exact He].
    unfold update_args. simpl. apply Forall_insert; [exact Hc|].
    apply open_call_answers. unfold is_terminal.
    now rewrite with_request_status, Hs.
  - apply IH. destruct Ha as [Hc He]. split; [|exact He]. simpl.
    apply Forall_app. split; [exact Hc|].
    eapply Forall_impl; [exact Hn|]. apply new_call_answers.
Qed.

(** X11.  In every run that starts without calls, each terminal call
    shown to a listener or handed to [on_all_tools_complete] has a
    response, and the [call_id] of the response is the [call_id] of the
    request of the call. *)
Theorem terminal_calls_answer_their_request
    (ops : list Operation) (s0 : ToolScheduler) :
  tool_calls s0 = [] -> events s0 = [] ->
  forall l c,
    In (AllToolsComplete l) (events (run ops s0))
    \/ In (ToolCallsUpdate l) (events (run ops s0))
    \/ l = tool_calls (run ops s0) ->
    In c l -> is_terminal c = true ->
    exists r, response c = DResponse r
              /\ response_call_id r = call_id (request c).
Proof.
  intros Hc He l c Hl Hin Ht.
  assert (Ha : answered s0).
  { split; [rewrite Hc|rewrite He]; constructor. }
  destruct (moves_answered _ _ _ (run_moves ops s0) Ha) as [Hcalls Hevs].
  rewrite List.Forall_forall in Hevs.
  assert (Hall : Forall answers l).
  { destruct Hl as [Hl|[Hl| ->]]; [| |exact Hcalls].
    - exact (Hevs _ Hl).
    - exact (Hevs _ Hl). }
  rewrite List.Forall_forall in Hall. exact (Hall c Hin Ht).
Qed.

(** *** Every assignment is shown to the listeners *)

(** Each assignment in a trace is directly followed by a notification
    of a list that holds the new call at the position assigned. *)
Definition notified (evs : list Event) : Prop :=
  forall k i old new,
    evs !! k = Some (Assigned i old new) ->
    exists l, evs !! S k = Some (ToolCallsUpdate l) /\ l !! i = Some new.

Definition no_assignment (e : Event) : Prop :=
  match e with Assigned _ _ _ => False | _ => True end.

Lemma notified_app evs chunk :
  notified evs -> notified chunk -> notified (evs ++ chunk).
Proof.
  intros H1 H2 k i old new Hk.
  destruct (decide (k < length evs)) as [Hlt|Hge].
  - rewrite lookup_app_l in Hk by exact Hlt.
    destruct (H1 k i old new Hk) as (l & Hl & Hi). exists l.
    split; [|exact Hi]. rewrite lookup_app_l; [exact Hl|].
    now apply lookup_lt_Some in Hl.
  - rewrite lookup_app_r in Hk by lia.
    destruct (H2 _ i old new Hk) as (l & Hl & Hi). exists l.
    split; [|exact Hi]. rewrite lookup_app_r by lia.
    now replace (S k - length evs) with (S (k - length evs)) by lia.
Qed.

Lemma notified_no_assignment chunk :
  Forall no_assignment chunk -> notified chunk.
Proof.
  intros H k i old new Hk. rewrite List.Forall_forall in H.
  assert (Hin : In (Assigned i old new) chunk)
    by (apply list_elem_of_In; eapply list_elem_of_lookup_2; eauto).
  destruct (H _ Hin).
Qed.

Lemma after_loop_no_assignment calls evs :
  Forall (after_loop_event calls) evs -> Forall no_assignment evs.
Proof.
  intros H. eapply Forall_impl; [exact H|]. intros e. destruct e; simpl; tauto.
Qed.

Definition listening (s : ToolScheduler) : Prop :=
  on_tool_calls_update s = true /\ notified (events s).

Lemma notify_update s :
  on_tool_calls_update (_notify_tool_calls_update s) = on_tool_calls_update s.
Proof.
  unfold _notify_tool_calls_update.
  destruct (on_tool_calls_update s) eqn:E; simpl; congruence.
Qed.

Lemma sweep_update s :
  on_tool_calls_update (_check_and_notify_completion s)
  = on_tool_calls_update s.
Proof.
  destruct (sweep_condition (tool_calls s)) eqn:E.
  - rewrite (sweep_fired s E), notify_update.
    now destruct (on_all_tools_complete s).
  - now rewrite (sweep_not_fired s E).
Qed.

Lemma notify_listening s : listening s -> listening (_notify_tool_calls_update s).
Proof.
  intros [Hu Hn]. split; [now rewrite notify_update|].
  destruct (notify_effect s) as (evs & E & F & _). rewrite E.
  apply notified_app; [exact Hn|].
  eapply notified_no_assignment, after_loop_no_assignment, F.
Qed.

Lemma sweep_listening s :
  listening s -> listening (_check_and_notify_completion s).
Proof.
  intros [Hu Hn]. split; [now rewrite sweep_update|].
  destruct (sweep_effect_of s) as (evs & E & F & _). rewrite E.
  apply notified_app; [exact Hn|].
  eapply notified_no_assignment, after_loop_no_assignment, F.
Qed.

Lemma set_status_listening id st d s :
  listening s -> listening (_set_status id st d s).
Proof.
  intros [Hu Hn].
  destruct (set_status_cases id st d s)
    as [(i & tc & nc & s1 & Ht & Hnc & ->)| ->].
  - apply sweep_listening.
    apply target_Some in Ht as (Hl & _ & _).
    apply new_call_for_Some in Hnc
      as (_ & _ & _ & Hcalls & _ & Hev & _ & Hup & _).
    unfold _notify_tool_calls_update.
    assert (Hu' : on_tool_calls_update (assign i tc nc s1) = true)
      by (simpl; congruence).
    rewrite Hu'. split; [exact Hu'|]. simpl.
    rewrite Hev, Hcalls, <- app_assoc. apply notified_app; [exact Hn|].
    intros k j old new Hk. destruct k as [|[|k]]; simpl in Hk.
    + injection Hk as -> -> ->. eexists. split; [reflexivity|].
      apply list_lookup_insert_eq. now apply lookup_lt_Some in Hl.
    + discriminate.
    + discriminate.
  - apply sweep_listening, notify_listening. now split.
Qed.

Lemma moves_listening added s s' :
  moves added s s' -> listening s -> listening s'.
Proof.
  induction 1 as [s|id st d s added s' Hc _ IH|s s1 added s' Hq _ IH
                  |s added s' _ IH|i tc p s added s' Hl Hs _ IH
                  |new s added s' Hn _ IH]; intros Ha.
  - exact Ha.
  - apply IH. now apply set_status_listening.
  - apply IH. destruct Ha as [Hu Hnot].
    destruct Hq as [_ _ _ Q4 (outs & Q5 & Q6)].
    split; [congruence|]. rewrite Q5. apply notified_app; [exact Hnot|].
    apply notified_no_assignment. eapply Forall_impl; [exact Q6|].
    intros e. destruct e; simpl; tauto.
  - apply IH. now apply notify_listening.
  - apply IH. exact Ha.
  - apply IH. exact Ha.
Qed.

(** X12.  Listeners see every transition: when the listener callback is
    given, in every run each assignment [self.tool_calls[i] = new_call]
    is directly followed by a call of [on_tool_calls_update] with a
    list that holds [new_call] at position [i], before anything else
    is assigned or reported. *)
Theorem every_assignment_is_notified
    (ops : list Operation) (s0 : ToolScheduler) :
  on_tool_calls_update s0 = true -> events s0 = [] ->
  forall k i old new,
    events (run ops s0) !! k = Some (Assigned i old new) ->
    exists l,
      events (run ops s0) !! S k = Some (ToolCallsUpdate l)
      /\ l !! i = Some new.
Proof.
  intros Hu He.
  assert (Hl : listening s0).
  { split; [exact Hu|]. rewrite He. intros k i old new Hk. discriminate. }
  exact (proj2 (moves_listening _ _ _ (run_moves ops s0) Hl)).
Qed.

(** *** A batch with a known tool completes or waits *)

(** The completion sweep has nothing left to do. *)
Definition settled (s : ToolScheduler) : Prop :=
  sweep_condition (tool_calls s) = false.

Lemma sweep_settled s : settled (_check_and_notify_completion s).
Proof.
  unfold settled. destruct (sweep_effect_of s) as (evs & _ & _ & Hsw & _).
  inversion Hsw as [Hc -> _|_ -> _]; [exact Hc|reflexivity].
Qed.

Lemma set_status_settled id st d s : settled (_set_status id st d s).
Proof. unfold Scheduler._set_status. apply sweep_settled. Qed.

Lemma forallb_insert_same {A} (f : A -> bool) (l : list A) i x y :
  l !! i = Some x -> f y = f x -> forallb f (<[i := y]> l) = forallb f l.
Proof.
  intros Hl Hf. revert i Hl.
  induction l as [|a l IH]; intros [|i] Hl; try discriminate; simpl in *.
  - injection Hl as ->. now rewrite Hf.
  - now rewrite (IH i Hl).
Qed.

Lemma existsb_insert_same {A} (f : A -> bool) (l : list A) i x y :
  l !! i = Some x -> f y = f x -> existsb f (<[i := y]> l) = existsb f l.
Proof.
  intros Hl Hf. revert i Hl.
  induction l as [|a l IH]; intros [|i] Hl; try discriminate; simpl in *.
  - injection Hl as ->. now rewrite Hf.
  - now rewrite (IH i Hl).
Qed.

Lemma sweep_condition_insert_same (calls : list ToolCall) i tc nc :
  calls !! i = Some tc -> status nc = status tc ->
  sweep_condition (<[i := nc]> calls) = sweep_condition calls.
Proof.
  intros Hl Hs. unfold sweep_condition. rewrite length_insert.
  rewrite (forallb_insert_same _ _ i tc nc Hl)
    by (unfold is_terminal; now rewrite Hs).
  rewrite !(existsb_insert_same _ _ i tc nc Hl) by now rewrite Hs.
  reflexivity.
Qed.

Lemma moves_settled added s s' :
  moves added s s' -> added = [] -> settled s -> settled s'.
Proof.
  induction 1 as [s|id st d s added s' Hc _ IH|s s1 added s' Hq _ IH
                  |s added s' _ IH|i tc p s added s' Hl Hs _ IH
                  |new s added s' Hn _ IH]; intros Hadd Hset.
  - exact Hset.
  - apply IH; [exact Hadd|]. apply set_status_settled.
  - apply IH; [exact Hadd|]. unfold settled.
    now rewrite (quiet_calls _ _ Hq).
  - apply IH; [exact Hadd|]. unfold settled.
    destruct (notify_effect s) as (_ & _ & _ & -> & _). exact Hset.
  - apply IH; [exact Hadd|]. unfold settled, update_args. simpl.
    rewrite (sweep_condition_insert_same _ i tc); [exact Hset|exact Hl|].
    apply with_request_status.
  - apply app_eq_nil in Hadd as [Hnew ->].
    apply map_eq_nil in Hnew. subst new. apply IH; [reflexivity|].
    unfold settled. simpl. now rewrite app_nil_r.
Qed.

Lemma validation_loop_settled new s :
  Exists (fun c => status c = "validating") new ->
  fst (validation_loop time_time new s) = Returns tt ->
  settled (snd (validation_loop time_time new s)).
Proof.
  intros Hex. revert s.
  induction Hex as [c rest Hc|c rest _ IH]; intros s; simpl.
  - destruct (validate_call_cases time_time c s Hc)
      as [(e & ->)|(st & d & _ & ->)]; [discriminate|].
    intros _.
    eapply moves_settled;
      [apply validation_loop_moves|reflexivity|apply set_status_settled].
  - destruct (validate_call_outcome time_time c s) as [H|(e & H)];
      destruct (validate_call time_time c s) as [o s']; simpl in H; subst o;
      [apply IH|discriminate].
Qed.

Lemma create_calls_validating registry requests s new s1 req :
  create_calls time_time registry requests s = (new, s1) ->
  In req requests -> is_Some (Registry.get_tool (name req) registry) ->
  Exists (fun c => status c = "validating") new.
Proof.
  revert s new s1. induction requests as [|r rest IH]; intros s new s1;
    simpl; [intros _ []|].
  intros Hc Hin Hk.
  destruct (Registry.get_tool (name r) registry) as [t|] eqn:Hg.
  - destruct (create_calls time_time registry rest (tick s)) as [calls s2].
    injection Hc as <- <-. now apply Exists_cons_hd.
  - destruct (create_calls time_time registry rest s) as [calls s2] eqn:E.
    injection Hc as <- <-. apply Exists_cons_tl.
    destruct Hin as [->|Hin].
    + rewrite Hg in Hk. destruct Hk. discriminate.
    + eapply IH; eauto.
Qed.

(** The registry [schedule] looks the tools up in. *)
Definition registry_of (s : ToolScheduler) : Registry.ToolRegistry :=
  match tool_registry s with
  | Some r => r
  | None => config_registry s
  end.

Lemma schedule_settled requests s req :
  _is_running s = false ->
  In req requests ->
  is_Some (Registry.get_tool (name req) (registry_of s)) ->
  fst (schedule requests s) = Returns tt ->
  settled (snd (schedule requests s)).
Proof.
  intros Hrun Hin Hk. unfold Scheduler.schedule. rewrite Hrun.
  fold (registry_of s).
  destruct (create_calls time_time (registry_of s) requests s)
    as [new s1] eqn:E.
  pose proof (create_calls_validating _ _ _ _ _ _ E Hin Hk) as Hex.
  match goal with
  | |- context [validation_loop time_time new ?x] =>
      pose proof (validation_loop_settled new x Hex) as Hs;
      destruct (validation_loop time_time new x) as [[[]|e|e] s2]
  end; simpl in *; try discriminate.
  intros _.
  eapply moves_settled; [apply attempt_execution_moves|reflexivity|].
  now apply Hs.
Qed.

Lemma Boundary_settled s :
  Boundary true s -> settled s ->
  tool_calls s = []
  \/ exists c, c ∈ tool_calls s /\ status c = "awaiting_approval".
Proof.
  intros [_ _ Hb] Hs. specialize (Hb eq_refl). unfold settled in Hs.
  destruct (tool_calls s) as [|c0 calls] eqn:Ec; [now left|]. right.
  destruct (existsb (fun c => String.eqb (status c) "awaiting_approval")
                    (c0 :: calls)) eqn:Ea.
  - apply existsb_exists in Ea as (c & Hin & E).
    exists c. split; [now apply list_elem_of_In|now apply String.eqb_eq].
  - exfalso. rewrite <- not_true_iff_false in Hs. apply Hs.
    apply sweep_condition_spec.
    assert (Hna : Forall (fun c => status c <> "awaiting_approval")
                         (c0 :: calls)).
    { apply List.Forall_forall. intros c Hin E.
      rewrite <- not_true_iff_false in Ea. apply Ea.
      apply existsb_exists. exists c. split; [exact Hin|].
      now apply String.eqb_eq. }
    assert (Ht : Forall (fun c => is_terminal c = true) (c0 :: calls)).
    { rewrite List.Forall_forall in Hb, Hna. apply List.Forall_forall.
      intros c Hin. destruct (Hb c Hin) as [H|H]; [exact H|].
      destruct (Hna c Hin H). }
    split; [discriminate|]. split; [exact Ht|]. split; [exact Hna|].
    eapply Forall_impl; [exact Ht|]. intros c Hc E.
    unfold is_terminal in Hc. rewrite E in Hc. discriminate.
Qed.

Lemma fresh_Boundary s0 :
  tool_calls s0 = [] -> events s0 = [] -> Boundary true s0.
Proof.
  intros Hc He. split; rewrite ?Hc, ?He; try constructor.
Qed.

(** X13.  A batch with at least one known tool is never left
    unfinished when [schedule] returns: in a run that starts without
    calls, the call ids of each batch being distinct and no operation
    having been left by an exception that is not an [Exception], when a
    batch that names at least one registered tool is accepted and
    [schedule] returns, then either every call has been handed over and
    [tool_calls] is empty, or a call awaits approval. *)
Theorem batch_with_known_tool_completes_or_waits
    (ops : list Operation) (requests : list ToolCallRequestInfo)
    (s0 : ToolScheduler) (req : ToolCallRequestInfo) :
  tool_calls s0 = [] -> events s0 = [] ->
  Forall unique_call_ids ops -> NoDup (batch_ids requests) ->
  Forall (fun o => escaped o = false) (outcomes ops s0) ->
  _is_running (run ops s0) = false ->
  In req requests ->
  is_Some (Registry.get_tool (name req) (registry_of (run ops s0))) ->
  fst (schedule requests (run ops s0)) = Returns tt ->
  let s' := snd (schedule requests (run ops s0)) in
  tool_calls s' = []
  \/ exists c, c ∈ tool_calls s' /\ status c = "awaiting_approval".
Proof.
  intros Hc He Hu Hnd Hout Hrun Hin Hk Hret s'.
  pose proof (run_Boundary_strict convert_to_function_response time_time
                abort_during ops s0 (fresh_Boundary s0 Hc He) Hu Hout) as HB.
  apply Boundary_settled.
  - pose proof (schedule_Boundary convert_to_function_response time_time
                  abort_during true requests _ HB
                  (strict_fresh (Schedule requests) _ HB Hnd)) as H.
    cbv zeta in H. now rewrite Hret in H.
  - eapply schedule_settled; eauto.
Qed.

(** X14.  Between two operations nothing is in progress, unless a tool
    lets an exception pass that the scheduler does not catch: in a run
    that starts without calls, the call ids of each batch being
    distinct and no operation having been left by an exception that is
    not an [Exception], after every operation each call left in
    [tool_calls] is terminal or awaits approval (none is validating,
    scheduled or executing), and the calls that are not terminal have
    distinct ids. *)
Theorem between_operations_nothing_is_in_progress
    (ops : list Operation) (s0 : ToolScheduler) :
  tool_calls s0 = [] -> events s0 = [] ->
  Forall unique_call_ids ops ->
  Forall (fun o => escaped o = false) (outcomes ops s0) ->
  Forall (fun c => In (status c)
                      ["success"; "error"; "cancelled"; "awaiting_approval"])
         (tool_calls (run ops s0))
  /\ NoDup (nt_ids (tool_calls (run ops s0))).
Proof.
  intros Hc He Hu Hout.
  destruct (run_Boundary_strict convert_to_function_response time_time
              abort_during ops s0 (fresh_Boundary s0 Hc He) Hu Hout)
    as [_ Hnd Hb].
  split; [|exact Hnd].
  eapply Forall_impl; [exact (Hb eq_refl)|]. intros c [Ht|Ha].
  - unfold is_terminal, terminal_statuses in Ht. apply str_in_true in Ht.
    simpl in Ht. simpl. tauto.
  - rewrite Ha. simpl. tauto.
Qed.

(** *** Operations without effect *)

Lemma execution_loop_idle n i s :
  (forall c, c ∈ tool_calls s -> status c <> "scheduled") ->
  execution_loop n (length (retired s)) i s = (Returns tt, s).
Proof.
  intros Hns. revert i. induction n as [|n IH]; intros i; simpl; [reflexivity|].
  unfold list_object. rewrite Nat.eqb_refl.
  destruct (tool_calls s !! i) as [tc|] eqn:Hl; [|reflexivity].
  destruct (String.eqb (status tc) "scheduled") eqn:E; [|apply IH].
  apply String.eqb_eq in E. destruct (Hns tc); [|exact E].
  eapply list_elem_of_lookup_2; eauto.
Qed.

Lemma attempt_execution_idle s :
  (forall c, c ∈ tool_calls s -> status c <> "scheduled") ->
  _attempt_execution_of_scheduled_calls s = (Returns tt, s).
Proof. apply execution_loop_idle. Qed.

Lemma find_awaiting_None id off calls :
  (forall c, c ∈ calls -> call_id (request c) = id ->
             status c <> "awaiting_approval") ->
  find_awaiting id off calls = None.
Proof.
  revert off. induction calls as [|c calls IH]; intros off H; simpl;
    [reflexivity|].
  destruct (String.eqb (call_id (request c)) id) eqn:E1; simpl.
  - destruct (String.eqb (status c) "awaiting_approval") eqn:E2.
    + apply String.eqb_eq in E1, E2.
      destruct (H c (list_elem_of_here _ _) E1 E2).
    + apply IH. intros c' Hin. apply H. now apply list_elem_of_further.
  - apply IH. intros c' Hin. apply H. now apply list_elem_of_further.
Qed.

(** X15.  A confirmation response that names no call awaiting approval
    changes nothing: no status, no notification, no execution.  The
    same holds, between two operations, for an outcome that is none of
    the six known ones while the signal is not aborted. *)
Theorem confirmation_response_without_effect
    (id outcome : string) (payload : option (dict Json)) (s : ToolScheduler) :
  ((forall c, c ∈ tool_calls s -> call_id (request c) = id ->
              status c <> "awaiting_approval") ->
   handle_confirmation_response id outcome payload s = (Returns tt, s))
  /\ ((forall c, c ∈ tool_calls s -> status c <> "scheduled") ->
      signal_aborted s = false ->
      ~ In outcome ["cancel"; "modify_with_editor"; "proceed_once";
                    "proceed_always"; "proceed_always_server";
                    "proceed_always_tool"] ->
      handle_confirmation_response id outcome payload s = (Returns tt, s)).
Proof.
  unfold Scheduler.handle_confirmation_response. split.
  - intros H. now rewrite (find_awaiting_None id 0 (tool_calls s) H).
  - intros Hns Hsig Hout.
    destruct (find_awaiting id 0 (tool_calls s)) as [[i tc]|]; [|reflexivity].
    assert (E1 : String.eqb outcome "cancel" = false).
    { apply String.eqb_neq. intros ->. apply Hout. simpl. auto. }
    assert (E2 : String.eqb outcome "modify_with_editor" = false).
    { apply String.eqb_neq. intros ->. apply Hout. simpl. auto. }
    assert (E3 : str_in outcome
                   ["proceed_once"; "proceed_always";
                    "proceed_always_server"; "proceed_always_tool"] = false).
    { apply not_true_iff_false. intros E. apply str_in_true in E.
      apply Hout. simpl in E |- *. tauto. }
    rewrite E1, E2, E3, Hsig. simpl.
    now apply attempt_execution_idle.
Qed.

Lemma with_tool_calls_same s :
  with_tool_calls (tool_calls s ++ []) s = s.
Proof. destruct s. unfold with_tool_calls. simpl. now rewrite app_nil_r. Qed.

(** X16.  An empty batch, scheduled while every call of the list is
    terminal, is accepted and only notified: the listeners are called
    once with the list as it is, no call changes, and
    [on_all_tools_complete] is not called. *)
Theorem empty_batch_is_only_notified (s : ToolScheduler) :
  Forall (fun c => is_terminal c = true) (tool_calls s) ->
  schedule [] s = (Returns tt, _notify_tool_calls_update s)
  /\ tool_calls (snd (schedule [] s)) = tool_calls s
  /\ completed_batches (events (snd (schedule [] s)))
     = completed_batches (events s).
Proof.
  intros Ht. rewrite List.Forall_forall in Ht.
  assert (Hrun : _is_running s = false).
  { unfold _is_running. apply not_true_iff_false. intros E.
    apply existsb_exists in E as (c & Hin & E).
    specialize (Ht c Hin). unfold is_terminal in Ht.
    apply str_in_true in E. apply str_in_true in Ht.
    simpl in E, Ht. destruct E as [E|[E|[]]]; rewrite <- E in Ht;
      repeat (destruct Ht as [Ht|Ht]; [discriminate|]); exact Ht. }
  assert (Hs : schedule [] s = (Returns tt, _notify_tool_calls_update s)).
  { unfold Scheduler.schedule. rewrite Hrun. simpl.
    rewrite with_tool_calls_same.
    apply attempt_execution_idle. intros c Hin E.
    destruct (notify_effect s) as (_ & _ & _ & Hc & _). rewrite Hc in Hin.
    apply list_elem_of_In in Hin. specialize (Ht c Hin).
    unfold is_terminal in Ht. rewrite E in Ht. discriminate. }
  split; [exact Hs|]. rewrite Hs. cbn [snd].
  unfold _notify_tool_calls_update.
  destruct (on_tool_calls_update s); [|auto]. simpl. split; [reflexivity|].
  unfold completed_batches. rewrite flat_map_app. simpl.
  now rewrite app_nil_r.
Qed.

(** *** Which call [_set_status] replaces *)

Lemma target_first id calls i tc :
  target id calls = Some (i, tc) ->
  forall j c, j < i -> calls !! j = Some c ->
              call_id (request c) = id -> is_terminal c = true.
Proof.
  revert i. induction calls as [|c0 calls IH]; intros i; simpl; [discriminate|].
  destruct (String.eqb (call_id (request c0)) id && negb (is_terminal c0))
    eqn:E.
  - intros [= <- <-] j c Hj. lia.
  - destruct (target id calls) as [[k tk]|] eqn:Ht; [|discriminate].
    intros [= <- <-] j c Hj Hl Hid. destruct j as [|j]; simpl in Hl.
    + injection Hl as ->. apply String.eqb_eq in Hid. rewrite Hid in E.
      simpl in E. now apply negb_false_iff in E.
    + apply (IH k eq_refl j c); [lia|exact Hl|exact Hid].
Qed.

Lemma target_None_all id calls :
  target id calls = None ->
  forall c, c ∈ calls -> call_id (request c) = id -> is_terminal c = true.
Proof.
  intros Ht c Hin Hid. apply list_elem_of_lookup_1 in Hin as [k Hk].
  destruct (is_terminal c) eqn:E; [reflexivity|].
  destruct (target_None_ids id calls Ht k c Hk E). exact Hid.
Qed.

(** X17.  One [_set_status] replaces at most one call: the first call
    of the list with this id that is not terminal, by a call of the
    status asked for and with the same request.  When there is no such
    call, or the status is not one of the six known ones, no call is
    replaced.  Afterwards the list is the one so obtained, or it is
    empty because the sweep has handed that list over. *)
Theorem set_status_replaces_first_open_call
    (id st : string) (d : Details) (s : ToolScheduler) :
  exists calls1,
    (tool_calls (_set_status id st d s) = calls1
     \/ (tool_calls (_set_status id st d s) = []
         /\ sweep_condition calls1 = true
         /\ retired (_set_status id st d s) = retired s ++ [calls1]))
    /\ ((calls1 = tool_calls s
         /\ (known_status st = false
             \/ forall c, c ∈ tool_calls s -> call_id (request c) = id ->
                          is_terminal c = true))
        \/ exists i tc nc,
             tool_calls s !! i = Some tc
             /\ call_id (request tc) = id /\ is_terminal tc = false
             /\ (forall j c, j < i -> tool_calls s !! j = Some c ->
                             call_id (request c) = id ->
                             is_terminal c = true)
             /\ known_status st = true
             /\ status nc = st /\ request nc = request tc
             /\ calls1 = <[i := nc]> (tool_calls s)).
Proof.
  destruct (set_status_effect time_time id st d s)
    as (calls1 & evs1 & evs2 & Hloop & Hsw & _).
  exists calls1. split.
  - inversion Hsw as [_ H _|Hc H Hr]; [now left|right; auto].
  - inversion Hloop as [Hcase|i tc nc Ht Hk Hs Hr]; subst.
    + left. split; [reflexivity|]. destruct Hcase as [Ht|Hk]; [|now left].
      right. now apply target_None_all.
    + right. exists i, tc, nc.
      pose proof (target_first _ _ _ _ Ht) as Hfirst.
      apply target_Some in Ht as (Hl & Hid & Hnt). auto 10.
Qed.

End WithEnvironment.

(** *** The run with a confirmation, once more *)

Lemma no_call_is_lost_or_reported_twice_witness :
  on_all_tools_complete example_scheduler = true
  /\ reported (events (run example_converter example_clock never_aborts
                         confirmed_run example_scheduler))
     ++ map call_id_of
          (tool_calls (run example_converter example_clock never_aborts
                         confirmed_run example_scheduler))
     = (reported (events example_scheduler)
          ++ map call_id_of (tool_calls example_scheduler))
       ++ accepted_run example_converter example_clock never_aborts
            confirmed_run example_scheduler.
Proof.
  split; [reflexivity|].
  exact (no_call_is_lost_or_reported_twice example_converter example_clock
           never_aborts confirmed_run example_scheduler eq_refl).
Defined.

Lemma terminal_calls_answer_their_request_witness :
  tool_calls example_scheduler = []
  /\ events example_scheduler = []
  /\ forall c,
      In c (tool_calls (run example_converter example_clock never_aborts
                          confirmed_run example_scheduler)) ->
      is_terminal c = true ->
      exists r, response c = DResponse r
                /\ response_call_id r = call_id (request c).
Proof.
  split; [reflexivity|]. split; [reflexivity|]. intros c.
  apply (terminal_calls_answer_their_request example_converter example_clock
           never_aborts confirmed_run example_scheduler eq_refl eq_refl
           _ c).
  right. right. reflexivity.
Defined.

Lemma every_assignment_is_notified_witness :
  on_tool_calls_update example_scheduler = true
  /\ events example_scheduler = []
  /\ forall k i old new,
      events (run example_converter example_clock never_aborts
                confirmed_run example_scheduler) !! k
      = Some (Assigned i old new) ->
      exists l,
        events (run example_converter example_clock never_aborts
                  confirmed_run example_scheduler) !! S k
        = Some (ToolCallsUpdate l)
        /\ l !! i = Some new.
Proof.
  split; [reflexivity|]. split; [reflexivity|].
  exact (every_assignment_is_notified example_converter example_clock
           never_aborts confirmed_run example_scheduler eq_refl eq_refl).
Defined.

Lemma batch_with_known_tool_completes_or_waits_witness :
  tool_calls example_scheduler = []
  /\ events example_scheduler = []
  /\ Forall unique_call_ids []
  /\ NoDup (batch_ids [request_of "c1" "missing"; request_of "c2" "now"])
  /\ Forall (fun o : Outcome unit => escaped o = false)
       (outcomes example_converter example_clock never_aborts []
          example_scheduler)
  /\ _is_running (run example_converter example_clock never_aborts []
                    example_scheduler) = false
  /\ In (request_of "c2" "now")
        [request_of "c1" "missing"; request_of "c2" "now"]
  /\ is_Some (Registry.get_tool (name (request_of "c2" "now"))
                (registry_of example_scheduler))
  /\ fst (schedule example_converter example_clock never_aborts
            [request_of "c1" "missing"; request_of "c2" "now"]
            example_scheduler) = Returns tt
  /\ (tool_calls
        (snd (schedule example_converter example_clock never_aborts
                [request_of "c1" "missing"; request_of "c2" "now"]
                example_scheduler)) = []
      \/ exists c,
          c ∈ tool_calls
                (snd (schedule example_converter example_clock never_aborts
                        [request_of "c1" "missing"; request_of "c2" "now"]
                        example_scheduler))
          /\ status c = "awaiting_approval").
Proof.
  assert (H3 : Forall unique_call_ids []) by constructor.
  assert (H4 : NoDup (batch_ids [request_of "c1" "missing";
                                 request_of "c2" "now"]))
    by (apply NoDup_two; discriminate).
  assert (H5 : Forall (fun o : Outcome unit => escaped o = false)
                 (outcomes example_converter example_clock never_aborts []
                    example_scheduler)) by constructor.
  assert (H6 : In (request_of "c2" "now")
                  [request_of "c1" "missing"; request_of "c2" "now"])
    by (right; left; reflexivity).
  assert (H7 : is_Some (Registry.get_tool (name (request_of "c2" "now"))
                          (registry_of example_scheduler)))
    by (eexists; reflexivity).
  split; [reflexivity|]. split; [reflexivity|]. split; [exact H3|].
  split; [exact H4|]. split; [exact H5|]. split; [reflexivity|].
  split; [exact H6|]. split; [exact H7|]. split; [reflexivity|].
  exact (batch_with_known_tool_completes_or_waits example_converter
           example_clock never_aborts [] _ example_scheduler _
           eq_refl eq_refl H3 H4 H5 eq_refl H6 H7 eq_refl).
Defined.

Lemma confirmed_run_returns :
  Forall (fun o : Outcome unit => escaped o = false)
    (outcomes example_converter example_clock never_aborts confirmed_run
       example_scheduler).
Proof.
  apply List.Forall_cons; [reflexivity|].
  apply List.Forall_cons; [reflexivity|apply List.Forall_nil].
Defined.

Lemma between_operations_nothing_is_in_progress_witness :
  tool_calls example_scheduler = []
  /\ events example_scheduler = []
  /\ Forall unique_call_ids confirmed_run
  /\ Forall (fun o : Outcome unit => escaped o = false)
       (outcomes example_converter example_clock never_aborts confirmed_run
          example_scheduler)
  /\ Forall (fun c => In (status c)
                         ["success"; "error"; "cancelled";
                          "awaiting_approval"])
            (tool_calls (run example_converter example_clock never_aborts
                           confirmed_run example_scheduler)).
Proof.
  assert (H3 : Forall unique_call_ids confirmed_run).
  { apply List.Forall_cons;
      [|apply List.Forall_cons; [exact I|apply List.Forall_nil]].
    simpl. apply NoDup_two. discriminate. }
  split; [reflexivity|]. split; [reflexivity|]. split; [exact H3|].
  split; [exact confirmed_run_returns|].
  exact (proj1 (between_operations_nothing_is_in_progress example_converter
                  example_clock never_aborts confirmed_run example_scheduler
                  eq_refl eq_refl H3 confirmed_run_returns)).
Defined.

Lemma confirmation_response_without_effect_witness :
  (forall c, c ∈ tool_calls waiting_scheduler ->
             call_id (request c) = "c9" ->
             status c <> "awaiting_approval")
  /\ handle_confirmation_response example_converter example_clock
       never_aborts "c9" "proceed_once" None waiting_scheduler
     = (Returns tt, waiting_scheduler).
Proof.
  assert (H : forall c, c ∈ tool_calls waiting_scheduler ->
                        call_id (request c) = "c9" ->
                        status c <> "awaiting_approval").
  { intros c Hin Hid. apply list_elem_of_singleton in Hin. subst c.
    discriminate. }
  split; [exact H|].
  exact (proj1 (confirmation_response_without_effect example_converter
                  example_clock never_aborts "c9" "proceed_once" None
                  waiting_scheduler) H).
Defined.

(** The scheduler after a batch that names an unknown tool only: the
    errored call is still in the list. *)
Definition stale_scheduler : ToolScheduler :=
  snd (schedule example_converter example_clock never_aborts
         [request_of "c1" "missing"] example_scheduler).

Lemma empty_batch_is_only_notified_witness :
  Forall (fun c => is_terminal c = true) (tool_calls stale_scheduler)
  /\ schedule example_converter example_clock never_aborts []
       stale_scheduler
     = (Returns tt, _notify_tool_calls_update stale_scheduler)
  /\ completed_batches
       (events (snd (schedule example_converter example_clock never_aborts
                       [] stale_scheduler)))
     = completed_batches (events stale_scheduler).
Proof.
  assert (H : Forall (fun c => is_terminal c = true)
                     (tool_calls stale_scheduler)).
  { apply List.Forall_cons; [reflexivity|constructor]. }
  split; [exact H|].
  destruct (empty_batch_is_only_notified example_converter example_clock
              never_aborts stale_scheduler H) as (H1 & _ & H3).
  split; [exact H1|exact H3].
Defined.

End SchedulerRunFacts.

(** * The sanitizer: what it leaves alone *)

Module SanitizerFrameFacts.
Import Py Sanitizer SanitizerFacts.

(** *** Fields *)

Lemma is_unsupported_In key :
  is_unsupported key = true <-> In key unsupported_fields.
Proof.
  unfold is_unsupported. rewrite existsb_exists. split.
  - intros (f & Hin & E). apply String.eqb_eq in E. now subst.
  - intros H. exists key. split; [exact H|apply String.eqb_refl].
Qed.

Lemma get_clean_fields_format d :
  get (clean_fields d) "format" = get d "format"
  \/ (get (clean_fields d) "format" = None
      /\ get d "type" = Some (VStr "string")
      /\ get d "format" <> Some (VStr "enum")
      /\ get d "format" <> Some (VStr "date-time")).
Proof.
  unfold clean_fields, clean_format.
  set (u := delete_unsupported d).
  assert (Ht : get u "type" = get d "type")
    by (unfold u; now rewrite get_delete_unsupported).
  assert (Hf : get u "format" = get d "format")
    by (unfold u; now rewrite get_delete_unsupported).
  unfold contains. rewrite Ht, Hf.
  destruct (is_str (get d "type") "string") eqn:E1; simpl; [|now left].
  destruct (get d "format") as [fv|] eqn:E2; [|now left].
  destruct (is_str (Some fv) "enum" || is_str (Some fv) "date-time") eqn:E3;
    simpl; [now left|].
  right. rewrite get_del_eq. split; [reflexivity|].
  apply orb_false_iff in E3 as [E3 E4]. split; [|split].
  - unfold is_str in E1. destruct (get d "type") as [[| | |t| |]|];
      try discriminate. apply String.eqb_eq in E1. now subst.
  - intros [= ->]. simpl in E3. discriminate.
  - intros [= ->]. simpl in E4. discriminate.
Qed.

Lemma delete_unsupported_stripped d : stripped d -> delete_unsupported d = d.
Proof.
  intros Hs. unfold delete_unsupported.
  assert (H : forall fs, (forall f, In f fs -> get d f = None) ->
              fold_left (fun d f => if contains d f then del d f else d) fs d
              = d).
  { induction fs as [|f fs IH]; intros Hfs; simpl; [reflexivity|].
    assert (E : contains d f = false)
      by (unfold contains; now rewrite (Hfs f) by now left).
    rewrite E. apply IH. intros g Hg. apply Hfs. now right. }
  apply H. exact Hs.
Qed.

Lemma clean_format_idempotent d : clean_format (clean_format d) = clean_format d.
Proof.
  unfold clean_format at 2.
  destruct (is_str (get d "type") "string" && contains d "format") eqn:E1;
    [|reflexivity].
  destruct (negb (is_str (get d "format") "enum"
                  || is_str (get d "format") "date-time")) eqn:E2;
    [|reflexivity].
  assert (E : contains (del d "format") "format" = false)
    by (unfold contains; now rewrite get_del_eq).
  unfold clean_format. now rewrite E, andb_false_r, E1, E2.
Qed.

Lemma clean_fields_idempotent d : clean_fields (clean_fields d) = clean_fields d.
Proof.
  unfold clean_fields at 1.
  rewrite (delete_unsupported_stripped (clean_fields d))
    by apply stripped_clean_fields.
  unfold clean_fields. apply clean_format_idempotent.
Qed.

(** X18.  What sanitizing never does: when [sanitize_parameters]
    returns, every dictionary that existed is still there, no field was
    added to it and no value changed; each field other than the twelve
    unsupported ones and ['format'] is as before; and ['format'] is as
    before unless the dictionary had the type ['string'] and a format
    that is neither ['enum'] nor ['date-time']. *)
Theorem sanitize_parameters_keeps_supported_fields
    (schema : option nat) (heap : Heap) (r : option nat) (heap' : Heap) :
  sanitize_parameters schema heap = Finished (r, heap') ->
  forall x dx,
    heap !! x = Some dx ->
    exists dx',
      heap' !! x = Some dx'
      /\ (forall kv, In kv dx' -> In kv dx)
      /\ (forall key, ~ In key unsupported_fields -> key <> "format" ->
                      get dx' key = get dx key)
      /\ (get dx' "format" = get dx "format"
          \/ (get dx' "format" = None
              /\ get dx "type" = Some (VStr "string")
              /\ get dx "format" <> Some (VStr "enum")
              /\ get dx "format" <> Some (VStr "date-time"))).
Proof.
  intros H x dx Hx.
  assert (Hcase : heap' !! x = Some dx \/ heap' !! x = Some (clean_fields dx)).
  { destruct (sanitize_parameters_cases _ _ _ _ H)
      as [(_ & -> & _)|(s & d & -> & Hs & Hd)]; [now left|].
    destruct (sanitize_parameters_cleans_in_place heap s d r heap' Hs Hd H)
      as (_ & _ & _ & _ & U & _). now apply U. }
  destruct Hcase as [E|E].
  - exists dx. split; [exact E|]. split; [auto|]. split; [auto|now left].
  - exists (clean_fields dx). split; [exact E|].
    split; [intros kv; apply in_clean_fields|]. split.
    + intros key Hn Hf. apply get_clean_fields_kept; [|exact Hf].
      apply not_true_iff_false. intros Hu. apply Hn.
      now apply is_unsupported_In.
    + apply get_clean_fields_format.
Qed.

(** *** Only nested dictionaries are visited *)

(** [x] is [l] or is nested below [l]. *)
Definition reach (h : Heap) (l x : nat) : Prop := x = l \/ nested h l x.

(** The dictionaries a run visits are reached from where it starts. *)
Definition rec_reach (rec : nat -> State -> Run State) : Prop :=
  forall l st st',
    rec l st = Finished st' ->
    forall x, x ∈ st'.2 -> x ∉ st.2 -> reach st.1 l x.

Lemma lookup_post st st' x d' :
  post st st' -> st'.1 !! x = Some d' ->
  exists d, st.1 !! x = Some d /\ (d' = d \/ d' = clean_fields d).
Proof.
  intros HP Hx. destruct (post_lookup st st' x HP) as [E|E]; rewrite Hx in E.
  - exists d'. auto.
  - destruct (st.1 !! x) as [d|]; [|discriminate].
    injection E as ->. exists d. auto.
Qed.

Lemma get_kept d d' key :
  d' = d \/ d' = clean_fields d ->
  In key ["properties"; "items"; "anyOf"; "oneOf"; "allOf"] ->
  get d' key = get d key.
Proof.
  intros [->| ->] Hkey; [reflexivity|].
  destruct (kept_key key Hkey). now apply get_clean_fields_kept.
Qed.

Lemma in_kept (d d' : Object) kv :
  d' = d \/ d' = clean_fields d -> In kv d' -> In kv d.
Proof. intros [->| ->]; [auto|apply in_clean_fields]. Qed.

Lemma child_post st st' x c :
  post st st' -> child st'.1 x c -> child st.1 x c.
Proof.
  intros HP (dx' & Hdx' & Hc & Hcases).
  pose proof HP as (_ & L & _).
  destruct (lookup_post st st' x dx' HP Hdx') as (dx & Hdx & Hk).
  exists dx. split; [exact Hdx|]. split; [congruence|].
  destruct Hcases
    as [(p & props' & k & Hg & Hp & Hin)|[Hi|(key & items & Hkey & Hg & Hin)]].
  - left. destruct (lookup_post st st' p props' HP Hp) as (props & Hp0 & Hkp).
    exists p, props, k. split; [|split; [exact Hp0|]].
    + rewrite <- (get_kept dx dx' "properties" Hk); [exact Hg|simpl; auto].
    + eapply in_kept; eauto.
  - right. left.
    rewrite <- (get_kept dx dx' "items" Hk); [exact Hi|simpl; auto].
  - right. right. exists key, items. split; [exact Hkey|]. split; [|exact Hin].
    rewrite <- (get_kept dx dx' key Hk); [exact Hg|].
    unfold list_keys in Hkey. simpl in *. tauto.
Qed.

Lemma nested_post st st' l x :
  post st st' -> nested st'.1 l x -> nested st.1 l x.
Proof.
  intros HP Hn. induction Hn as [c Hc|y c _ IH Hc].
  - apply nested_child. eapply child_post; eauto.
  - eapply nested_step; [exact IH|]. eapply child_post; eauto.
Qed.

Lemma reach_post st st' l x :
  post st st' -> reach st'.1 l x -> reach st.1 l x.
Proof.
  intros HP [->|Hn]; [now left|]. right. eapply nested_post; eauto.
Qed.

Lemma nested_prepend h l c x : child h l c -> nested h c x -> nested h l x.
Proof.
  intros Hc Hn. induction Hn as [x Hx|y x _ IH Hx].
  - eapply nested_step; [apply nested_child; exact Hc|exact Hx].
  - eapply nested_step; [exact IH|exact Hx].
Qed.

Lemma reach_prepend h l c x : child h l c -> reach h c x -> nested h l x.
Proof.
  intros Hc [->|Hn]; [now apply nested_child|].
  eapply nested_prepend; eauto.
Qed.

Lemma nested_lt h l x : nested h l x -> x < length h.
Proof. intros Hn. destruct Hn as [c (_ & _ & H & _)|y c _ (_ & _ & H & _)]; exact H. Qed.

Lemma visit_if_dict_reach rec v st st' :
  rec_reach rec -> visit_if_dict rec v st = Finished st' ->
  forall x, x ∈ st'.2 -> x ∉ st.2 ->
  exists c, v = VDict c /\ c < length st.1 /\ reach st.1 c x.
Proof.
  intros Hrec. unfold visit_if_dict.
  destruct v as [| | | | |c];
    try (intros [= <-] x H1 H2; contradiction).
  destruct (st.1 !! c) as [dc|] eqn:Hc.
  - intros H x H1 H2. exists c. split; [reflexivity|].
    split; [eapply lookup_lt_Some; eauto|]. eapply Hrec; eauto.
  - intros [= <-] x H1 H2. contradiction.
Qed.

Lemma for_list_reach rec items st st' :
  rec_ok rec -> rec_reach rec -> for_list rec items st = Finished st' ->
  forall x, x ∈ st'.2 -> x ∉ st.2 ->
  exists c, In (VDict c) items /\ c < length st.1 /\ reach st.1 c x.
Proof.
  intros Hok Hrec. revert st.
  induction items as [|item rest IH]; intros st; simpl.
  - intros [= <-] x H1 H2. contradiction.
  - intros H x H1 H2. apply bind_Finished in H as (st1 & Hv & Hr).
    destruct (visit_if_dict_ok _ _ _ _ Hok Hv) as [[P1 _] _].
    destruct (decide (x ∈ st1.2)) as [Hin|Hnin].
    + destruct (visit_if_dict_reach _ _ _ _ Hrec Hv x Hin H2)
        as (c & -> & Hc & Hreach).
      exists c. auto.
    + destruct (IH _ Hr x H1 Hnin) as (c & Hc & Hlt & Hreach).
      exists c. split; [now right|].
      pose proof P1 as (_ & L & _). split; [congruence|].
      eapply reach_post; eauto.
Qed.

Lemma for_items_reach rec p size0 pending st st' :
  rec_ok rec -> rec_reach rec ->
  for_items rec p size0 pending st = Finished st' ->
  forall x, x ∈ st'.2 -> x ∉ st.2 ->
  exists k c, In (k, VDict c) pending /\ c < length st.1 /\ reach st.1 c x.
Proof.
  intros Hok Hrec. revert st.
  induction pending as [|[k0 v0] rest IH]; intros st; simpl.
  - destruct (negb _); [discriminate|].
    intros [= <-] x H1 H2. contradiction.
  - destruct (negb _); [discriminate|].
    intros H x H1 H2. apply bind_Finished in H as (st1 & Hv & Hr).
    destruct (visit_if_dict_ok _ _ _ _ Hok Hv) as [[P1 _] _].
    destruct (decide (x ∈ st1.2)) as [Hin|Hnin].
    + destruct (visit_if_dict_reach _ _ _ _ Hrec Hv x Hin H2)
        as (c & -> & Hc & Hreach).
      exists k0, c. auto.
    + destruct (IH _ Hr x H1 Hnin) as (k & c & Hc & Hlt & Hreach).
      exists k, c. split; [now right|].
      pose proof P1 as (_ & L & _). split; [congruence|].
      eapply reach_post; eauto.
Qed.

Lemma recurse_properties_reach rec l st st' :
  rec_ok rec -> rec_reach rec ->
  recurse_properties rec l st = Finished st' ->
  forall x, x ∈ st'.2 -> x ∉ st.2 ->
  exists c, child st.1 l c /\ reach st.1 c x.
Proof.
  intros Hok Hrec. unfold recurse_properties, field.
  destruct (st.1 !! l) as [d|] eqn:Hl;
    [|intros [= <-] x H1 H2; contradiction].
  destruct (get d "properties") as [[| | | | |p]|] eqn:Hg;
    try (intros [= <-] x H1 H2; contradiction).
  destruct (st.1 !! p) as [props|] eqn:Hp;
    [|intros [= <-] x H1 H2; contradiction].
  intros H x H1 H2.
  destruct (for_items_reach _ _ _ _ _ _ Hok Hrec H x H1 H2)
    as (k & c & Hin & Hlt & Hreach).
  exists c. split; [|exact Hreach].
  exists d. split; [exact Hl|]. split; [exact Hlt|].
  left. exists p, props, k. auto.
Qed.

Lemma recurse_items_reach rec l st st' :
  rec_reach rec -> recurse_items rec l st = Finished st' ->
  forall x, x ∈ st'.2 -> x ∉ st.2 ->
  exists c, child st.1 l c /\ reach st.1 c x.
Proof.
  intros Hrec. unfold recurse_items, field.
  destruct (st.1 !! l) as [d|] eqn:Hl;
    [|intros [= <-] x H1 H2; contradiction].
  destruct (get d "items") as [v|] eqn:Hg;
    [|intros [= <-] x H1 H2; contradiction].
  intros H x H1 H2.
  destruct (visit_if_dict_reach _ _ _ _ Hrec H x H1 H2)
    as (c & -> & Hlt & Hreach).
  exists c. split; [|exact Hreach].
  exists d. split; [exact Hl|]. split; [exact Hlt|]. right. now left.
Qed.

Lemma recurse_list_reach rec key l st st' :
  In key list_keys ->
  rec_ok rec -> rec_reach rec ->
  recurse_list rec key l st = Finished st' ->
  forall x, x ∈ st'.2 -> x ∉ st.2 ->
  exists c, child st.1 l c /\ reach st.1 c x.
Proof.
  intros Hkey Hok Hrec. unfold recurse_list, field.
  destruct (st.1 !! l) as [d|] eqn:Hl;
    [|intros [= <-] x H1 H2; contradiction].
  destruct (get d key) as [[| | | |items|]|] eqn:Hg;
    try (intros [= <-] x H1 H2; contradiction).
  intros H x H1 H2.
  destruct (for_list_reach _ _ _ _ Hok Hrec H x H1 H2)
    as (c & Hin & Hlt & Hreach).
  exists c. split; [|exact Hreach].
  exists d. split; [exact Hl|]. split; [exact Hlt|].
  right. right. exists key, items. auto.
Qed.

Lemma stage_reach (h : Heap) (vis : gset nat) st l x :
  post (h, vis) st ->
  (exists c, child st.1 l c /\ reach st.1 c x) ->
  reach h l x.
Proof.
  intros HP (c & Hc & Hr). right.
  apply (reach_prepend h l c x).
  - exact (child_post (h, vis) st l c HP Hc).
  - exact (reach_post (h, vis) st c x HP Hr).
Qed.

Lemma sanitize_recursive_reach fuel :
  rec_reach (_sanitize_parameters_recursive fuel).
Proof.
  induction fuel as [|fuel IH]; intros l [h vis] st' H x Hx Hnx;
    [discriminate|].
  pose proof (sanitize_recursive_ok fuel) as Hok.
  simpl in H, Hnx |- *.
  destruct (decide (l ∈ vis)) as [Hin|Hnin].
  { injection H as <-. contradiction. }
  destruct (h !! l) as [d|] eqn:Hd.
  2:{ injection H as <-. simpl in Hx.
      apply elem_of_union in Hx as [Hx|Hx]; [|contradiction].
      apply elem_of_singleton in Hx. now left. }
  set (st1 := (<[l := clean_fields d]> h, {[l]} ∪ vis) : State) in *.
  destruct (decide (x = l)) as [->|Hne]; [now left|].
  assert (Hn1 : x ∉ st1.2).
  { simpl. intros Hin. apply elem_of_union in Hin as [Hin|Hin];
      [|contradiction]. apply elem_of_singleton in Hin. contradiction. }
  assert (P01 : post (h, vis) st1).
  { assert (Hl : l < length h) by (eapply lookup_lt_Some; eauto).
    split; [simpl; apply union_subseteq_r|].
    split; [simpl; apply length_insert|]. split.
    - intros y Hy. simpl in *. apply list_lookup_insert_ne.
      intros ->. destruct Hy as [Hy|Hy]; [|contradiction].
      apply Hy. apply elem_of_union_l. now apply elem_of_singleton.
    - intros y Hy Hny. simpl in *.
      apply elem_of_union in Hy as [Hy|Hy]; [|contradiction].
      apply elem_of_singleton in Hy. subst y. split; [assumption|].
      rewrite list_lookup_insert_eq by assumption. now rewrite Hd. }
  apply bind_Finished in H as (st2 & H2 & H).
  apply bind_Finished in H as (st3 & H3 & H).
  apply bind_Finished in H as (st4 & H4 & H).
  apply bind_Finished in H as (st5 & H5 & H6).
  destruct (recurse_properties_ok _ _ _ _ Hok H2) as [[P2 _] _].
  destruct (recurse_items_ok _ _ _ _ Hok H3) as [[P3 _] _].
  destruct (recurse_list_ok _ _ _ _ _ Hok H4) as [[P4 _] _].
  destruct (recurse_list_ok _ _ _ _ _ Hok H5) as [[P5 _] _].
  assert (P02 : post (h, vis) st2) by (eapply post_trans; eauto).
  assert (P03 : post (h, vis) st3) by (eapply post_trans; eauto).
  assert (P04 : post (h, vis) st4) by (eapply post_trans; eauto).
  assert (P05 : post (h, vis) st5) by (eapply post_trans; eauto).
  destruct (decide (x ∈ st2.2)) as [I2|N2].
  { apply (stage_reach h vis st1 l x P01).
    exact (recurse_properties_reach _ _ _ _ Hok IH H2 x I2 Hn1). }
  destruct (decide (x ∈ st3.2)) as [I3|N3].
  { apply (stage_reach h vis st2 l x P02).
    exact (recurse_items_reach _ _ _ _ IH H3 x I3 N2). }
  destruct (decide (x ∈ st4.2)) as [I4|N4].
  { apply (stage_reach h vis st3 l x P03).
    refine (recurse_list_reach _ "anyOf" _ _ _ _ Hok IH H4 x I4 N3).
    simpl. auto. }
  destruct (decide (x ∈ st5.2)) as [I5|N5].
  { apply (stage_reach h vis st4 l x P04).
    refine (recurse_list_reach _ "oneOf" _ _ _ _ Hok IH H5 x I5 N4).
    simpl. auto. }
  apply (stage_reach h vis st5 l x P05).
  refine (recurse_list_reach _ "allOf" _ _ _ _ Hok IH H6 x Hx N5).
  simpl. auto.
Qed.

(** *** From the copy back to the schema of the caller *)

Lemma child_transfer (heap : Heap) d y y' dy c :
  closed_heap heap ->
  (heap ++ [d]) !! y = Some dy -> heap !! y' = Some dy ->
  child (heap ++ [d]) y c -> child heap y' c.
Proof.
  intros Hcl Hy Hy' (dx & Hdx & _ & Hcases).
  rewrite Hy in Hdx. injection Hdx as <-.
  destruct (Hcl y' dy Hy') as [C1 C2].
  exists dy. split; [exact Hy'|].
  destruct Hcases
    as [(p & props & k & Hg & Hp & Hin)|[Hi|(key & items & Hkey & Hg & Hin)]].
  - pose proof (C1 _ _ (get_In _ _ _ Hg)) as Hplt.
    rewrite lookup_app_l in Hp by exact Hplt.
    destruct (Hcl p props Hp) as [Cp _].
    split; [exact (Cp _ _ Hin)|]. left. exists p, props, k. auto.
  - split; [exact (C1 _ _ (get_In _ _ _ Hi))|]. right. now left.
  - split; [exact (C2 _ _ _ (get_In _ _ _ Hg) Hin)|].
    right. right. exists key, items. auto.
Qed.

Lemma nested_of_copy (heap : Heap) s d x :
  closed_heap heap -> heap !! s = Some d ->
  nested (heap ++ [d]) (length heap) x -> nested heap s x.
Proof.
  intros Hcl Hs Hn.
  assert (Hr : (heap ++ [d]) !! length heap = Some d).
  { rewrite lookup_app_r by lia. now rewrite Nat.sub_diag. }
  induction Hn as [c Hc|y c _ IH Hc].
  - apply nested_child. eapply child_transfer; eauto.
  - eapply nested_step; [exact IH|].
    pose proof (nested_lt _ _ _ IH) as Hy.
    destruct (lookup_lt_is_Some_2 heap y Hy) as [dy Hdy].
    eapply (child_transfer heap d y y dy); eauto.
    now rewrite lookup_app_l by exact Hy.
Qed.

Lemma sanitize_parameters_frame (heap : Heap) s d r heap' :
  closed_heap heap -> heap !! s = Some d -> d <> [] ->
  sanitize_parameters (Some s) heap = Finished (r, heap') ->
  forall x dx,
    heap !! x = Some dx ->
    heap' !! x = Some dx
    \/ (nested heap s x /\ heap' !! x = Some (clean_fields dx)).
Proof.
  intros Hcl Hs Hd H x dx Hx.
  assert (Hxlt : x < length heap) by (eapply lookup_lt_Some; eauto).
  assert (Hraw : exists vis',
             _sanitize_parameters_recursive (S (length heap + 1))
               (length heap) (heap ++ [d], ∅) = Finished (heap', vis')).
  { revert H. unfold sanitize_parameters, sanitize_parameters_fuel.
    rewrite Hs. destruct d as [|kv d0]; [contradiction|].
    replace (length heap + 2) with (S (length heap + 1)) by lia.
    intros H. apply bind_Finished in H as ([h' vis'] & H & [= _ <-]).
    now exists vis'. }
  destruct Hraw as (vis' & Hraw).
  assert (Hr : (heap ++ [d]) !! length heap = Some d).
  { rewrite lookup_app_r by lia. now rewrite Nat.sub_diag. }
  destruct (sanitize_recursive_ok (S (length heap + 1)) (length heap)
              (heap ++ [d], ∅) (heap', vis'))
    as [[P _] _]; [simpl; now rewrite Hr|exact Hraw|].
  pose proof P as (_ & _ & U & C). simpl in U, C.
  destruct (decide (x ∈ vis')) as [Hin|Hnin].
  - right. split.
    + destruct (sanitize_recursive_reach _ _ _ _ Hraw x Hin
                  (not_elem_of_empty _)) as [->|Hn]; [lia|].
      simpl in Hn. eapply nested_of_copy; eauto.
    + destruct (C x Hin (not_elem_of_empty _)) as [_ E].
      rewrite E, lookup_app_l by exact Hxlt. now rewrite Hx.
  - left. rewrite U by auto. now rewrite lookup_app_l by exact Hxlt.
Qed.

(** X19.  Only the sub-schemas can change.  For a heap in which every
    reference points to a dictionary, [sanitize_parameters] leaves
    every dictionary of the caller as it is, except those nested below
    the schema, which it cleans in place.  In particular the top-level
    dictionary of the caller keeps all its fields, the unsupported ones
    too, unless the schema is nested below itself. *)
Theorem sanitize_parameters_changes_only_nested
    (heap : Heap) (s : nat) (d : Object) (r : option nat) (heap' : Heap) :
  closed_heap heap -> heap !! s = Some d -> d <> [] ->
  sanitize_parameters (Some s) heap = Finished (r, heap') ->
  (forall x dx,
      heap !! x = Some dx ->
      heap' !! x = Some dx
      \/ (nested heap s x /\ heap' !! x = Some (clean_fields dx)))
  /\ (~ nested heap s s -> heap' !! s = Some d).
Proof.
  intros Hcl Hs Hd H.
  pose proof (sanitize_parameters_frame heap s d r heap' Hcl Hs Hd H) as F.
  split; [exact F|].
  intros Hn. destruct (F s d Hs) as [E|[Hnest _]]; [exact E|contradiction].
Qed.

(** *** A second run *)

Lemma child_of_schema (heap1 : Heap) s r0 d c :
  heap1 !! r0 = Some (clean_fields d) ->
  heap1 !! s = Some d \/ heap1 !! s = Some (clean_fields d) ->
  child heap1 s c -> child heap1 r0 c.
Proof.
  intros Hr0 Hs (dx & Hdx & Hc & Hcases).
  assert (Hk : clean_fields d = dx \/ clean_fields d = clean_fields dx).
  { destruct Hs as [E|E]; rewrite Hdx in E; injection E as ->.
    - now right.
    - left. reflexivity. }
  assert (Hget : forall key,
             In key ["properties"; "items"; "anyOf"; "oneOf"; "allOf"] ->
             get (clean_fields d) key = get dx key)
    by (intros key; now apply get_kept).
  exists (clean_fields d). split; [exact Hr0|]. split; [exact Hc|].
  destruct Hcases
    as [(p & props & k & Hg & Hp & Hin)|[Hi|(key & items & Hkey & Hg & Hin)]].
  - left. exists p, props, k. split; [|auto].
    rewrite Hget; [exact Hg|simpl; auto].
  - right. left. rewrite Hget; [exact Hi|simpl; auto].
  - right. right. exists key, items. split; [exact Hkey|]. split; [|exact Hin].
    rewrite Hget; [exact Hg|]. unfold list_keys in Hkey. simpl in *. tauto.
Qed.

Lemma nested_of_schema (heap1 : Heap) s r0 d x :
  heap1 !! r0 = Some (clean_fields d) ->
  heap1 !! s = Some d \/ heap1 !! s = Some (clean_fields d) ->
  nested heap1 s x -> nested heap1 r0 x.
Proof.
  intros Hr0 Hs Hn. induction Hn as [c Hc|y c _ IH Hc].
  - apply nested_child. eapply child_of_schema; eauto.
  - eapply nested_step; eauto.
Qed.

(** X20.  Sanitizing is done once: after a first run of
    [sanitize_parameters] on a schema, a second run on the same schema
    changes no dictionary that exists; it only allocates its own copy
    of the top level. *)
Theorem sanitize_parameters_second_run_changes_nothing
    (heap : Heap) (s : nat) (d : Object)
    (r1 : option nat) (heap1 : Heap) (r2 : option nat) (heap2 : Heap) :
  closed_heap heap -> heap !! s = Some d -> d <> [] ->
  sanitize_parameters (Some s) heap = Finished (r1, heap1) ->
  sanitize_parameters (Some s) heap1 = Finished (r2, heap2) ->
  forall x, x < length heap1 -> heap2 !! x = heap1 !! x.
Proof.
  intros Hcl Hs Hd H1 H2 x Hx.
  destruct (sanitize_parameters_cleans_in_place heap s d r1 heap1 Hs Hd H1)
    as (_ & L1 & Hr0 & _ & U1 & _ & N1 & _).
  pose proof (sanitize_parameters_closed _ _ _ _ Hcl H1) as Hcl1.
  destruct (sanitize_parameters_cases _ _ _ _ H2)
    as [(_ & -> & _)|(s' & d1 & [= <-] & Hs1 & Hd1)]; [reflexivity|].
  destruct (lookup_lt_is_Some_2 heap1 x Hx) as [dx1 Hdx1].
  destruct (sanitize_parameters_frame heap1 s d1 r2 heap2 Hcl1 Hs1 Hd1 H2
              x dx1 Hdx1) as [E|[Hn E]]; [congruence|].
  rewrite E, Hdx1. f_equal.
  assert (Hs' : heap1 !! s = Some d \/ heap1 !! s = Some (clean_fields d))
    by now apply U1.
  pose proof (nested_of_schema heap1 s (length heap) d x Hr0 Hs' Hn) as Hn0.
  destruct (decide (x = length heap)) as [->|Hne].
  - rewrite Hr0 in Hdx1. injection Hdx1 as <-. apply clean_fields_idempotent.
  - destruct (N1 x Hn0 Hne) as (dc & _ & Hc). rewrite Hc in Hdx1.
    injection Hdx1 as <-. apply clean_fields_idempotent.
Qed.

(** *** The schema of the grep tool, once more *)

Lemma sanitize_parameters_keeps_supported_fields_witness :
  sanitize_parameters (Some 0) grep_schema
  = Finished (Some 5, grep_schema_after)
  /\ exists dx',
      grep_schema_after !! 4 = Some dx'
      /\ get dx' "type" = Some (VStr "integer")
      /\ get dx' "description" = Some (VStr "Number of context lines").
Proof.
  split; [exact grep_schema_sanitized|].
  destruct (sanitize_parameters_keeps_supported_fields _ _ _ _
              grep_schema_sanitized 4 _ eq_refl)
    as (dx' & H1 & _ & H3 & _).
  exists dx'. split; [exact H1|]. split.
  - rewrite (H3 "type"); [reflexivity| |discriminate].
    simpl. intros H. repeat (destruct H as [H|H]; [discriminate|]). exact H.
  - rewrite (H3 "description"); [reflexivity| |discriminate].
    simpl. intros H. repeat (destruct H as [H|H]; [discriminate|]). exact H.
Defined.

Lemma grep_schema_top :
  grep_schema !! 0
  = Some [("type", VStr "object"); ("properties", VDict 1);
          ("required", VList [VStr "pattern"])].
Proof. reflexivity. Defined.

Lemma grep_schema_top_not_empty :
  [("type", VStr "object"); ("properties", VDict 1);
   ("required", VList [VStr "pattern"])] <> ([] : Object).
Proof. discriminate. Defined.

Lemma sanitize_parameters_changes_only_nested_witness :
  closed_heap grep_schema
  /\ forall x dx,
      grep_schema !! x = Some dx ->
      grep_schema_after !! x = Some dx
      \/ (nested grep_schema 0 x
          /\ grep_schema_after !! x = Some (clean_fields dx)).
Proof.
  split; [exact grep_schema_closed|].
  exact (proj1 (sanitize_parameters_changes_only_nested grep_schema 0 _
                  (Some 5) grep_schema_after grep_schema_closed
                  grep_schema_top grep_schema_top_not_empty
                  grep_schema_sanitized)).
Defined.

(** The second run on the schema of the grep tool. *)
Lemma grep_schema_sanitized_again :
  sanitize_parameters (Some 0) grep_schema_after
  = Finished
      (Some 6,
       grep_schema_after
         ++ [[("type", VStr "object"); ("properties", VDict 1);
              ("required", VList [VStr "pattern"])]]).
Proof. vm_compute. reflexivity. Defined.

Lemma sanitize_parameters_second_run_changes_nothing_witness :
  closed_heap grep_schema
  /\ forall x,
      x < length grep_schema_after ->
      (grep_schema_after
         ++ [[("type", VStr "object"); ("properties", VDict 1);
              ("required", VList [VStr "pattern"])]]) !! x
      = grep_schema_after !! x.
Proof.
  split; [exact grep_schema_closed|].
  exact (sanitize_parameters_second_run_changes_nothing grep_schema 0 _
           (Some 5) grep_schema_after (Some 6) _ grep_schema_closed
           grep_schema_top grep_schema_top_not_empty
           grep_schema_sanitized grep_schema_sanitized_again).
Defined.

End SanitizerFrameFacts.

(** * The format converter: round trips *)

Module MCPConverterFacts.
Import Py MCPConverter.

Section Serialization.

Variable json_loads : string -> option Json.
Variable json_dumps : Json -> string.
Variable py_str : Json -> string.

Abbreviation convert_tool_call := (convert_tool_call json_loads json_dumps).
Abbreviation convert_tool_result := (convert_tool_result py_str).

(** The content a Claude tool result has after a passage through the
    Gemini format: a dictionary with the key ['output'] is replaced by
    the value of that key. *)
Definition content_after_round_trip (content : Json) : Json :=
  match output_of content with
  | Some output => output
  | None => content
  end.

Lemma output_of_response_of_content content :
  match output_of (response_of_content content) with
  | Some output => output
  | None => response_of_content content
  end
  = content_after_round_trip content.
Proof.
  unfold content_after_round_trip.
  destruct content as [| | | | |fields]; try reflexivity.
Qed.

(** X21.  Tool calls between the Claude and the Gemini format.  A
    conversion from a format to itself returns the call as it is.  A
    Claude call converted to Gemini and back is the call with the keys
    ['type'], ['id'], ['name'] and ['input'], holding ['tool_use'] and
    the id, name and input of the original (['""'] and [{}] where the
    original has none); a call of exactly this shape comes back
    unchanged.  A Gemini call converted to Claude and back keeps its id,
    name and args and nothing else. *)
Theorem tool_call_round_trip_through_gemini (call_data : dict Json) :
  (forall format, convert_tool_call call_data format format
                  = Returns call_data)
  /\ (exists gemini,
         convert_tool_call call_data "claude" "gemini" = Returns gemini
         /\ gemini = [("id", get_default call_data "id" (JStr ""));
                      ("name", get_default call_data "name" (JStr ""));
                      ("args", get_default call_data "input" (JObj []))]
         /\ convert_tool_call gemini "gemini" "claude"
            = Returns
                [("type", JStr "tool_use");
                 ("id", get_default call_data "id" (JStr ""));
                 ("name", get_default call_data "name" (JStr ""));
                 ("input", get_default call_data "input" (JObj []))])
  /\ (forall id name input,
        call_data = [("type", JStr "tool_use"); ("id", id);
                     ("name", name); ("input", input)] ->
        exists gemini,
          convert_tool_call call_data "claude" "gemini" = Returns gemini
          /\ convert_tool_call gemini "gemini" "claude" = Returns call_data)
  /\ (exists claude,
         convert_tool_call call_data "gemini" "claude" = Returns claude
         /\ convert_tool_call claude "claude" "gemini"
            = Returns
                [("id", get_default call_data "id" (JStr ""));
                 ("name", get_default call_data "name" (JStr ""));
                 ("args", get_default call_data "args" (JObj []))]).
Proof.
  split; [|split; [|split]].
  - intros format. unfold MCPConverter.convert_tool_call.
    now rewrite String.eqb_refl.
  - eexists. split; [reflexivity|]. split; reflexivity.
  - intros id name input ->. eexists. split; reflexivity.
  - eexists. split; reflexivity.
Qed.

(** X22.  Tool results between the Claude and the Gemini format.  A
    Claude result converted to Gemini and back keeps its id; it keeps
    its content too, except that a content that is a dictionary with
    the key ['output'] comes back as the value of that key.  A Gemini
    function response converted to Claude and back keeps its id but
    loses its ['name']. *)
Theorem tool_result_round_trip_through_gemini (id content : Json) :
  let claude := [("type", JStr "tool_result"); ("tool_use_id", id);
                 ("content", content)] in
  (exists gemini,
      convert_tool_result claude "claude" "gemini" = Returns gemini
      /\ gemini = [("functionResponse",
                    JObj [("id", id);
                          ("response", response_of_content content)])]
      /\ convert_tool_result gemini "gemini" "claude"
         = Returns [("type", JStr "tool_result"); ("tool_use_id", id);
                    ("content", content_after_round_trip content)])
  /\ (output_of content = None ->
      content_after_round_trip content = content)
  /\ (forall fields output,
        content = JObj fields -> get fields "output" = Some output ->
        content_after_round_trip content = output)
  /\ (forall name response,
        exists claude',
          convert_tool_result
            [("functionResponse",
              JObj [("id", id); ("name", name); ("response", response)])]
            "gemini" "claude" = Returns claude'
          /\ exists fr,
              convert_tool_result claude' "claude" "gemini"
              = Returns [("functionResponse", JObj fr)]
              /\ get fr "id" = Some id /\ get fr "name" = None).
Proof.
  cbv zeta. split; [|split; [|split]].
  - eexists. split; [reflexivity|]. split; [reflexivity|].
    unfold MCPConverter.convert_tool_result. simpl.
    unfold _gemini_result_to_claude, get_default. simpl.
    now rewrite output_of_response_of_content.
  - intros H. unfold content_after_round_trip. now rewrite H.
  - intros fields output -> H. unfold content_after_round_trip. simpl.
    now rewrite H.
  - intros name response. eexists. split; [reflexivity|].
    eexists. split; [reflexivity|]. split; reflexivity.
Qed.

End Serialization.

End MCPConverterFacts.
